(** * Verification of the dependency-build orchestrator

    A shallow embedding of the JavaScript sources

    - [scripts/utils/dependency-resolver.js]: [resolveBuildOrder], [detectCycles],
      [getDependencies], [hasDependencies];
    - [scripts/utils/config-validator.js]: [validateBuildConfig], [getDependency],
      [getDependencyNames];
    - [scripts/utils/file-system.js]: [ensureDirectory];
    - [scripts/utils/git-operations.js]: [cloneGitRepository], [checkoutGitRef],
      [updateGitSubmodules];
    - [build/scripts/utils/repo-manager.js]: [prepareRepository],
      [getRepositoryPath];
    - the build orchestrator of [scripts/utils/index.js]: [orchestrateBuild];
    - [tools/tool-loader.js]: [loadTools], [prependToPath], [appendToEnv];

    followed by the theorems about them.

    Conventions of the embedding.
    - A JavaScript object used as a dictionary ([config.deps]) is an
      association list in [Object.keys] order. Its keys are distinct:
      theorems that need this take [NoDup (dep_keys deps)] as a hypothesis.
      Keys are ordinary property names (the special name [__proto__] is not
      modelled).
    - [null] and [undefined] are [None]. A configuration is typed as the
      data model describes it: [deps] is a list of keys, [skip] a boolean.
    - The scratch objects [graph] and [inDegree] are [gmap]s, a [Set] is a
      [gset], a number is in [Z].
    - A thrown [Error] is represented by its [message].
    - What lies outside the program (the file system, [git], the imported
      worker and tool modules, the release copy) acts on a world that the
      definitions are parameterised by. Logging is left out. *)

From stdpp Require Import gmap strings list fin_maps relations.
From Stdlib Require Import ZArith Lia Ascii.

Open Scope string_scope.
Open Scope list_scope.

Abbreviation key := string.

(** ** Data model *)

Record GitConfig := {
  git_url : option string;
  git_shallow : option bool;          (* [None]: absent or not a boolean *)
  git_initSubmodules : option bool;
}.

Record ToolSpec := {
  tool_name : string;
  tool_toolFile : string;
}.

Record DependencyConfig := {
  dep_name : option string;
  dep_git : option GitConfig;
  dep_defaultVersion : option string;
  dep_branch : option string;
  dep_deps : option (list key);
  dep_runner : option string;
  dep_tools : option (list ToolSpec);
  dep_skip : option bool;
}.

Record BuildConfig := {
  cfg_version : option string;
  cfg_deps : option (list (key * DependencyConfig));
  cfg_releasesRoot : option string;
}.

(** JavaScript truthiness of a nullable string: [null], [undefined] and the
    empty string are falsy. *)
Definition truthy (s : option string) : bool :=
  match s with
  | Some s => negb (String.eqb s "")
  | None => false
  end.

(** [Object.keys(deps)] *)
Definition dep_keys (deps : list (key * DependencyConfig)) : list key :=
  map fst deps.

(** [deps[depName]] *)
Fixpoint lookup_dep (deps : list (key * DependencyConfig)) (depName : key)
  : option DependencyConfig :=
  match deps with
  | [] => None
  | (k, d) :: rest => if decide (k = depName) then Some d else lookup_dep rest depName
  end.

(** [deps[depName].skip === true] *)
Definition skip_is_true (deps : list (key * DependencyConfig)) (depName : key) : bool :=
  match lookup_dep deps depName with
  | Some d => match dep_skip d with Some true => true | _ => false end
  | None => false
  end.

(** [config.deps[node]?.deps || []] *)
Definition dependencies_of (deps : list (key * DependencyConfig)) (depName : key)
  : list key :=
  match lookup_dep deps depName with
  | Some d => default [] (dep_deps d)
  | None => []
  end.

(** ** Strings *)

(** The line feed and the double quote, which have no literal of their own. *)
Definition nl : string := String (Ascii.ascii_of_nat 10) "".
Definition dq : string := String (Ascii.ascii_of_nat 34) "".

(** [parts.join(sep)] *)
Definition join (sep : string) (parts : list string) : string :=
  match parts with
  | [] => ""
  | part :: parts => fold_left (λ acc p, acc +:+ sep +:+ p) parts part
  end.

(** The white space that [trim] removes, restricted to ASCII: tab, line
    feed, vertical tab, form feed, carriage return and space. *)
Definition is_space (c : Ascii.ascii) : bool :=
  let n := Ascii.nat_of_ascii c in
  ((9 <=? n)%nat && (n <=? 13)%nat) || (n =? 32)%nat.

Fixpoint trim_start (s : string) : string :=
  match s with
  | String c rest => if is_space c then trim_start rest else s
  | EmptyString => EmptyString
  end.

Fixpoint trim_end (s : string) : string :=
  match s with
  | String c rest =>
      match trim_end rest with
      | EmptyString => if is_space c then EmptyString else String c EmptyString
      | rest' => String c rest'
      end
  | EmptyString => EmptyString
  end.

(** [s.trim()] *)
Definition trim (s : string) : string := trim_end (trim_start s).

(** ** dependency-resolver.js *)

Module Resolver.

Inductive outcome :=
| Order (order : list key)
    (* [return result] *)
| SkippedDependencyError (invalidDeps : list (key * list key))
    (* [throw new Error("Build configuration error: Non-skipped ...")] *)
| CircularDependencyError (cycles : list (list key)).
    (* [throw new Error("Circular dependencies detected! ...")] *)

(** The messages of the two errors. *)
Definition violation_line (v : key * list key) : string :=
  "  - " +:+ dq +:+ v.1 +:+ dq +:+ " depends on skipped: [" +:+ join ", " v.2 +:+ "]".

Definition error_message (out : outcome) : string :=
  match out with
  | Order _ => ""
  | SkippedDependencyError invalidDeps =>
      "Build configuration error: Non-skipped dependencies cannot depend on skipped dependencies."
      +:+ nl +:+ nl +:+ "Violations:" +:+ nl
      +:+ join nl (map violation_line invalidDeps) +:+ nl +:+ nl
      +:+ "Please either:" +:+ nl
      +:+ "  1. Mark the dependent as skip: true" +:+ nl
      +:+ "  2. Remove the skipped dependency from its deps array" +:+ nl
      +:+ "  3. Remove skip: true from the dependency"
  | CircularDependencyError cycles =>
      "Circular dependencies detected! Build cannot proceed." +:+ nl
      +:+ "Cycles found:" +:+ nl +:+ "  "
      +:+ join (nl +:+ "  ") (map (join " -> ") cycles) +:+ nl +:+ nl
      +:+ "Please remove these circular dependencies from your buildConfig.json"
  end.

Section Resolve.

Variable deps : list (key * DependencyConfig).

(** The first loop: [skippedDeps] and [activeDeps]. *)
Definition skippedDeps : gset key :=
  list_to_set (filter (λ depName, skip_is_true deps depName = true) (dep_keys deps)).

Definition activeDeps : list key :=
  filter (λ depName, skip_is_true deps depName ≠ true) (dep_keys deps).

(** The second loop: [invalidDeps]. *)
Definition skippedDependencies (depName : key) : list key :=
  filter (λ dep, dep ∈ skippedDeps) (dependencies_of deps depName).

Definition invalidDeps : list (key * list key) :=
  omap (λ depName,
          match skippedDependencies depName with
          | [] => None
          | sk => Some (depName, sk)
          end) activeDeps.

(** Graph construction. [graph[dependency].push(depName)], after
    [if (!graph[dependency]) graph[dependency] = []]. *)
Definition push_edge (depName : key) (graph : gmap key (list key)) (dependency : key)
  : gmap key (list key) :=
  let graph1 := match graph !! dependency with
                | None => <[dependency := []]> graph
                | Some _ => graph
                end in
  alter (λ l, l ++ [depName]) dependency graph1.

Definition init_graph (depNames : list key) : gmap key (list key) :=
  fold_left (λ g depName, <[depName := []]> g) depNames ∅.

Definition init_inDegree (depNames : list key) : gmap key Z :=
  fold_left (λ d depName, <[depName := 0%Z]> d) depNames ∅.

Definition add_dependency_edges
    (st : gmap key (list key) * gmap key Z) (depName : key)
  : gmap key (list key) * gmap key Z :=
  let dependencies := dependencies_of deps depName in
  (fold_left (push_edge depName) dependencies st.1,
   <[depName := Z.of_nat (length dependencies)]> st.2).

Definition build_graph (depNames : list key) : gmap key (list key) * gmap key Z :=
  fold_left add_dependency_edges depNames (init_graph depNames, init_inDegree depNames).

(** The seed of the queue: nodes whose in-degree is 0. *)
Definition initial_queue (depNames : list key) (inDegree : gmap key Z) : list key :=
  filter (λ depName, inDegree !! depName = Some 0%Z) depNames.

(** One iteration of the inner [for (const dependent of graph[current])]:
    [inDegree[dependent]--; if (inDegree[dependent] === 0) queue.push(dependent)]. *)
Definition relax (st : gmap key Z * list key) (dependent : key)
  : gmap key Z * list key :=
  let inDegree := alter (λ v, (v - 1)%Z) dependent st.1 in
  (inDegree,
   if decide (inDegree !! dependent = Some 0%Z) then st.2 ++ [dependent] else st.2).

(** The [while (queue.length > 0)] loop. [None] stands for an abnormal end
    that the theorems below exclude: the fuel running out, or
    [graph[current]] being [undefined]. *)
Fixpoint kahn (fuel : nat) (graph : gmap key (list key)) (inDegree : gmap key Z)
    (queue result : list key) (visited : gset key)
  : option (list key * gset key) :=
  match fuel with
  | O => None
  | S fuel =>
      match queue with
      | [] => Some (result, visited)
      | current :: queue =>
          match graph !! current with
          | None => None
          | Some dependents =>
              let st := fold_left relax dependents (inDegree, queue) in
              kahn fuel graph st.1 st.2 (result ++ [current]) ({[current]} ∪ visited)
          end
      end
  end.

(** *** detectCycles *)

Record dfs_state := {
  cycles : list (list key);
  visiting : gset key;
  visited : gset key;
}.

(** [path.indexOf(node)] *)
Fixpoint indexOf (node : key) (path : list key) : Z :=
  match path with
  | [] => (-1)%Z
  | x :: path =>
      if decide (x = node) then 0%Z
      else let i := indexOf node path in
           if decide (i = (-1)%Z) then (-1)%Z else (i + 1)%Z
  end.

(** [path.slice(start)]: a negative [start] counts from the end. *)
Definition slice_from (start : Z) (path : list key) : list key :=
  if decide (start < 0)%Z
  then drop (Z.to_nat (Z.max 0 (Z.of_nat (length path) + start))) path
  else drop (Z.to_nat start) path.

(** The body of [for (const dep of dependencies) dfs(dep, [...path])]. *)
Fixpoint dfs_each (visit : key → list key → dfs_state → option dfs_state)
    (dependencies : list key) (path : list key) (st : dfs_state)
  : option dfs_state :=
  match dependencies with
  | [] => Some st
  | dep :: dependencies =>
      match visit dep path st with
      | None => None
      | Some st => dfs_each visit dependencies path st
      end
  end.

(** [dfs(node, path)]; the fuel bounds the depth of the recursion. *)
Fixpoint dfs (fuel : nat) (node : key) (path : list key) (st : dfs_state)
  : option dfs_state :=
  match fuel with
  | O => None
  | S fuel =>
      if decide (node ∈ visiting st) then
        let cycleStart := indexOf node path in
        let cycle := slice_from cycleStart path ++ [node] in
        Some {| cycles := cycles st ++ [cycle];
                visiting := visiting st; visited := visited st |}
      else if decide (node ∈ visited st) then Some st
      else
        let st1 := {| cycles := cycles st;
                      visiting := {[node]} ∪ visiting st; visited := visited st |} in
        let path1 := path ++ [node] in
        match dfs_each (dfs fuel) (dependencies_of deps node) path1 st1 with
        | None => None
        | Some st2 =>
            Some {| cycles := cycles st2;
                    visiting := visiting st2 ∖ {[node]};
                    visited := {[node]} ∪ visited st2 |}
        end
  end.

(** [for (const node of unvisited) if (!visited.has(node)) dfs(node)] *)
Fixpoint detect_from (fuel : nat) (unvisited : list key) (st : dfs_state)
  : option dfs_state :=
  match unvisited with
  | [] => Some st
  | node :: unvisited =>
      if decide (node ∈ visited st) then detect_from fuel unvisited st
      else match dfs fuel node [] st with
           | None => None
           | Some st => detect_from fuel unvisited st
           end
  end.

Definition detectCycles (unvisited : list key) : option (list (list key)) :=
  cycles <$> detect_from (S (length (dep_keys deps))) unvisited
               {| cycles := []; visiting := ∅; visited := ∅ |}.

(** The part of [resolveBuildOrder] after the two early returns. *)
Definition resolve : option outcome :=
  match invalidDeps with
  | _ :: _ => Some (SkippedDependencyError invalidDeps)
  | [] =>
      let depNames := activeDeps in
      let '(graph, inDegree) := build_graph depNames in
      let queue := initial_queue depNames inDegree in
      match kahn (S (length depNames)) graph inDegree queue [] ∅ with
      | None => None
      | Some (result, visited) =>
          if decide (length result ≠ length depNames) then
            let unvisited := filter (λ name, name ∉ visited) depNames in
            CircularDependencyError <$> detectCycles unvisited
          else Some (Order result)
      end
  end.

End Resolve.

(** [resolveBuildOrder(config)]; [config] is [None] for [null] or [undefined]. *)
Definition resolveBuildOrder (config : option BuildConfig) : option outcome :=
  match config with
  | None => Some (Order [])
  | Some config =>
      match cfg_deps config with
      | None => Some (Order [])
      | Some deps => resolve deps
      end
  end.

End Resolver.


(** ** config-validator.js *)

Module Validator.

(** The errors that the loop body pushes for one entry. [known depRef] is
    the truthiness of [config.deps[depRef]]. *)
Definition dep_errors (depNames : list key) (known : key → bool)
    (depKey : key) (dep : DependencyConfig) : list string :=
  let prefix := "deps[" +:+ dq +:+ depKey +:+ dq +:+ "]" in
  (if truthy (dep_name dep) then []
   else [prefix +:+ " is missing required field: name"])
  ++ match dep_git dep with
     | None => [prefix +:+ " is missing required field: git (must be an object)"]
     | Some git =>
         (if truthy (git_url git) then []
          else [prefix +:+ ".git is missing required field: url"])
         ++ (match git_shallow git with
             | Some _ => []
             | None => [prefix +:+ ".git.shallow must be a boolean"]
             end)
         ++ (match git_initSubmodules git with
             | Some _ => []
             | None => [prefix +:+ ".git.initSubmodules must be a boolean"]
             end)
     end
  ++ (let hasDefaultVersion := bool_decide (is_Some (dep_defaultVersion dep)) in
      let hasBranch := bool_decide (is_Some (dep_branch dep)) in
      if negb hasDefaultVersion && negb hasBranch then
        [prefix +:+ " must have either defaultVersion or branch specified. "
         +:+ "If defaultVersion is null, branch is required."]
      else [])
  ++ match dep_deps dep with
     | Some depRefs =>
         depRefs ≫= λ depRef,
           if known depRef then []
           else [prefix +:+ ".deps references unknown dependency " +:+ dq +:+ depRef
                 +:+ dq +:+ ". Available dependencies: " +:+ join ", " depNames]
     | None => []
     end.

(** All the errors collected by the loop over [Object.keys(config.deps)]. *)
Definition validation_errors (deps : list (key * DependencyConfig)) : list string :=
  let depNames := dep_keys deps in
  depNames ≫= λ depKey,
    match lookup_dep deps depKey with
    | Some dep =>
        dep_errors depNames (λ depRef, bool_decide (is_Some (lookup_dep deps depRef)))
          depKey dep
    | None => []
    end.

(** [validateBuildConfig(config)]: [inl message] when it throws. *)
Definition validateBuildConfig (config : option BuildConfig) : string + unit :=
  match config with
  | None => inl "Build configuration is null or undefined"
  | Some config =>
      if negb (truthy (cfg_version config)) then
        inl "Build configuration must have a version field"
      else
        match cfg_deps config with
        | None => inl "Build configuration must have a deps object"
        | Some deps =>
            match validation_errors deps with
            | [] => inr ()
            | errors =>
                inl ("Build configuration validation failed:" +:+ nl +:+ "  "
                     +:+ join (nl +:+ "  ") errors)
            end
        end
  end.

(** [getDependency(config, depName)] *)
Definition getDependency (config : option BuildConfig) (depName : key)
  : option DependencyConfig :=
  match config with
  | None => None
  | Some config =>
      match cfg_deps config with
      | None => None
      | Some deps => lookup_dep deps depName
      end
  end.

End Validator.

(** ** file-system.js, git-operations.js, repo-manager.js *)

Module Git.

(** The uniform result of a command. *)
Record exec_result := {
  ok : bool;
  stdout : string;
  stderr : string;
}.

Record CloneOptions := {
  repoUrl : option string;
  destination : option string;
  shallow : option bool;               (* default: [true] *)
  extraArgs : option (list string);    (* default: [[]] *)
}.

Record CloneResult := {
  clone_ok : bool;
  clone_skipped : bool;
  clone_reason : option string;
  clone_path : string;
  clone_stdout : string;
  clone_stderr : string;
}.

Record CheckoutError := {
  err_ref : string;
  err_type : string;
  err_step : string;
  err_output : string;
}.

Record CheckoutResult := {
  checkout_ok : bool;
  checkout_skipped : bool;
  checkout_reason : option string;
  checkout_ref : option string;
  checkout_type : option string;
  checkout_errors : option (list CheckoutError);
}.

Record PrepareOptions := {
  prep_config : option DependencyConfig;
  prep_depName : string;
  prep_gitRoot : string;
  prep_force : option bool;            (* default: [false] *)
  prep_shallow : option bool;          (* default: [true] *)
  prep_initSubmodules : option bool;   (* default: [false] *)
}.

Record RepoResult := {
  repo_ok : bool;
  repo_repoRoot : string;
  repo_version : option string;
  repo_branch : option string;
  repo_skipped : bool;
}.

(** [s.startsWith('v')] and [s.slice(1)] *)
Definition startsWith_v (s : string) : bool :=
  match s with
  | String c _ => Ascii.eqb c "v"%char
  | EmptyString => false
  end.

Definition slice_1 (s : string) : string :=
  match s with
  | String _ rest => rest
  | EmptyString => EmptyString
  end.

(** [depName.replace(/[^a-zA-Z0-9._-]/g, '-')] *)
Definition is_safe_char (c : Ascii.ascii) : bool :=
  let n := Ascii.nat_of_ascii c in
  ((97 <=? n)%nat && (n <=? 122)%nat) || ((65 <=? n)%nat && (n <=? 90)%nat)
  || ((48 <=? n)%nat && (n <=? 57)%nat)
  || (n =? 46)%nat || (n =? 95)%nat || (n =? 45)%nat.

Fixpoint sanitize (s : string) : string :=
  match s with
  | String c rest => String (if is_safe_char c then c else "-"%char) (sanitize rest)
  | EmptyString => EmptyString
  end.

(** [collectOutput(execution)] *)
Definition collectOutput (execution : exec_result) : string :=
  let parts :=
    (if String.eqb (stdout execution) "" then [] else [trim (stdout execution)])
    ++ (if String.eqb (stderr execution) "" then [] else [trim (stderr execution)]) in
  join nl (filter (λ p, p ≠ "") parts).

(** [collectUniqueRefs(primary, fallback)]: [enqueue] trims a value and
    keeps it when it is not empty and was not seen before. *)
Definition enqueue (st : list string * gset string) (value : string)
  : list string * gset string :=
  let stringValue := trim value in
  if decide (stringValue = "" ∨ stringValue ∈ st.2) then st
  else (st.1 ++ [stringValue], {[stringValue]} ∪ st.2).

Definition collectUniqueRefs (primary : option string) (fallback : list string)
  : list string :=
  (fold_left enqueue (from_option (λ p, [p]) [] primary ++ fallback) ([], ∅)).1.

(** The commands of [checkoutGitRef]. *)
Definition fetch_tag (repoPath ref : string) : list string :=
  ["-C"; repoPath; "fetch"; "--depth"; "1"; "origin"; "tag"; ref].
Definition fetch_branch (repoPath ref : string) : list string :=
  ["-C"; repoPath; "fetch"; "--depth"; "1"; "origin"; ref].
Definition checkout_detached (repoPath variant : string) : list string :=
  ["-C"; repoPath; "checkout"; "--detach"; variant].
Definition checkout_plain (repoPath ref : string) : list string :=
  ["-C"; repoPath; "checkout"; ref].

Section Operations.

(** The world outside: the file system and the command runner. The file
    system primitives of [node:fs] and the path functions of [node:path]
    are parameters. *)
Context {W : Type}.
Variable existsSync : string → W → bool.
Variable mkdirSync : string → W → W.    (* [{ recursive: true }] *)
Variable rmSync : string → W → W.       (* [{ recursive: true, force: true }] *)
Variable runner : list string → W → exec_result * W.   (* [runner('git', args)] *)
Variable dirname : string → string.     (* [path.dirname] *)
Variable resolve : string → string → string.   (* [path.resolve] *)

(** The state threaded through the operations: the world, and the log of
    the git commands run so far. *)
Record state := {
  world : W;
  commands : list (list string);
}.

(** A computation returns a value or throws a message. *)
Definition M (A : Type) : Type := state → (string + A) * state.

Definition ret {A} (a : A) : M A := λ st, (inr a, st).
Definition throw {A} (message : string) : M A := λ st, (inl message, st).
Definition bind {A B} (m : M A) (f : A → M B) : M B :=
  λ st, match m st with
        | (inl e, st) => (inl e, st)
        | (inr a, st) => f a st
        end.

Local Notation "'let*' x := m 'in' k" := (bind m (λ x, k))
  (at level 10, x name, m at level 100, k at level 200).

(** [runner('git', args)] *)
Definition git (args : list string) : M exec_result :=
  λ st, let '(r, w) := runner args (world st) in
        (inr r, {| world := w; commands := commands st ++ [args] |}).

Definition exists_ (p : string) : M bool :=
  λ st, (inr (existsSync p (world st)), st).

Definition update_world (f : W → W) : M unit :=
  λ st, (inr (), {| world := f (world st); commands := commands st |}).

(** [ensureDirectory(targetPath)] *)
Definition ensureDirectory (targetPath : string) : M string :=
  if String.eqb targetPath "" then throw "ensureDirectory requires a path argument"
  else
    let* present := exists_ targetPath in
    let* _ := (if present then ret () else update_world (mkdirSync targetPath)) in
    ret targetPath.

(** [cloneGitRepository(options)] *)
Definition cloneGitRepository (options : CloneOptions) : M CloneResult :=
  if negb (truthy (repoUrl options)) then throw "cloneGitRepository requires a repoUrl"
  else if negb (truthy (destination options)) then
    throw "cloneGitRepository requires a destination path"
  else
    let url := default "" (repoUrl options) in
    let dest := default "" (destination options) in
    let parent := dirname dest in
    let* _ := ensureDirectory parent in
    let* present := exists_ dest in
    if present then
      ret {| clone_skipped := true; clone_reason := Some "already cloned";
             clone_path := dest; clone_ok := true;
             clone_stdout := ""; clone_stderr := "" |}
    else
      let args := ["clone"; url; dest] ++ default [] (extraArgs options) in
      let args := if default true (shallow options)
                  then take 1 args ++ ["--depth"; "1"] ++ drop 1 args
                  else args in
      let* result := git args in
      ret {| clone_ok := ok result; clone_stdout := stdout result;
             clone_stderr := stderr result; clone_reason := None;
             clone_skipped := false; clone_path := dest |}.

(** [updateGitSubmodules({ repoPath })] *)
Definition updateGitSubmodules (repoPath : string) : M exec_result :=
  if String.eqb repoPath "" then throw "updateGitSubmodules requires a repository path"
  else git ["-C"; repoPath; "submodule"; "update"; "--init"].

(** [attemptCheckoutVariants(runner, repoPath, ref, isTag)]; the loop over
    the variants carries [outputs]. *)
Fixpoint attempt_variants (repoPath : string) (isTag : bool)
    (variants : list string) (outputs : list string) : M (bool * string) :=
  match variants with
  | [] => ret (false, join nl (filter (λ o, o ≠ "") outputs))
  | variant :: variants =>
      let* result := git (["-C"; repoPath; "checkout"]
                    ++ (if isTag then ["--detach"] else []) ++ [variant]) in
      if ok result then ret (true, collectOutput result)
      else attempt_variants repoPath isTag variants (outputs ++ [collectOutput result])
  end.

Definition attemptCheckoutVariants (repoPath ref : string) (isTag : bool)
  : M (bool * string) :=
  attempt_variants repoPath isTag
    (if isTag then ["tags/" +:+ ref; ref] else [ref]) [].

(** The loop [for (const ref of candidates)] of [checkoutGitRef]. *)
Fixpoint checkout_candidates (repoPath : string) (candidates : list string)
    (errors : list CheckoutError) : M CheckoutResult :=
  match candidates with
  | [] =>
      ret {| checkout_ok := false; checkout_skipped := false; checkout_reason := None;
             checkout_ref := None; checkout_type := None;
             checkout_errors := Some errors |}
  | ref :: candidates =>
      let trimmedRef := trim ref in
      if String.eqb trimmedRef "" then checkout_candidates repoPath candidates errors
      else
        let* tagFetch := git (fetch_tag repoPath trimmedRef) in
        let* tagOutcome :=
          (if ok tagFetch then
             let* tagCheckout := attemptCheckoutVariants repoPath trimmedRef true in
             if tagCheckout.1 then ret (inl ())
             else ret (inr {| err_ref := trimmedRef; err_type := "tag";
                              err_step := "checkout"; err_output := tagCheckout.2 |})
           else ret (inr {| err_ref := trimmedRef; err_type := "tag";
                            err_step := "fetch"; err_output := collectOutput tagFetch |})) in
        match tagOutcome with
        | inl _ =>
            ret {| checkout_ok := true; checkout_skipped := false;
                   checkout_reason := None; checkout_ref := Some trimmedRef;
                   checkout_type := Some "tag"; checkout_errors := None |}
        | inr tagError =>
            let errors := errors ++ [tagError] in
            let* branchFetch := git (fetch_branch repoPath trimmedRef) in
            if ok branchFetch then
              let* branchCheckout := git (checkout_plain repoPath trimmedRef) in
              if ok branchCheckout then
                ret {| checkout_ok := true; checkout_skipped := false;
                       checkout_reason := None; checkout_ref := Some trimmedRef;
                       checkout_type := Some "branch"; checkout_errors := None |}
              else
                checkout_candidates repoPath candidates
                  (errors ++ [{| err_ref := trimmedRef; err_type := "branch";
                                 err_step := "checkout";
                                 err_output := collectOutput branchCheckout |}])
            else
              checkout_candidates repoPath candidates
                (errors ++ [{| err_ref := trimmedRef; err_type := "branch";
                               err_step := "fetch";
                               err_output := collectOutput branchFetch |}])
        end
  end.

(** [checkoutGitRef({ repoPath, primaryRef, fallbackRefs })] *)
Definition checkoutGitRef (repoPath : string) (primaryRef : option string)
    (fallbackRefs : list string) : M CheckoutResult :=
  if String.eqb repoPath "" then throw "checkoutGitRef requires a repository path"
  else
    match collectUniqueRefs primaryRef fallbackRefs with
    | [] =>
        ret {| checkout_ok := true; checkout_skipped := true;
               checkout_reason := Some "no reference provided";
               checkout_ref := None; checkout_type := None; checkout_errors := None |}
    | candidates => checkout_candidates repoPath candidates []
    end.

(** *** repo-manager.js *)

(** The line of the failure message for one attempt. *)
Definition attempt_line (e : CheckoutError) : string :=
  "  · " +:+ err_ref e +:+ " " +:+ err_type e +:+ " " +:+ err_step e
  +:+ (if String.eqb (err_output e) "" then "" else nl +:+ "    " +:+ err_output e).

(** The part of [prepareRepository] that determines and checks out the
    reference ("Determine what to checkout", "Checkout the reference"). *)
Definition checkout_step (config : DependencyConfig) (depName repoRoot : string)
  : M unit :=
  match
    match dep_defaultVersion config, dep_branch config with
    | Some version, _ => Some (version, false)    (* prefer the version (tag) *)
    | None, Some branch => Some (branch, true)
    | None, None => None
    end
  with
  | None => throw (depName +:+ ": either defaultVersion or branch must be specified in config")
  | Some (checkoutRef, isBranch) =>
      if String.eqb checkoutRef "" then ret ()
      else
        let trimmedRef := trim checkoutRef in
        let fallbackRefs :=
          if negb isBranch && negb (String.eqb trimmedRef "") then
            [if startsWith_v trimmedRef then slice_1 trimmedRef else "v" +:+ trimmedRef]
          else [] in
        let* checkoutResult := checkoutGitRef repoRoot (Some trimmedRef) fallbackRefs in
        if checkout_ok checkoutResult then ret ()
        else
          let detail :=
            match checkout_errors checkoutResult with
            | Some errors =>
                let lines := join nl (map attempt_line errors) in
                if String.eqb lines "" then "unknown error" else lines
            | None => "unknown error"
            end in
          throw ("Failed to checkout " +:+ depName +:+ " reference " +:+ dq
                 +:+ checkoutRef +:+ dq +:+ "." +:+ nl +:+ "Attempts:" +:+ nl +:+ detail)
  end.

(** [prepareRepository(options)] *)
Definition prepareRepository (options : PrepareOptions) : M RepoResult :=
  let depName := prep_depName options in
  let gitRoot := prep_gitRoot options in
  let force := default false (prep_force options) in
  let initSubmodules := default false (prep_initSubmodules options) in
  match prep_config options with
  | None => throw ("prepareRepository: config is required for " +:+ depName)
  | Some config =>
      if String.eqb depName "" then throw "prepareRepository: depName is required"
      else if String.eqb gitRoot "" then throw "prepareRepository: gitRoot is required"
      else
        match dep_git config with
        | None => throw ("prepareRepository: " +:+ depName +:+ " config is missing git.url")
        | Some gitConfig =>
            if negb (truthy (git_url gitConfig)) then
              throw ("prepareRepository: " +:+ depName +:+ " config is missing git.url")
            else
              let* _ := ensureDirectory gitRoot in
              let repoRoot := resolve gitRoot (sanitize depName) in
              let* present := exists_ repoRoot in
              let* _ := (if force && present then update_world (rmSync repoRoot)
                         else ret ()) in
              let* cloneResult := cloneGitRepository
                {| repoUrl := git_url gitConfig; destination := Some repoRoot;
                   shallow := Some (default true (prep_shallow options));
                   extraArgs := None |} in
              if negb (clone_ok cloneResult) && negb (clone_skipped cloneResult) then
                throw ("Failed to clone " +:+ depName +:+ " repository: "
                       +:+ (if negb (String.eqb (clone_stderr cloneResult) "")
                            then clone_stderr cloneResult
                            else if negb (String.eqb (clone_stdout cloneResult) "")
                                 then clone_stdout cloneResult
                                 else "unknown error"))
              else
                let* _ := checkout_step config depName repoRoot in
                let* _ :=
                  (if initSubmodules then
                   let* submoduleResult := updateGitSubmodules repoRoot in
                   if ok submoduleResult then ret ()
                   else throw ("Failed to initialize " +:+ depName +:+ " submodules:" +:+ nl
                               +:+ (if negb (String.eqb (stderr submoduleResult) "")
                                    then stderr submoduleResult
                                    else if negb (String.eqb (stdout submoduleResult) "")
                                         then stdout submoduleResult
                                         else "unknown error"))
                 else ret ()) in
                ret {| repo_ok := true; repo_repoRoot := repoRoot;
                       repo_version := dep_defaultVersion config;
                       repo_branch := dep_branch config;
                       repo_skipped := clone_skipped cloneResult |}
        end
  end.

End Operations.

End Git.

(** ** build-orchestrator.js *)

Module Orchestrator.

(** An entry of [results]; a build worker returns such an object too. *)
Record BuildResult := {
  ok : bool;
  name : string;
  version : option string;
  branch : option string;
  error : option string;
  skipped : option bool;
  reason : option string;
  releaseDir : option string;
  releasedFiles : option (list string);
}.

Record BuildOptions := {
  build_repoRoot : string;
  build_artifactsRoot : string;
  build_force : bool;
}.

Record CopyOptions := {
  copy_depName : key;
  copy_depConfig : DependencyConfig;
  copy_version : option string;
  copy_artifactsRoot : string;
  copy_artifactsDirName : string;
  copy_releasesRoot : string;
  copy_buildRoot : string;
}.

Record ReleaseResult := {
  release_ok : bool;
  release_releaseDir : string;
}.

Record Options := {
  opt_config : option BuildConfig;
  opt_buildRoot : option string;
  opt_force : option bool;             (* default: [false] *)
  opt_copyToReleases : option bool;    (* default: [false] *)
  opt_only : option (list key);        (* default: [null] *)
}.

(** The calls that the orchestrator makes to its collaborators, in the
    order in which it makes them. *)
Inductive event :=
| EnsureDirectory (path : string)
| PrepareRepository (depName : key)
| ImportWorker (depName : key) (workerUrl : string)
| LoadTools (depName : key)
| ToolsLoaded (depName : key)          (* [loadTools] returned the cleanup *)
| Build (depName : key)                (* [buildFunction] is invoked *)
| BuildReturned (depName : key)
| BuildThrew (depName : key)
| CleanupTools (depName : key)         (* [cleanupTools()] in [finally] *)
| CopyToReleases (depName : key)
| ListReleasedFiles (depName : key).

#[global] Instance event_eq_dec : EqDecision event.
Proof. solve_decision. Defined.

Section Orchestration.

(** The collaborators: everything outside the orchestrator acts on a world
    [W] and returns a value or throws a message. *)
Context {W : Type}.

Record WorkerModule := {
  exports : list string;               (* [Object.keys(workerModule)] *)
  build : option (BuildOptions → W → (string + BuildResult) * W);
}.

Variable prepareRepository : Git.PrepareOptions → W → (string + Git.RepoResult) * W.
Variable importModule : string → W → (string + WorkerModule) * W.
Variable ensureDirectory : string → W → (string + unit) * W.
Variable loadTools :
  list ToolSpec → string → W → (string + (W → (string + unit) * W)) * W.
Variable copyToReleases : CopyOptions → W → (string + ReleaseResult) * W.
Variable listReleasedFiles : string → W → (string + list string) * W.
Variable path_join : string → string → string.      (* [path.join] *)
Variable path_resolve : string → string → string.   (* [path.resolve] *)
Variable pathToFileURL : string → string.           (* [pathToFileURL(p).href] *)

(** The state of a run: the world and the local array [results]. *)
Record state := {
  world : W;
  results : list BuildResult;
}.

(** A computation returns a value or throws a message, and logs its calls. *)
Definition M (A : Type) : Type := state → (string + A) * list event * state.

Definition ret {A} (a : A) : M A := λ st, (inr a, [], st).
Definition throw {A} (message : string) : M A := λ st, (inl message, [], st).

Definition bind {A B} (m : M A) (f : A → M B) : M B :=
  λ st, match m st with
        | (inl e, evs, st) => (inl e, evs, st)
        | (inr a, evs, st) => let '(r, evs', st) := f a st in (r, evs ++ evs', st)
        end.

(** [try { m } catch (error) { handler error }] *)
Definition try_catch {A} (m : M A) (handler : string → M A) : M A :=
  λ st, match m st with
        | (inl e, evs, st) => let '(r, evs', st) := handler e st in (r, evs ++ evs', st)
        | (inr a, evs, st) => (inr a, evs, st)
        end.

(** [try { m } finally { cleanup }]: the completion of [m] stands unless
    [cleanup] throws. *)
Definition try_finally {A} (m : M A) (cleanup : M unit) : M A :=
  λ st, let '(r, evs, st) := m st in
        let '(r', evs', st) := cleanup st in
        (match r' with inl e => inl e | inr _ => r end, evs ++ evs', st).

Local Notation "'let*' x := m 'in' k" := (bind m (λ x, k))
  (at level 10, x name, m at level 100, k at level 200).

(** A call to a collaborator, logged. *)
Definition call {A} (ev : event) (f : W → (string + A) * W) : M A :=
  λ st, let '(r, w) := f (world st) in
        (r, [ev], {| world := w; results := results st |}).

Definition emit (ev : event) : M unit := λ st, (inr (), [ev], st).

(** [results.push(entry)] *)
Definition push (entry : BuildResult) : M unit :=
  λ st, (inr (), [], {| world := world st; results := results st ++ [entry] |}).

Definition failed (depName : key) (message : string) : BuildResult :=
  {| ok := false; name := depName; error := Some message;
     version := None; branch := None; skipped := None; reason := None;
     releaseDir := None; releasedFiles := None |}.

Definition skipped_entry (depName : key) : BuildResult :=
  {| ok := true; name := depName; skipped := Some true;
     reason := Some "marked as skip in config";
     version := None; branch := None; error := None;
     releaseDir := None; releasedFiles := None |}.

(** [{ ...buildResult, name: depName, version, branch }] and the same with
    the release fields. *)
Definition built (buildResult : BuildResult) (depName : key)
    (repoResult : Git.RepoResult) : BuildResult :=
  {| ok := ok buildResult; name := depName;
     version := Git.repo_version repoResult; branch := Git.repo_branch repoResult;
     error := error buildResult; skipped := skipped buildResult;
     reason := reason buildResult;
     releaseDir := releaseDir buildResult; releasedFiles := releasedFiles buildResult |}.

Definition released (buildResult : BuildResult) (depName : key)
    (repoResult : Git.RepoResult) (dir : string) (files : list string) : BuildResult :=
  {| ok := ok buildResult; name := depName;
     version := Git.repo_version repoResult; branch := Git.repo_branch repoResult;
     error := error buildResult; skipped := skipped buildResult;
     reason := reason buildResult;
     releaseDir := Some dir; releasedFiles := Some files |}.

(** [buildFunction(options)], with its completion logged. *)
Definition invoke_build (depName : key)
    (buildFunction : BuildOptions → W → (string + BuildResult) * W)
    (options : BuildOptions) : M BuildResult :=
  λ st, let '(r, w) := buildFunction options (world st) in
        (r, [Build depName;
             match r with inr _ => BuildReturned depName | inl _ => BuildThrew depName end],
         {| world := w; results := results st |}).

Section Dependency.

Variable config : BuildConfig.
Variable buildRoot : string.
Variable force copyToReleasesFlag : bool.
Variable gitRoot artifactsRoot : string.

(** The body of the [try] block for one dependency. *)
Definition build_dependency (depName : key) (depConfig : DependencyConfig) : M unit :=
  let* gitConfig :=
    match dep_git depConfig with
    | Some gitConfig => ret gitConfig
    | None => throw "Cannot read properties of undefined (reading 'shallow')"
    end in
  let* repoResult :=
    call (PrepareRepository depName)
      (prepareRepository
         {| Git.prep_config := Some depConfig; Git.prep_depName := depName;
            Git.prep_gitRoot := gitRoot; Git.prep_force := Some force;
            Git.prep_shallow := git_shallow gitConfig;
            Git.prep_initSubmodules := git_initSubmodules gitConfig |}) in
  if negb (truthy (dep_runner depConfig)) then
    throw ("Dependency " +:+ dq +:+ depName +:+ dq +:+ " is missing a " +:+ dq
           +:+ "runner" +:+ dq +:+ " field in buildConfig.json")
  else
    let workerPath := default "" (dep_runner depConfig) in
    let absoluteWorkerPath := path_resolve buildRoot workerPath in
    let workerUrl := pathToFileURL absoluteWorkerPath in
    let* workerModule := call (ImportWorker depName workerUrl) (importModule workerUrl) in
    match build workerModule with
    | None =>
        throw ("Build worker at " +:+ dq +:+ workerPath +:+ dq
               +:+ " does not export a " +:+ dq +:+ "build" +:+ dq
               +:+ " function. Available exports: " +:+ join ", " (exports workerModule))
    | Some buildFunction =>
        let artifactsDirName :=
          if truthy (dep_name depConfig) then default "" (dep_name depConfig)
          else depName in
        let depArtifactsRoot := path_join artifactsRoot artifactsDirName in
        let* _ := call (EnsureDirectory depArtifactsRoot)
                    (ensureDirectory depArtifactsRoot) in
        let* cleanupTools :=
          match dep_tools depConfig with
          | Some (tool :: tools) =>
              let toolsDir := path_join buildRoot "tools" in
              let* cleanup := call (LoadTools depName)
                                (loadTools (tool :: tools) toolsDir) in
              let* _ := emit (ToolsLoaded depName) in
              ret cleanup
          | _ => ret (λ w, (inr (), w))
          end in
        let* buildResult :=
          try_finally
            (invoke_build depName buildFunction
               {| build_repoRoot := Git.repo_repoRoot repoResult;
                  build_artifactsRoot := depArtifactsRoot; build_force := force |})
            (call (CleanupTools depName) cleanupTools) in
        if copyToReleasesFlag && truthy (cfg_releasesRoot config) then
          let* releaseResult :=
            call (CopyToReleases depName)
              (copyToReleases
                 {| copy_depName := depName; copy_depConfig := depConfig;
                    copy_version := Git.repo_version repoResult;
                    copy_artifactsRoot := artifactsRoot;
                    copy_artifactsDirName := artifactsDirName;
                    copy_releasesRoot := default "" (cfg_releasesRoot config);
                    copy_buildRoot := buildRoot |}) in
          if release_ok releaseResult then
            let* releasedFiles :=
              call (ListReleasedFiles depName)
                (listReleasedFiles (release_releaseDir releaseResult)) in
            push (released buildResult depName repoResult
                    (release_releaseDir releaseResult) releasedFiles)
          else push (built buildResult depName repoResult)
        else push (built buildResult depName repoResult)
    end.

(** The body of [for (const depName of filteredBuildOrder)]. *)
Definition process_dependency (depName : key) : M unit :=
  match Validator.getDependency (Some config) depName with
  | None =>
      let message := "Dependency " +:+ depName +:+ " not found in configuration" in
      let* _ := push (failed depName message) in
      throw message
  | Some depConfig =>
      match dep_skip depConfig with
      | Some true => push (skipped_entry depName)
      | _ =>
          try_catch (build_dependency depName depConfig)
            (λ message,
               let* _ := push (failed depName message) in
               throw message)
      end
  end.

Fixpoint orchestrate_loop (order : list key) : M unit :=
  match order with
  | [] => ret ()
  | depName :: order =>
      let* _ := process_dependency depName in
      orchestrate_loop order
  end.

End Dependency.

(** [orchestrateBuild(options)]. The result is [None] only where the model
    of [resolveBuildOrder] is. *)
Definition orchestrateBuild (options : Options) : option (M (list BuildResult)) :=
  let force := default false (opt_force options) in
  let copyToReleasesFlag := default false (opt_copyToReleases options) in
  match opt_config options with
  | None => Some (throw "orchestrateBuild requires a config object")
  | Some config =>
      if negb (truthy (opt_buildRoot options)) then
        Some (throw "orchestrateBuild requires a buildRoot directory")
      else
        let buildRoot := default "" (opt_buildRoot options) in
        match Validator.validateBuildConfig (Some config) with
        | inl message => Some (throw message)
        | inr _ =>
            match Resolver.resolveBuildOrder (Some config) with
            | None => None
            | Some (Resolver.Order buildOrder) =>
                let filteredBuildOrder :=
                  match opt_only options with
                  | Some (o :: only) =>
                      filter (λ depName, depName ∈ o :: only) buildOrder
                  | _ => buildOrder
                  end in
                let gitRoot := path_join buildRoot ".git.temp" in
                let artifactsRoot := path_join buildRoot "artifacts" in
                Some (
                  let* _ := call (EnsureDirectory gitRoot) (ensureDirectory gitRoot) in
                  let* _ := call (EnsureDirectory artifactsRoot)
                              (ensureDirectory artifactsRoot) in
                  let* _ := (λ st, (inr (), [], {| world := world st; results := [] |})) in
                  let* _ := orchestrate_loop config buildRoot force copyToReleasesFlag
                              gitRoot artifactsRoot filteredBuildOrder in
                  λ st, (inr (results st), [], st))
            | Some failure => Some (throw (Resolver.error_message failure))
            end
        end
  end.

End Orchestration.

End Orchestrator.

(** ** Queries on the configuration *)




(** ** The path of a repository *)

Section Paths.

Variable resolve : string → string → string.   (* [path.resolve] *)

(** [getRepositoryPath(gitRoot, depName)] of repo-manager.js *)
Definition getRepositoryPath (gitRoot depName : string) : string :=
  resolve gitRoot (Git.sanitize depName).

End Paths.

(** ** tools/tool-loader.js *)

Module ToolLoader.

(** [s.split(delimiter)] for a delimiter of one character. *)
Fixpoint split (delimiter : Ascii.ascii) (s : string) : list string :=
  match s with
  | EmptyString => [EmptyString]
  | String c rest =>
      if Ascii.eqb c delimiter then EmptyString :: split delimiter rest
      else match split delimiter rest with
           | first :: others => String c first :: others
           | [] => [String c EmptyString]
           end
  end.

(** The calls that [loadTools] and the cleanup that it returns make. *)
Inductive event :=
| Import (spec : ToolSpec)             (* [import(toolUrl)] *)
| Configure (spec : ToolSpec)          (* [toolModule.configureTool()] *)
| Cleanup (name : string).             (* the [cleanup()] of the tool [name] *)

Section Loader.

(** The world: [process.env], and everything else. *)
Context {R : Type}.

Record World := {
  env : gmap string string;
  rest : R;
}.

(** [process.env[name] = value]: the value is converted to a string, so
    that [undefined] is stored as the string ["undefined"]. *)
Definition assign (name : string) (value : option string) (w : World) : World :=
  {| env := <[name := default "undefined" value]> (env w); rest := rest w |}.

(** What [configureTool] returns, and a tool module. *)
Record ToolResult := {
  tool_ok : bool;
  tool_reason : option string;
  tool_cleanup : option (World → (string + unit) * World);
}.

Record ToolModule := {
  configureTool : option (World → (string + ToolResult) * World);
}.

Variable importModule : string → World → (string + ToolModule) * World.
Variable path_join : string → string → string.      (* [path.join] *)
Variable pathToFileURL : string → string.           (* [pathToFileURL(p).href] *)
Variable delimiter : Ascii.ascii.                   (* [path.delimiter] *)

(** A computation returns a value or throws a message, and logs its calls. *)
Definition M (A : Type) : Type := World → (string + A) * list event * World.

Definition ret {A} (a : A) : M A := λ w, (inr a, [], w).
Definition throw {A} (message : string) : M A := λ w, (inl message, [], w).

Definition bind {A B} (m : M A) (f : A → M B) : M B :=
  λ w, match m w with
       | (inl e, evs, w) => (inl e, evs, w)
       | (inr a, evs, w) => let '(r, evs', w) := f a w in (r, evs ++ evs', w)
       end.

Definition try_catch {A} (m : M A) (handler : string → M A) : M A :=
  λ w, match m w with
       | (inl e, evs, w) => let '(r, evs', w) := handler e w in (r, evs ++ evs', w)
       | (inr a, evs, w) => (inr a, evs, w)
       end.

Definition call {A} (ev : event) (f : World → (string + A) * World) : M A :=
  λ w, let '(r, w) := f w in (r, [ev], w).

Local Notation "'let*' x := m 'in' k" := (bind m (λ x, k))
  (at level 10, x name, m at level 100, k at level 200).

(** The body of [for (const spec of toolSpecs)]: what it pushes on
    [cleanupFunctions], if anything. *)
Definition load_tool (toolsDir : string) (spec : ToolSpec)
  : M (option (string * (World → (string + unit) * World))) :=
  let name := tool_name spec in
  let toolFile := tool_toolFile spec in
  let toolPath := path_join toolsDir toolFile in
  let toolUrl := pathToFileURL toolPath in
  try_catch
    (let* toolModule := call (Import spec) (importModule toolUrl) in
     match configureTool toolModule with
     | None => ret None                (* [continue] *)
     | Some configure =>
         let* result := call (Configure spec) configure in
         if negb (tool_ok result) then
           throw ("Failed to configure tool " +:+ dq +:+ name +:+ dq +:+ ": "
                  +:+ (if truthy (tool_reason result) then default "" (tool_reason result)
                       else "unknown error"))
         else
           ret (match tool_cleanup result with
                | Some cleanup => Some (name, cleanup)
                | None => None
                end)
     end)
    (λ message,
       throw ("Failed to load tool " +:+ dq +:+ name +:+ dq +:+ " from " +:+ dq
              +:+ toolFile +:+ dq +:+ ": " +:+ message)).

Fixpoint load_each (toolsDir : string) (specs : list ToolSpec)
    (cleanupFunctions : list (string * (World → (string + unit) * World)))
  : M (list (string * (World → (string + unit) * World))) :=
  match specs with
  | [] => ret cleanupFunctions
  | spec :: specs =>
      let* pushed := load_tool toolsDir spec in
      load_each toolsDir specs (cleanupFunctions ++ from_option (λ c, [c]) [] pushed)
  end.

(** [for (let i = cleanupFunctions.length - 1; i >= 0; i--)]: [run_cleanups
    (S i)] is the iteration for index [i] and those below. *)
Fixpoint run_cleanups (i : nat)
    (cleanupFunctions : list (string * (World → (string + unit) * World))) : M unit :=
  match i with
  | O => ret ()
  | S i =>
      match cleanupFunctions !! i with
      | Some (name, cleanup) =>
          let* _ := try_catch (call (Cleanup name) cleanup) (λ _, ret ()) in
          run_cleanups i cleanupFunctions
      | None => ret ()
      end
  end.

(** The function that [loadTools] returns. *)
Definition cleanupTools (originalEnv : option string * option string * option string)
    (cleanupFunctions : list (string * (World → (string + unit) * World))) : M unit :=
  let* _ := run_cleanups (length cleanupFunctions) cleanupFunctions in
  λ w, (inr (), [],
        assign "LIB" originalEnv.2
          (assign "INCLUDE" originalEnv.1.2 (assign "PATH" originalEnv.1.1 w))).

(** [loadTools(toolSpecs, toolsDir)] *)
Definition loadTools (toolSpecs : option (list ToolSpec)) (toolsDir : string)
  : M (M unit) :=
  match toolSpecs with
  | None | Some [] => ret (ret ())     (* [return () => {}] *)
  | Some specs =>
      λ w, let originalEnv := (env w !! "PATH", env w !! "INCLUDE", env w !! "LIB") in
           (let* cleanupFunctions := load_each toolsDir specs [] in
            ret (cleanupTools originalEnv cleanupFunctions)) w
  end.

(** [prependToPath(newPath)] *)
Definition prependToPath (newPath : string) (w : World) : World :=
  let current := default "" (env w !! "PATH") in
  let paths := split delimiter current in
  if decide (newPath ∈ paths) then w
  else assign "PATH" (Some (newPath +:+ String delimiter current)) w.

(** [appendToEnv(varName, value)] *)
Definition appendToEnv (varName value : string) (w : World) : World :=
  let current := default "" (env w !! varName) in
  let values := filter (λ v, v ≠ "") (split ";" current) in
  if decide (value ∈ values) then w
  else assign varName
         (Some (if String.eqb current "" then value else current +:+ ";" +:+ value)) w.

End Loader.

End ToolLoader.

(** ** Vocabulary of the specification *)

Section Vocabulary.

Variable deps : list (key * DependencyConfig).

Local Abbreviation dps := (dependencies_of deps).

(** Number of occurrences of [a] in [l]. *)
Definition occs (a : key) (l : list key) : nat :=
  length (filter (λ x, x = a) l).

(** Entries of [l] that are not yet in [R]. *)
Definition pending (R l : list key) : nat :=
  length (filter (λ b, b ∉ R) l).

(** Chains of a relation: every element is related to the next one. *)
Fixpoint chain_from (E : relation key) (a : key) (l : list key) : Prop :=
  match l with
  | [] => True
  | b :: l => E a b ∧ chain_from E b l
  end.

Definition chain (E : relation key) (l : list key) : Prop :=
  match l with
  | [] => True
  | a :: l => chain_from E a l
  end.

(** What [graph[x]] holds once the graph is built over [names]: each
    dependent [A], once for every occurrence of [x] in [A]'s dependencies. *)
Definition dependents (names : list key) (x : key) : list key :=
  names ≫= λ A, replicate (occs x (dps A)) A.

(** Dependencies come before dependents. *)
Definition ordered (R : list key) : Prop :=
  ∀ R1 A R2, R = R1 ++ A :: R2 → ∀ b, b ∈ dps A → b ∈ R1.

(** The loop invariant at the head of [while (queue.length > 0)]. *)
Record kahn_inv (N : list key) (D : gmap key Z) (Q R : list key) : Prop := {
  inv_nodup : NoDup (R ++ Q);
  inv_nodes : ∀ A, A ∈ R ++ Q → A ∈ N;
  inv_degree : ∀ A, A ∈ N → D !! A = Some (Z.of_nat (pending R (dps A)));
  inv_ready : ∀ A, A ∈ N → (A ∈ R ++ Q ↔ pending R (dps A) = 0);
  inv_ordered : ordered R;
}.

(** [b] is listed in [deps[a].deps]. *)
Definition dep_edge (a b : key) : Prop := b ∈ dps a.

(** A reported cycle closes: it starts and ends with the same node and each
    node lists the next one among its dependencies. *)
Definition closes (cycle : list key) : Prop :=
  (∃ x l, cycle = x :: l ++ [x]) ∧ chain dep_edge cycle.

(** The invariant of [dfs]: recorded cycles close, and [visiting] is on the path. *)
Definition dfs_inv (path : list key) (st : Resolver.dfs_state) : Prop :=
  Forall closes (Resolver.cycles st) ∧ ∀ x, x ∈ Resolver.visiting st → x ∈ path.

(** Edges of the graph over active nodes. *)
Definition active_edge (A B : key) : Prop :=
  A ∈ Resolver.activeDeps deps ∧ B ∈ Resolver.activeDeps deps ∧ B ∈ dps A.



(** No active dependency lists a skipped one (the data model's invariant). *)
Definition no_skipped_reference : Prop :=
  ∀ A B, A ∈ Resolver.activeDeps deps → B ∈ dps A → skip_is_true deps B ≠ true.

End Vocabulary.

(** [B] occurs strictly before [A] in [order]. *)
Definition precedes (B A : key) (order : list key) : Prop :=
  ∃ l1 l2 l3, order = l1 ++ B :: l2 ++ A :: l3.


(** The dependency that a logged call was made for ([None] for the
    directories that [orchestrateBuild] ensures). *)
Definition event_dep (ev : Orchestrator.event) : option key :=
  match ev with
  | Orchestrator.EnsureDirectory _ => None
  | Orchestrator.PrepareRepository d | Orchestrator.ImportWorker d _
  | Orchestrator.LoadTools d | Orchestrator.ToolsLoaded d | Orchestrator.Build d
  | Orchestrator.BuildReturned d | Orchestrator.BuildThrew d
  | Orchestrator.CleanupTools d | Orchestrator.CopyToReleases d
  | Orchestrator.ListReleasedFiles d => Some d
  end.

(** A logged call that is a step of repository preparation or of the build
    of [d]: everything but the creation of directories. *)
Definition step_of (d : key) (ev : Orchestrator.event) : Prop :=
  event_dep ev = Some d.

(** [part] occurs in [message]. *)
Definition mentions (message part : string) : Prop :=
  ∃ before after, message = before +:+ part +:+ after.

(** ** Configurations used in examples *)

Definition mk_dep (ds : list key) (skip : bool) : DependencyConfig :=
  {| dep_name := None; dep_git := None; dep_defaultVersion := None;
     dep_branch := Some "main"; dep_deps := Some ds; dep_runner := None;
     dep_tools := None; dep_skip := Some skip |}.

Definition mk_config (deps : list (key * DependencyConfig)) : BuildConfig :=
  {| cfg_version := Some "1"; cfg_deps := Some deps; cfg_releasesRoot := None |}.

Definition scenario_A_deps : list (key * DependencyConfig) :=
  [("a", mk_dep [] false); ("b", mk_dep ["a"] false); ("c", mk_dep ["a"] false)].

Definition scenario_B_deps : list (key * DependencyConfig) :=
  [("a", mk_dep ["b"] false); ("b", mk_dep ["a"] false)].

Definition scenario_E_deps : list (key * DependencyConfig) :=
  [("x", mk_dep [] true); ("y", mk_dep ["x"] false)].

(** A well-formed entry whose [defaultVersion] and [branch] are both set. *)
Definition both_pinned : DependencyConfig :=
  {| dep_name := Some "zlib";
     dep_git := Some {| git_url := Some "https://example.org/zlib.git";
                        git_shallow := Some true; git_initSubmodules := Some false |};
     dep_defaultVersion := Some "1.2.3"; dep_branch := Some "main";
     dep_deps := Some []; dep_runner := Some "workers/zlib.js";
     dep_tools := None; dep_skip := None |}.

(** A world for examples: the list of the paths that exist; every command
    succeeds and changes nothing. *)
Definition ex_exists (p : string) (fs : list string) : bool := bool_decide (p ∈ fs).
Definition ex_mkdir (p : string) (fs : list string) : list string := p :: fs.
Definition ex_dirname (p : string) : string := "/build/.git.temp".
Definition ex_runner (args : list string) (fs : list string)
  : Git.exec_result * list string :=
  ({| Git.ok := true; Git.stdout := ""; Git.stderr := "" |}, fs).

Definition ex_clone_options : Git.CloneOptions :=
  {| Git.repoUrl := Some "https://example.org/zlib.git";
     Git.destination := Some "/build/.git.temp/zlib";
     Git.shallow := Some true; Git.extraArgs := None |}.

Definition ex_clone_state : Git.state :=
  {| Git.world := ["/build/.git.temp/zlib"; "/build/.git.temp"]; Git.commands := [] |}.


(** A runner whose every command fails. *)
Definition failing_runner (args : list string) (w : unit) : Git.exec_result * unit :=
  ({| Git.ok := false; Git.stdout := ""; Git.stderr := "" |}, w).

Definition ex_start : @Git.state unit := {| Git.world := (); Git.commands := [] |}.

(** Collaborators for examples, on a world without content: repositories
    are prepared and modules imported without failure, and the build worker
    throws for the dependency [b] only. *)
Definition ex_prepareRepository (options : Git.PrepareOptions) (w : unit)
  : (string + Git.RepoResult) * unit :=
  (inr {| Git.repo_ok := true;
          Git.repo_repoRoot := "/build/.git.temp/" +:+ Git.prep_depName options;
          Git.repo_version := None; Git.repo_branch := Some "main";
          Git.repo_skipped := false |}, w).

Definition ex_build (options : Orchestrator.BuildOptions) (w : unit)
  : (string + Orchestrator.BuildResult) * unit :=
  if String.eqb (Orchestrator.build_repoRoot options) "/build/.git.temp/b"
  then (inl "compile error", w)
  else (inr {| Orchestrator.ok := true; Orchestrator.name := "worker";
               Orchestrator.version := None; Orchestrator.branch := None;
               Orchestrator.error := None; Orchestrator.skipped := None;
               Orchestrator.reason := None; Orchestrator.releaseDir := None;
               Orchestrator.releasedFiles := None |}, w).

Definition ex_importModule (url : string) (w : unit)
  : (string + @Orchestrator.WorkerModule unit) * unit :=
  (inr {| Orchestrator.exports := ["build"]; Orchestrator.build := Some ex_build |}, w).

Definition ex_ensureDirectory (p : string) (w : unit) : (string + unit) * unit :=
  (inr (), w).

Definition ex_loadTools (tools : list ToolSpec) (toolsDir : string) (w : unit)
  : (string + (unit → (string + unit) * unit)) * unit :=
  (inr (λ w, (inr (), w)), w).

Definition ex_copyToReleases (options : Orchestrator.CopyOptions) (w : unit)
  : (string + Orchestrator.ReleaseResult) * unit :=
  (inr {| Orchestrator.release_ok := false; Orchestrator.release_releaseDir := "" |}, w).

Definition ex_listReleasedFiles (dir : string) (w : unit)
  : (string + list string) * unit := (inr [], w).

Definition ex_join (a b : string) : string := a +:+ "/" +:+ b.
Definition ex_url (p : string) : string := "file://" +:+ p.

Definition ex_dep (depName : key) (ds : list key) (tools : option (list ToolSpec))
    (skip : option bool) : DependencyConfig :=
  {| dep_name := Some depName;
     dep_git := Some {| git_url := Some "https://example.org/repo.git";
                        git_shallow := Some true; git_initSubmodules := Some false |};
     dep_defaultVersion := None; dep_branch := Some "main";
     dep_deps := Some ds; dep_runner := Some "workers/build.js";
     dep_tools := tools; dep_skip := skip |}.

Definition pipeline_config : BuildConfig :=
  mk_config
    [("a", ex_dep "a" [] None None);
     ("b", ex_dep "b" ["a"]
             (Some [{| tool_name := "cmake"; tool_toolFile := "cmake.js" |}]) None);
     ("c", ex_dep "c" ["b"] None None)].

Definition skipping_config : BuildConfig :=
  mk_config [("a", ex_dep "a" [] None (Some true))].

Definition ex_options (config : BuildConfig) : Orchestrator.Options :=
  {| Orchestrator.opt_config := Some config;
     Orchestrator.opt_buildRoot := Some "/build";
     Orchestrator.opt_force := None; Orchestrator.opt_copyToReleases := None;
     Orchestrator.opt_only := None |}.

Definition ex_state : @Orchestrator.state unit :=
  {| Orchestrator.world := (); Orchestrator.results := [] |}.

Definition ex_orchestrateBuild (config : BuildConfig) :=
  Orchestrator.orchestrateBuild ex_prepareRepository ex_importModule
    ex_ensureDirectory ex_loadTools ex_copyToReleases ex_listReleasedFiles
    ex_join ex_join ex_url (ex_options config).


Definition ex_build_dependency :=
  Orchestrator.build_dependency ex_prepareRepository ex_importModule
    ex_ensureDirectory ex_loadTools ex_copyToReleases ex_listReleasedFiles
    ex_join ex_join ex_url pipeline_config "/build" false false
    "/build/.git.temp" "/build/artifacts".

Definition ex_orchestrate_loop :=
  Orchestrator.orchestrate_loop ex_prepareRepository ex_importModule
    ex_ensureDirectory ex_loadTools ex_copyToReleases ex_listReleasedFiles
    ex_join ex_join ex_url pipeline_config "/build" false false
    "/build/.git.temp" "/build/artifacts".

Definition ex_dep_b : DependencyConfig :=
  ex_dep "b" ["a"] (Some [{| tool_name := "cmake"; tool_toolFile := "cmake.js" |}]) None.

(** The run of the loop over [a], and then the [try] block for [b]. *)
Definition ex_after_a := ex_orchestrate_loop ["a"] ex_state.
Definition ex_try_b := ex_build_dependency "b" ex_dep_b ex_after_a.2.

(** A world where [git clone] creates its destination and a tag fetch fails
    (the refs are branches); every other command succeeds. *)
Definition ex_rm (p : string) (fs : list string) : list string :=
  filter (λ q, q ≠ p) fs.

Definition cloning_runner (args : list string) (fs : list string)
  : Git.exec_result * list string :=
  match args with
  | "clone" :: _ =>
      ({| Git.ok := true; Git.stdout := ""; Git.stderr := "" |},
       default "" (last args) :: fs)
  | _ =>
      ({| Git.ok := negb (bool_decide ("tag" ∈ args)); Git.stdout := "";
          Git.stderr := "" |}, fs)
  end.

Definition ex_prepare_options (force : bool) : Git.PrepareOptions :=
  {| Git.prep_config := Some (ex_dep "zlib" [] None None);
     Git.prep_depName := "zlib"; Git.prep_gitRoot := "/build/.git.temp";
     Git.prep_force := Some force; Git.prep_shallow := Some true;
     Git.prep_initSubmodules := Some false |}.

Definition ex_prepareRepository_run (force : bool) :=
  Git.prepareRepository ex_exists ex_mkdir ex_rm cloning_runner ex_dirname ex_join
    (ex_prepare_options force) ex_clone_state.



Definition ex_failure (ref type : string) : Git.CheckoutError :=
  {| Git.err_ref := ref; Git.err_type := type; Git.err_step := "fetch";
     Git.err_output := "" |}.

Definition ex_checkout_failure : Git.CheckoutResult :=
  {| Git.checkout_ok := false; Git.checkout_skipped := false;
     Git.checkout_reason := None; Git.checkout_ref := None;
     Git.checkout_type := None;
     Git.checkout_errors :=
       Some [ex_failure "1.2.3" "tag"; ex_failure "1.2.3" "branch";
             ex_failure "v1.2.3" "tag"; ex_failure "v1.2.3" "branch"] |}.

Definition ex_start_failed : @Git.state unit :=
  {| Git.world := ();
     Git.commands :=
       [Git.fetch_tag "/repo" "1.2.3"; Git.fetch_branch "/repo" "1.2.3";
        Git.fetch_tag "/repo" "v1.2.3"; Git.fetch_branch "/repo" "v1.2.3"] |}.

(** The result of the forced preparation of [zlib], and a call of
    [prepareRepository] without a configuration. *)
Definition ex_prepare_result : Git.RepoResult :=
  {| Git.repo_ok := true; Git.repo_repoRoot := "/build/.git.temp/zlib";
     Git.repo_version := None; Git.repo_branch := Some "main";
     Git.repo_skipped := false |}.

Definition ex_prepare_nothing : Git.PrepareOptions :=
  {| Git.prep_config := None; Git.prep_depName := "zlib";
     Git.prep_gitRoot := "/build/.git.temp"; Git.prep_force := None;
     Git.prep_shallow := None; Git.prep_initSubmodules := None |}.

(** A configuration whose builds all succeed, and its run. *)
Definition passing_deps : list (key * DependencyConfig) :=
  [("c", ex_dep "c" ["a"] None None); ("a", ex_dep "a" [] None None)].

Definition passing_config : BuildConfig := mk_config passing_deps.

Definition ex_passing_run : @Orchestrator.M unit (list Orchestrator.BuildResult) :=
  default (Orchestrator.throw "") (ex_orchestrateBuild passing_config).

(** An environment with a [PATH] and nothing else. *)
Definition ex_env : @ToolLoader.World unit :=
  {| ToolLoader.env := {["PATH" := "/usr/bin:/bin"]}; ToolLoader.rest := () |}.

(** Tool modules for examples: [broken.js] cannot be imported; every other
    module configures a tool that puts itself on [PATH] and whose cleanup
    throws. *)
Definition ex_configureTool (w : @ToolLoader.World unit)
  : (string + @ToolLoader.ToolResult unit) * @ToolLoader.World unit :=
  (inr {| ToolLoader.tool_ok := true; ToolLoader.tool_reason := None;
          ToolLoader.tool_cleanup := Some (λ w, (inl "busy", w)) |},
   ToolLoader.assign "PATH" (Some "/opt/cmake/bin") w).

Definition ex_importTool (url : string) (w : @ToolLoader.World unit)
  : (string + @ToolLoader.ToolModule unit) * @ToolLoader.World unit :=
  if String.eqb url "file:///build/tools/broken.js" then (inl "Cannot find module", w)
  else (inr {| ToolLoader.configureTool := Some ex_configureTool |}, w).

Definition ex_cmake : ToolSpec := {| tool_name := "cmake"; tool_toolFile := "cmake.js" |}.
Definition ex_broken : ToolSpec := {| tool_name := "ninja"; tool_toolFile := "broken.js" |}.

Definition ex_loadTools_run (specs : list ToolSpec) :=
  ToolLoader.loadTools ex_importTool ex_join ex_url (Some specs) "/build/tools" ex_env.


(** The preparation of [zlib] with its submodules. *)
Definition ex_submodule_options : Git.PrepareOptions :=
  {| Git.prep_config := Some (ex_dep "zlib" [] None None);
     Git.prep_depName := "zlib"; Git.prep_gitRoot := "/build/.git.temp";
     Git.prep_force := None; Git.prep_shallow := None;
     Git.prep_initSubmodules := Some true |}.

Definition ex_prepare_submodules :=
  Git.prepareRepository ex_exists ex_mkdir ex_rm cloning_runner ex_dirname ex_join
    ex_submodule_options ex_clone_state.

(** ** Vocabulary of the further properties *)

(** The nodes that [dfs] has finished can be listed with dependencies first. *)
Definition finished (deps : list (key * DependencyConfig)) (st : Resolver.dfs_state)
  : Prop :=
  ∃ L, (∀ y, y ∈ Resolver.visited st → y ∈ L) ∧ ordered deps L.

(** Every entry of an active dependency's [deps] is an active key. *)
Definition active_closed (deps : list (key * DependencyConfig)) : Prop :=
  ∀ A B, A ∈ Resolver.activeDeps deps → B ∈ dependencies_of deps A →
         B ∈ Resolver.activeDeps deps.



(** The entries that a failed run of [checkoutGitRef] leaves in [errors]:
    one for the tag and one for the branch attempt of every candidate. *)
Definition attempts_of (refs : list string) : list (string * string) :=
  refs ≫= λ ref, [(ref, "tag"); (ref, "branch")].

(** [c] checks out [ref] as a tag, or as a branch. *)
Definition tag_checkout (repoPath ref : string) (c : list string) : Prop :=
  c = Git.checkout_detached repoPath ("tags/" +:+ ref)
  ∨ c = Git.checkout_detached repoPath ref.

Definition branch_checkout (repoPath ref : string) (c : list string) : Prop :=
  c = Git.checkout_plain repoPath ref.

(** A command that works inside a repository ([git -C repoPath ...]). *)
Definition in_repository (repoPath : string) (c : list string) : Prop :=
  ∃ rest, c = "-C" :: repoPath :: rest.

(** The arguments of [git clone]: [--depth 1] is spliced in after [clone]. *)
Definition clone_args (shallow : bool) (url dest : string) (extraArgs : list string)
  : list string :=
  "clone" :: (if shallow then ["--depth"; "1"] else []) ++ url :: dest :: extraArgs.

(** The characters of a string. *)
Fixpoint chars (s : string) : list Ascii.ascii :=
  match s with
  | String c rest => c :: chars rest
  | EmptyString => []
  end.

(** The inputs that [prepareRepository] requires. *)
Definition prepare_inputs (options : Git.PrepareOptions)
    (config : DependencyConfig) (url : string) : Prop :=
  Git.prep_config options = Some config
  ∧ Git.prep_depName options ≠ "" ∧ Git.prep_gitRoot options ≠ ""
  ∧ (∃ gitConfig, dep_git config = Some gitConfig ∧ git_url gitConfig = Some url)
  ∧ url ≠ "".

Section PrepareVocabulary.

Context {W : Type}.
Variable existsSync : string → W → bool.
Variable mkdirSync : string → W → W.
Variable rmSync : string → W → W.
Variable dirname : string → string.
Variable resolve : string → string → string.

(** The world after [ensureDirectory(p)]. *)
Definition ensured (p : string) (w : W) : W :=
  if existsSync p w then w else mkdirSync p w.

(** The world in which [prepareRepository] finds out whether the
    repository is there already: [gitRoot] is ensured, the repository
    removed when [force] is set and it exists, and its parent ensured. *)
Definition clone_world (options : Git.PrepareOptions) (w : W) : W :=
  let repoRoot := getRepositoryPath resolve (Git.prep_gitRoot options)
                    (Git.prep_depName options) in
  let w0 := ensured (Git.prep_gitRoot options) w in
  ensured (dirname repoRoot)
    (if default false (Git.prep_force options) && existsSync repoRoot w0
     then rmSync repoRoot w0 else w0).

End PrepareVocabulary.

(** The tool specifications whose modules a log shows to be imported. *)
Definition imported (evs : list ToolLoader.event) : list ToolSpec :=
  omap (λ ev, match ev with ToolLoader.Import spec => Some spec | _ => None end) evs.

(** The tools whose cleanup a log shows to be called. *)
Definition cleaned (evs : list ToolLoader.event) : list string :=
  omap (λ ev, match ev with ToolLoader.Cleanup name => Some name | _ => None end) evs.

(** A fetch or a checkout inside a repository. *)
Definition fetch_or_checkout (repoPath : string) (c : list string) : Prop :=
  ∃ verb rest, c = "-C" :: repoPath :: verb :: rest
               ∧ (verb = "fetch" ∨ verb = "checkout").

(** The command of [updateGitSubmodules({ repoPath })]. *)
Definition submodule_update (repoPath : string) : list string :=
  ["-C"; repoPath; "submodule"; "update"; "--init"].

(** The commands that [prepareRepository] runs after the clone: fetches
    and checkouts inside the repository, followed, when submodules are
    asked for and the checkout went through, by the submodule update. *)
Definition checkout_log (repoPath : string) (initSubmodules : bool)
    (completed : Prop) (delta : list (list string)) : Prop :=
  Forall (in_repository repoPath) delta
  ∧ (initSubmodules = false → Forall (fetch_or_checkout repoPath) delta)
  ∧ (completed → initSubmodules = true →
     ∃ pre, delta = pre ++ [submodule_update repoPath]
            ∧ Forall (fetch_or_checkout repoPath) pre).

(** * Theorems *)

(** ** Lists: counting occurrences, chains, repetitions *)

Section ListFacts.

Lemma occs_nil a : occs a [] = 0.
Proof. reflexivity. Qed.

Lemma occs_cons a b l :
  occs a (b :: l) = (if decide (b = a) then 1 else 0) + occs a l.
Proof. unfold occs. rewrite filter_cons. destruct (decide (b = a)); reflexivity. Qed.

Lemma occs_app a l1 l2 : occs a (l1 ++ l2) = occs a l1 + occs a l2.
Proof. unfold occs. rewrite filter_app, length_app. reflexivity. Qed.

Lemma occs_replicate a n b :
  occs a (replicate n b) = if decide (b = a) then n else 0.
Proof.
  induction n as [|n IH]; simpl.
  - destruct (decide (b = a)); reflexivity.
  - rewrite occs_cons, IH. destruct (decide (b = a)); lia.
Qed.

Lemma occs_zero a l : occs a l = 0 ↔ a ∉ l.
Proof.
  induction l as [|b l IH].
  - split; [intros _; apply not_elem_of_nil | reflexivity].
  - rewrite occs_cons, not_elem_of_cons. destruct (decide (b = a)) as [->|Hne].
    + split; [lia | intros [Hne _]; congruence].
    + simpl. rewrite IH. split; [intros H; split; [congruence | exact H] | tauto].
Qed.

Lemma occs_pos a l : 0 < occs a l ↔ a ∈ l.
Proof.
  destruct (decide (a ∈ l)) as [Hin|Hnin].
  - split; [tauto|]. intros _. destruct (occs a l) eqn:E; [|lia].
    apply occs_zero in E. contradiction.
  - split; [|tauto]. intros H. apply occs_zero in Hnin. lia.
Qed.

(** Occurrences in a list of blocks [replicate (f B) B], one block for each
    [B] of a duplicate-free list. *)
Lemma occs_blocks (f : key → nat) a names :
  NoDup names →
  occs a (names ≫= λ B, replicate (f B) B) = if decide (a ∈ names) then f a else 0.
Proof.
  induction 1 as [|B names Hnin Hnd IH].
  - reflexivity.
  - rewrite bind_cons, occs_app, occs_replicate, IH.
    destruct (decide (B = a)); destruct (decide (a ∈ names));
      destruct (decide (a ∈ B :: names)) as [Hc|Hc]; subst; try lia;
      exfalso; rewrite elem_of_cons in Hc; intuition congruence.
Qed.

Lemma pending_nil_l l : pending [] l = length l.
Proof.
  unfold pending. induction l as [|b l IH]; [reflexivity|].
  rewrite filter_cons. rewrite decide_True by apply not_elem_of_nil.
  cbn [length]. rewrite IH. reflexivity.
Qed.

Lemma pending_snoc R c l :
  c ∉ R → pending (R ++ [c]) l + occs c l = pending R l.
Proof.
  intros Hc. unfold pending. induction l as [|b l IH]; [reflexivity|].
  rewrite occs_cons, !filter_cons.
  destruct (decide (b = c)) as [->|Hne].
  - rewrite decide_False by (rewrite elem_of_app, list_elem_of_singleton; tauto).
    rewrite decide_True by assumption. cbn [length]. lia.
  - destruct (decide (b ∈ R)) as [Hin|Hnin].
    + rewrite decide_False by (rewrite elem_of_app; tauto).
      rewrite decide_False by tauto. cbn [length]. lia.
    + rewrite decide_True
        by (rewrite elem_of_app, list_elem_of_singleton; tauto).
      rewrite decide_True by assumption. cbn [length]. lia.
Qed.

Lemma pending_zero R l : pending R l = 0 ↔ ∀ b, b ∈ l → b ∈ R.
Proof.
  unfold pending. induction l as [|b l IH].
  - split; [intros _ b Hb; inversion Hb | reflexivity].
  - rewrite filter_cons. destruct (decide (b ∉ R)) as [Hnin|Hin].
    + simpl. split; [lia|]. intros H. exfalso. apply Hnin, H, list_elem_of_here.
    + rewrite IH. apply dec_stable in Hin. split.
      * intros H x Hx. apply elem_of_cons in Hx as [->|Hx]; auto.
      * intros H x Hx. apply H, list_elem_of_further, Hx.
Qed.




Lemma chain_from_tc E a l b : chain_from E a (l ++ [b]) → tc E a b.
Proof.
  revert a. induction l as [|c l IH]; intros a; simpl.
  - intros [H _]. apply tc_once, H.
  - intros [H Hc]. eapply tc_l; [exact H | apply IH, Hc].
Qed.

Lemma chain_suffix E l1 l2 : chain E (l1 ++ l2) → chain E l2.
Proof.
  induction l1 as [|a l1 IH]; [tauto|].
  intros H. apply IH. destruct l1 as [|b l1]; simpl in *.
  - destruct l2; simpl in *; tauto.
  - tauto.
Qed.

Lemma chain_snoc E l a b : chain E (l ++ [a]) → E a b → chain E ((l ++ [a]) ++ [b]).
Proof.
  intros Hc Hab. destruct l as [|x l]; simpl in *; [tauto|].
  revert x Hc. induction l as [|y l IH]; intros x; simpl; [tauto|].
  intros [Hxy Hc]. split; [exact Hxy | apply IH, Hc].
Qed.

Lemma tc_cycle_step (E : relation key) x : tc E x x → ∃ b, E x b ∧ tc E b b.
Proof.
  intros H. inversion H as [? ? He|? y ? He Hrest]; subst.
  - exists x. split; assumption.
  - exists y. split; [exact He|]. eapply tc_r; [exact Hrest | exact He].
Qed.



End ListFacts.

(** ** The graph built by [resolveBuildOrder] *)

Section GraphFacts.

Variable deps : list (key * DependencyConfig).

Local Abbreviation dps := (dependencies_of deps).

Lemma push_edge_lookup A g b x :
  default [] (Resolver.push_edge A g b !! x)
  = default [] (g !! x) ++ (if decide (b = x) then [A] else []).
Proof.
  unfold Resolver.push_edge. destruct (decide (b = x)) as [->|Hne].
  - rewrite lookup_alter_eq. destruct (g !! x) as [xs|] eqn:E.
    + rewrite E. reflexivity.
    + rewrite lookup_insert_eq. reflexivity.
  - rewrite lookup_alter_ne by assumption. destruct (g !! b).
    + rewrite app_nil_r. reflexivity.
    + rewrite lookup_insert_ne by assumption. rewrite app_nil_r. reflexivity.
Qed.

Lemma push_edge_is_Some A g b x :
  is_Some (g !! x) → is_Some (Resolver.push_edge A g b !! x).
Proof.
  intros [xs Hx]. unfold Resolver.push_edge. destruct (decide (b = x)) as [->|Hne].
  - rewrite lookup_alter_eq, Hx, Hx. eauto.
  - rewrite lookup_alter_ne by assumption. destruct (g !! b); [eauto|].
    rewrite lookup_insert_ne by assumption. eauto.
Qed.

Lemma push_edges_lookup A l g x :
  default [] (fold_left (Resolver.push_edge A) l g !! x)
  = default [] (g !! x) ++ replicate (occs x l) A.
Proof.
  revert g. induction l as [|b l IH]; intros g; simpl.
  - rewrite app_nil_r. reflexivity.
  - rewrite IH, push_edge_lookup, occs_cons, <- app_assoc.
    destruct (decide (b = x)); reflexivity.
Qed.

Lemma push_edges_is_Some A l g x :
  is_Some (g !! x) → is_Some (fold_left (Resolver.push_edge A) l g !! x).
Proof.
  revert g. induction l as [|b l IH]; intros g H; simpl; [exact H|].
  apply IH, push_edge_is_Some, H.
Qed.

Lemma add_edges_graph names g d x :
  default [] ((fold_left (Resolver.add_dependency_edges deps) names (g, d)).1 !! x)
  = default [] (g !! x) ++ dependents deps names x.
Proof.
  revert g d. induction names as [|A names IH]; intros g d.
  - simpl. rewrite app_nil_r. reflexivity.
  - cbn [fold_left]. unfold Resolver.add_dependency_edges at 2. cbn [fst snd].
    rewrite IH, push_edges_lookup. unfold dependents. rewrite bind_cons, app_assoc.
    reflexivity.
Qed.

Lemma add_edges_is_Some names g d x :
  is_Some (g !! x) →
  is_Some ((fold_left (Resolver.add_dependency_edges deps) names (g, d)).1 !! x).
Proof.
  revert g d. induction names as [|A names IH]; intros g d H; cbn [fold_left]; [exact H|].
  apply IH. cbn [fst]. apply push_edges_is_Some, H.
Qed.

Lemma add_edges_inDegree names g d A :
  (fold_left (Resolver.add_dependency_edges deps) names (g, d)).2 !! A
  = if decide (A ∈ names) then Some (Z.of_nat (length (dps A))) else d !! A.
Proof.
  revert g d. induction names as [|B names IH]; intros g d; cbn [fold_left].
  - rewrite decide_False by apply not_elem_of_nil. reflexivity.
  - unfold Resolver.add_dependency_edges at 2. cbn [fst snd]. rewrite IH.
    destruct (decide (A ∈ names)) as [Hin|Hnin].
    + rewrite decide_True by (apply list_elem_of_further, Hin). reflexivity.
    + destruct (decide (B = A)) as [->|Hne].
      * rewrite decide_True by apply list_elem_of_here.
        rewrite lookup_insert_eq. reflexivity.
      * rewrite decide_False by (rewrite elem_of_cons; intuition congruence).
        rewrite lookup_insert_ne by assumption. reflexivity.
Qed.

Lemma init_graph_lookup (names : list key) (g : gmap key (list key)) (x : key) :
  fold_left (λ g depName, <[depName := []]> g) names g !! x
  = if decide (x ∈ names) then Some [] else g !! x.
Proof.
  revert g. induction names as [|B names IH]; intros g; cbn [fold_left].
  - rewrite decide_False by apply not_elem_of_nil. reflexivity.
  - rewrite IH. destruct (decide (x ∈ names)) as [Hin|Hnin].
    + rewrite decide_True by (apply list_elem_of_further, Hin). reflexivity.
    + destruct (decide (B = x)) as [->|Hne].
      * rewrite decide_True by apply list_elem_of_here.
        rewrite lookup_insert_eq. reflexivity.
      * rewrite decide_False by (rewrite elem_of_cons; intuition congruence).
        rewrite lookup_insert_ne by assumption. reflexivity.
Qed.

Lemma init_inDegree_lookup (names : list key) (d : gmap key Z) (x : key) :
  fold_left (λ d depName, <[depName := 0%Z]> d) names d !! x
  = if decide (x ∈ names) then Some 0%Z else d !! x.
Proof.
  revert d. induction names as [|B names IH]; intros d; cbn [fold_left].
  - rewrite decide_False by apply not_elem_of_nil. reflexivity.
  - rewrite IH. destruct (decide (x ∈ names)) as [Hin|Hnin].
    + rewrite decide_True by (apply list_elem_of_further, Hin). reflexivity.
    + destruct (decide (B = x)) as [->|Hne].
      * rewrite decide_True by apply list_elem_of_here.
        rewrite lookup_insert_eq. reflexivity.
      * rewrite decide_False by (rewrite elem_of_cons; intuition congruence).
        rewrite lookup_insert_ne by assumption. reflexivity.
Qed.

(** [graph[x]] is defined for every node and holds its dependents. *)
Lemma build_graph_lookup names x :
  x ∈ names → (Resolver.build_graph deps names).1 !! x = Some (dependents deps names x).
Proof.
  intros Hx. unfold Resolver.build_graph.
  pose proof (add_edges_graph names (Resolver.init_graph names)
                (Resolver.init_inDegree names) x) as Hg.
  destruct (add_edges_is_Some names (Resolver.init_graph names)
              (Resolver.init_inDegree names) x) as [l Hl].
  { unfold Resolver.init_graph. rewrite init_graph_lookup.
    rewrite decide_True by assumption. eauto. }
  rewrite Hl in Hg |- *. simpl in Hg. rewrite Hg.
  unfold Resolver.init_graph. rewrite init_graph_lookup.
  rewrite decide_True by assumption. reflexivity.
Qed.

Lemma build_graph_inDegree names A :
  (Resolver.build_graph deps names).2 !! A
  = if decide (A ∈ names) then Some (Z.of_nat (length (dps A))) else None.
Proof.
  unfold Resolver.build_graph. rewrite add_edges_inDegree.
  destruct (decide (A ∈ names)) as [Hin|Hnin]; [reflexivity|].
  unfold Resolver.init_inDegree. rewrite init_inDegree_lookup.
  rewrite decide_False by assumption. apply lookup_empty.
Qed.

Lemma dependents_in names x A : A ∈ dependents deps names x → A ∈ names.
Proof.
  unfold dependents. rewrite list_elem_of_bind. intros (B & HA & HB).
  apply elem_of_replicate_inv in HA. subst. exact HB.
Qed.

Lemma occs_dependents names x A :
  NoDup names → A ∈ names → occs A (dependents deps names x) = occs x (dps A).
Proof.
  intros Hnd HA. unfold dependents.
  rewrite (occs_blocks (λ B, occs x (dps B))) by assumption.
  rewrite decide_True by assumption. reflexivity.
Qed.

End GraphFacts.

(** ** Kahn's loop *)

Section KahnFacts.

Variable deps : list (key * DependencyConfig).
Variable N : list key.
Hypothesis N_nodup : NoDup N.

Local Abbreviation dps := (dependencies_of deps).
Local Abbreviation G := (Resolver.build_graph deps N).1.

(** The effect of the inner loop over [graph[current]] as a whole. *)
Lemma relax_fold (L : list key) (D : gmap key Z) (Q : list key) :
  (∀ A, (fold_left Resolver.relax L (D, Q)).1 !! A
        = (λ v, v - Z.of_nat (occs A L))%Z <$> D !! A) ∧
  ∃ P, (fold_left Resolver.relax L (D, Q)).2 = Q ++ P ∧ NoDup P ∧
       ∀ A, A ∈ P ↔ A ∈ L ∧ ∃ v, D !! A = Some v ∧ (1 ≤ v ≤ Z.of_nat (occs A L))%Z.
Proof.
  revert D Q. induction L as [|a L IH]; intros D Q.
  - split.
    + intros A. cbn [fold_left fst]. rewrite occs_nil.
      destruct (D !! A); simpl; [f_equal; lia | reflexivity].
    + exists []. cbn [fold_left snd]. rewrite app_nil_r.
      split; [reflexivity|]. split; [apply NoDup_nil_2|].
      intros A. split; [intros HA | intros [HA _]]; inversion HA.
  - cbn [fold_left]. unfold Resolver.relax at 2 4. cbn [fst snd].
    set (D1 := alter (λ v, (v - 1)%Z) a D).
    set (Q1 := if decide (D1 !! a = Some 0%Z) then Q ++ [a] else Q).
    destruct (IH D1 Q1) as [Hdeg (P & HQ & HP & Hmem)].
    assert (HD1 : ∀ A, D1 !! A = if decide (a = A) then (λ v, v - 1)%Z <$> D !! A
                                 else D !! A).
    { intros A. unfold D1. destruct (decide (a = A)) as [->|Hne].
      - apply lookup_alter_eq.
      - apply lookup_alter_ne, Hne. }
    split.
    + intros A. rewrite Hdeg, HD1, occs_cons.
      destruct (decide (a = A)); destruct (D !! A); simpl; try reflexivity;
        f_equal; lia.
    + pose proof (HD1 a) as HD1a. rewrite decide_True in HD1a by reflexivity.
      destruct (decide (D1 !! a = Some 0%Z)) as [Hzero|Hnz].
      * (* [a] reaches in-degree 0 and is pushed *)
        assert (Hone : D !! a = Some 1%Z).
        { rewrite HD1a in Hzero. destruct (D !! a) as [v|]; simpl in Hzero; [|discriminate].
          f_equal. injection Hzero. lia. }
        exists (a :: P). subst Q1. rewrite HQ, <- app_assoc. split; [reflexivity|].
        split.
        { constructor; [|exact HP]. rewrite Hmem. intros [_ (v & Hv & Hle)].
          rewrite Hzero in Hv. injection Hv as <-. lia. }
        intros A. rewrite elem_of_cons, Hmem, HD1, occs_cons, elem_of_cons.
        destruct (decide (a = A)) as [->|Hne].
        -- split.
           ++ intros _. split; [left; reflexivity|]. exists 1%Z. split; [exact Hone | lia].
           ++ intros _. left. reflexivity.
        -- split.
           ++ intros [Heq|[HA (v & Hv & Hle)]]; [congruence|].
              split; [right; exact HA|]. exists v. split; [exact Hv | lia].
           ++ intros [[Heq|HA] (v & Hv & Hle)]; [congruence|].
              right. split; [exact HA|]. exists v. split; [exact Hv | lia].
      * (* [a] is not pushed *)
        exists P. subst Q1. split; [exact HQ|]. split; [exact HP|].
        intros A. rewrite Hmem, HD1, occs_cons, elem_of_cons.
        destruct (decide (a = A)) as [->|Hne].
        -- split.
           ++ intros [HA (v & Hv & Hle)]. split; [left; reflexivity|].
              destruct (D !! A) as [w|]; simpl in Hv; [|discriminate].
              injection Hv as <-. exists w. split; [reflexivity | lia].
           ++ intros [_ (v & Hv & Hle)]. rewrite Hv in HD1a. simpl in HD1a.
              assert (v ≠ 1%Z) by (intros ->; apply Hnz; rewrite HD1a; reflexivity).
              split.
              ** apply occs_pos. lia.
              ** exists (v - 1)%Z. rewrite Hv. simpl. split; [reflexivity | lia].
        -- split.
           ++ intros [HA (v & Hv & Hle)]. split; [right; exact HA|].
              exists v. split; [exact Hv | lia].
           ++ intros [[Heq|HA] (v & Hv & Hle)]; [congruence|].
              split; [exact HA|]. exists v. split; [exact Hv | lia].
Qed.

Lemma ordered_snoc R c :
  ordered deps R → (∀ b, b ∈ dps c → b ∈ R) → ordered deps (R ++ [c]).
Proof.
  intros HR Hc R1 A R2 Heq b Hb.
  destruct R2 as [|z R2 _] using rev_ind.
  - apply app_inj_tail in Heq as [-> ->]. apply Hc, Hb.
  - change (A :: R2 ++ [z]) with ((A :: R2) ++ [z]) in Heq.
    rewrite app_assoc in Heq. apply app_inj_tail in Heq as [-> _].
    eapply HR; [reflexivity | exact Hb].
Qed.

Lemma kahn_inv_step D c Q R :
  kahn_inv deps N D (c :: Q) R →
  kahn_inv deps N (fold_left Resolver.relax (dependents deps N c) (D, Q)).1
           (fold_left Resolver.relax (dependents deps N c) (D, Q)).2
           (R ++ [c]).
Proof.
  intros [Hnd Hnodes Hdeg Hready Hord].
  destruct (relax_fold (dependents deps N c) D Q) as [Hd (P & -> & HP & Hmem)].
  assert (HcN : c ∈ N).
  { apply Hnodes. rewrite elem_of_app, elem_of_cons. tauto. }
  assert (HcR : c ∉ R).
  { apply NoDup_app in Hnd as (_ & Hdisj & _). intros HcR.
    apply (Hdisj c HcR), list_elem_of_here. }
  assert (Hocc : ∀ A, A ∈ N → occs A (dependents deps N c) = occs c (dps A)).
  { intros A HA. apply occs_dependents; assumption. }
  assert (HmemP : ∀ A, A ∈ P ↔
            A ∈ N ∧ 0 < occs c (dps A) ∧ pending (R ++ [c]) (dps A) = 0).
  { intros A. rewrite Hmem. split.
    - intros [HA (v & Hv & Hle)].
      pose proof (dependents_in _ _ _ _ HA) as HAN.
      rewrite (Hdeg A HAN) in Hv. injection Hv as <-.
      rewrite (Hocc A HAN) in Hle.
      pose proof (pending_snoc R c (dps A) HcR). split; [exact HAN | lia].
    - intros (HAN & Hpos & Hz). split.
      + apply occs_pos. rewrite (Hocc A HAN). exact Hpos.
      + exists (Z.of_nat (pending R (dps A))). split; [apply Hdeg, HAN|].
        rewrite (Hocc A HAN). pose proof (pending_snoc R c (dps A) HcR). lia. }
  assert (Hshape : (R ++ [c]) ++ Q ++ P = (R ++ c :: Q) ++ P).
  { rewrite <- !app_assoc. reflexivity. }
  split.
  - rewrite Hshape. apply NoDup_app. split; [exact Hnd|]. split; [|exact HP].
    intros A HA HAP. apply HmemP in HAP as (HAN & Hpos & Hz).
    apply (Hready A HAN) in HA.
    pose proof (pending_snoc R c (dps A) HcR). lia.
  - intros A. rewrite Hshape, elem_of_app. intros [HA|HA]; [apply Hnodes, HA|].
    apply HmemP in HA. tauto.
  - intros A HA. rewrite Hd, (Hdeg A HA), (Hocc A HA). simpl. f_equal.
    pose proof (pending_snoc R c (dps A) HcR). lia.
  - intros A HA. rewrite Hshape, elem_of_app, (Hready A HA), HmemP.
    pose proof (pending_snoc R c (dps A) HcR). split.
    + intros [Hz|(_ & _ & Hz)]; lia.
    + intros Hz. destruct (decide (occs c (dps A) = 0)) as [Hoz|Hoz].
      * left. lia.
      * right. split; [exact HA|]. lia.
  - apply ordered_snoc; [exact Hord|].
    apply pending_zero, (Hready c HcN). rewrite elem_of_app, elem_of_cons. tauto.
Qed.

Lemma kahn_inv_init :
  kahn_inv deps N (Resolver.build_graph deps N).2
           (Resolver.initial_queue N (Resolver.build_graph deps N).2) [].
Proof.
  assert (Hq : ∀ A, A ∈ Resolver.initial_queue N (Resolver.build_graph deps N).2
                    ↔ A ∈ N ∧ pending [] (dps A) = 0).
  { intros A. unfold Resolver.initial_queue. rewrite list_elem_of_filter.
    rewrite build_graph_inDegree, pending_nil_l. split.
    - intros [H HA]. split; [exact HA|]. rewrite decide_True in H by assumption.
      injection H. lia.
    - intros [HA H]. split; [|exact HA]. rewrite decide_True by assumption.
      rewrite H. reflexivity. }
  split.
  - simpl. apply NoDup_filter, N_nodup.
  - simpl. intros A HA. apply Hq in HA. tauto.
  - intros A HA. rewrite build_graph_inDegree, decide_True by assumption.
    rewrite pending_nil_l. reflexivity.
  - simpl. intros A HA. rewrite Hq. tauto.
  - intros R1 A R2 Heq. destruct R1; discriminate.
Qed.

Lemma kahn_inv_length D Q R :
  kahn_inv deps N D Q R → (length R + length Q ≤ length N)%nat.
Proof.
  intros [Hnd Hnodes _ _ _]. rewrite <- length_app.
  apply submseteq_length, NoDup_submseteq; assumption.
Qed.

(** The loop ends normally, with the invariant and an empty queue. *)
Lemma kahn_runs fuel D Q R :
  kahn_inv deps N D Q R →
  (length N < fuel + length R)%nat →
  ∃ D' R', Resolver.kahn fuel G D Q R (list_to_set R) = Some (R', list_to_set R')
           ∧ kahn_inv deps N D' [] R'.
Proof.
  revert D Q R. induction fuel as [|fuel IH]; intros D Q R Hinv Hfuel.
  - pose proof (kahn_inv_length _ _ _ Hinv). lia.
  - destruct Q as [|c Q]; cbn [Resolver.kahn].
    + exists D, R. split; [reflexivity | exact Hinv].
    + assert (HcN : c ∈ N).
      { apply (inv_nodes deps N _ _ _ Hinv). rewrite elem_of_app, elem_of_cons. tauto. }
      rewrite (build_graph_lookup deps N c HcN).
      replace ({[c]} ∪ list_to_set R : gset key) with (list_to_set (R ++ [c]) : gset key).
      * apply IH; [apply kahn_inv_step, Hinv|]. rewrite length_app. simpl. lia.
      * rewrite list_to_set_app_L. cbn [list_to_set].
        rewrite union_empty_r_L. apply (comm_L (∪)).
Qed.

End KahnFacts.

(** ** detectCycles *)

Section DfsFacts.

Variable deps : list (key * DependencyConfig).

Local Abbreviation dps := (dependencies_of deps).
Local Abbreviation K := (list_to_set (dep_keys deps) : gset key).

Lemma lookup_dep_unknown x : x ∉ dep_keys deps → lookup_dep deps x = None.
Proof.
  unfold dep_keys. induction deps as [|[k d] rest IH]; simpl; [reflexivity|].
  rewrite not_elem_of_cons. intros [Hne Hnin].
  rewrite decide_False by congruence. apply IH, Hnin.
Qed.

Lemma dependencies_of_unknown x : x ∉ dep_keys deps → dps x = [].
Proof.
  intros H. unfold dependencies_of. rewrite lookup_dep_unknown by assumption.
  reflexivity.
Qed.

Lemma visiting_restored (node : key) (V : gset key) :
  node ∉ V → ({[node]} ∪ V) ∖ {[node]} = V.
Proof.
  intros Hnin. apply set_eq. intros x.
  rewrite elem_of_difference, elem_of_union, elem_of_singleton.
  split; [tauto|]. intros Hx. split; [tauto|]. congruence.
Qed.

Lemma visiting_grows (node : key) (V : gset key) :
  node ∈ dep_keys deps → node ∉ V → size (K ∖ ({[node]} ∪ V)) < size (K ∖ V).
Proof.
  intros HK HV. apply subset_size. split.
  - intros x. rewrite !elem_of_difference, elem_of_union. tauto.
  - intros Hsub. specialize (Hsub node).
    rewrite !elem_of_difference, elem_of_union, elem_of_singleton,
      elem_of_list_to_set in Hsub. tauto.
Qed.

Lemma dfs_each_total visit (V : gset key) l path st :
  (∀ dep p s, Resolver.visiting s = V →
     ∃ s', visit dep p s = Some s' ∧ Resolver.visiting s' = V) →
  Resolver.visiting st = V →
  ∃ st', Resolver.dfs_each visit l path st = Some st' ∧ Resolver.visiting st' = V.
Proof.
  intros Hvisit. revert st. induction l as [|dep l IH]; intros st Hst; simpl.
  - eauto.
  - destruct (Hvisit dep path st Hst) as (s' & -> & Hs'). apply IH, Hs'.
Qed.

(** The recursion ends: every level of depth adds a configuration key to
    [visiting]. *)
Lemma dfs_total fuel node path st :
  size (K ∖ Resolver.visiting st) < fuel →
  ∃ st', Resolver.dfs deps fuel node path st = Some st'
         ∧ Resolver.visiting st' = Resolver.visiting st.
Proof.
  revert node path st. induction fuel as [|fuel IH]; intros node path st Hfuel.
  - lia.
  - cbn [Resolver.dfs].
    destruct (decide (node ∈ Resolver.visiting st)) as [Hin|Hnin]; [eauto|].
    destruct (decide (node ∈ Resolver.visited st)); [eauto|].
    destruct (decide (node ∈ dep_keys deps)) as [HK|HK].
    + edestruct (dfs_each_total (Resolver.dfs deps fuel)
                   ({[node]} ∪ Resolver.visiting st) (dps node) (path ++ [node]))
        as (st2 & -> & Hst2).
      * intros dep p s Hs. rewrite <- Hs. apply IH. rewrite Hs.
        pose proof (visiting_grows node _ HK Hnin). lia.
      * reflexivity.
      * eexists. split; [reflexivity|]. simpl. rewrite Hst2.
        apply visiting_restored, Hnin.
    + rewrite dependencies_of_unknown by assumption. simpl.
      eexists. split; [reflexivity|]. simpl. apply visiting_restored, Hnin.
Qed.

Lemma detect_from_total fuel unvisited st :
  size K < fuel → Resolver.visiting st = ∅ →
  is_Some (Resolver.detect_from deps fuel unvisited st).
Proof.
  intros Hfuel. revert st. induction unvisited as [|node l IH]; intros st Hst; simpl.
  - eauto.
  - destruct (decide (node ∈ Resolver.visited st)); [apply IH, Hst|].
    destruct (dfs_total fuel node [] st) as (st' & -> & Hst').
    + rewrite Hst. eapply Nat.le_lt_trans; [|exact Hfuel].
      apply subseteq_size. intros x. rewrite elem_of_difference. tauto.
    + apply IH. rewrite Hst'. exact Hst.
Qed.

Lemma detectCycles_total unvisited :
  NoDup (dep_keys deps) → is_Some (Resolver.detectCycles deps unvisited).
Proof.
  intros Hnd. unfold Resolver.detectCycles.
  destruct (detect_from_total (S (length (dep_keys deps))) unvisited
              {| Resolver.cycles := []; Resolver.visiting := ∅; Resolver.visited := ∅ |})
    as [st ->]; [| reflexivity | simpl; eauto].
  rewrite size_list_to_set by assumption. lia.
Qed.

(** [path.slice(path.indexOf(node))] when [node] is on the path. *)
Lemma indexOf_split node path :
  node ∈ path →
  ∃ pre rest, path = pre ++ node :: rest
              ∧ Resolver.indexOf node path = Z.of_nat (length pre).
Proof.
  induction path as [|x path IH]; intros Hin; [inversion Hin|].
  simpl. destruct (decide (x = node)) as [->|Hne].
  - exists [], path. split; reflexivity.
  - apply elem_of_cons in Hin as [Heq|Hin]; [congruence|].
    destruct (IH Hin) as (pre & rest & -> & Hidx).
    exists (x :: pre), rest. split; [reflexivity|].
    rewrite Hidx. rewrite decide_False by lia. simpl length. lia.
Qed.

Lemma slice_from_index node path :
  node ∈ path →
  ∃ pre rest, path = pre ++ node :: rest
              ∧ Resolver.slice_from (Resolver.indexOf node path) path = node :: rest.
Proof.
  intros Hin. destruct (indexOf_split node path Hin) as (pre & rest & Heq & Hidx).
  exists pre, rest. split; [exact Heq|].
  rewrite Hidx. unfold Resolver.slice_from. rewrite decide_False by lia.
  rewrite Nat2Z.id, Heq. apply drop_app_length.
Qed.

Lemma dfs_each_inv visit (path : list key) l st st' :
  (∀ dep s s', dep ∈ l → dfs_inv deps path s → visit dep path s = Some s' → dfs_inv deps path s') →
  dfs_inv deps path st →
  Resolver.dfs_each visit l path st = Some st' →
  dfs_inv deps path st'.
Proof.
  revert st. induction l as [|dep l IH]; intros st Hvisit Hst; simpl.
  - intros [= <-]. exact Hst.
  - destruct (visit dep path st) as [s|] eqn:E; [|discriminate].
    apply IH.
    + intros d s1 s2 Hd. apply Hvisit, list_elem_of_further, Hd.
    + eapply Hvisit; [apply list_elem_of_here | exact Hst | exact E].
Qed.

(** Every cycle that [dfs] records closes. *)
Lemma dfs_cycles_close fuel node path st st' :
  Resolver.dfs deps fuel node path st = Some st' →
  chain (dep_edge deps) (path ++ [node]) →
  dfs_inv deps path st →
  dfs_inv deps path st'.
Proof.
  revert node path st st'.
  induction fuel as [|fuel IH]; intros node path st st'; [discriminate|].
  cbn [Resolver.dfs]. intros Hrun Hchain [Hcyc Hvis].
  destruct (decide (node ∈ Resolver.visiting st)) as [Hin|Hnin].
  - injection Hrun as <-. split; [|exact Hvis]. simpl.
    apply Forall_app. split; [exact Hcyc|]. apply Forall_singleton.
    destruct (slice_from_index node path (Hvis node Hin)) as (pre & rest & Heq & ->).
    split.
    + exists node, rest. reflexivity.
    + rewrite Heq in Hchain. rewrite <- app_assoc in Hchain.
      apply chain_suffix in Hchain. exact Hchain.
  - destruct (decide (node ∈ Resolver.visited st)).
    { injection Hrun as <-. split; assumption. }
    destruct (Resolver.dfs_each _ _ _ _) as [st2|] eqn:E; [|discriminate].
    injection Hrun as <-.
    apply dfs_each_inv in E.
    + destruct E as [Hcyc2 Hvis2]. split; [exact Hcyc2|]. simpl.
      intros x. rewrite elem_of_difference, elem_of_singleton. intros [Hx Hne].
      apply Hvis2, elem_of_app in Hx as [Hx|Hx]; [exact Hx|].
      apply list_elem_of_singleton in Hx. congruence.
    + intros dep s s' Hdep Hs Hrun. eapply IH; [exact Hrun | | exact Hs].
      apply chain_snoc; [exact Hchain | exact Hdep].
    + split; [exact Hcyc|]. simpl. intros x.
      rewrite elem_of_union, elem_of_singleton, elem_of_app, list_elem_of_singleton.
      intros [->|Hx]; [tauto|]. left. apply Hvis, Hx.
Qed.

Lemma detect_from_close fuel unvisited st st' :
  Resolver.detect_from deps fuel unvisited st = Some st' →
  dfs_inv deps [] st → dfs_inv deps [] st'.
Proof.
  revert st. induction unvisited as [|node l IH]; intros st; simpl.
  - intros [= <-]. tauto.
  - destruct (decide (node ∈ Resolver.visited st)); [apply IH|].
    destruct (Resolver.dfs deps fuel node [] st) as [s|] eqn:E; [|discriminate].
    intros Hrun Hst. eapply IH; [exact Hrun|].
    eapply dfs_cycles_close; [exact E | exact I | exact Hst].
Qed.

Lemma detectCycles_close unvisited cycles :
  Resolver.detectCycles deps unvisited = Some cycles → Forall (closes deps) cycles.
Proof.
  unfold Resolver.detectCycles.
  destruct (Resolver.detect_from _ _ _ _) as [st|] eqn:E; [|discriminate].
  intros [= <-]. apply detect_from_close in E; [apply E|].
  split; [constructor|]. simpl. intros x Hx. apply not_elem_of_empty in Hx. contradiction.
Qed.

End DfsFacts.

(** ** resolveBuildOrder *)

Section ResolveFacts.

Variable deps : list (key * DependencyConfig).

Local Abbreviation dps := (dependencies_of deps).
Local Abbreviation N := (Resolver.activeDeps deps).

Lemma activeDeps_spec A :
  A ∈ N ↔ A ∈ dep_keys deps ∧ skip_is_true deps A ≠ true.
Proof. unfold Resolver.activeDeps. rewrite list_elem_of_filter. tauto. Qed.

Lemma skippedDeps_spec B :
  B ∈ Resolver.skippedDeps deps ↔ B ∈ dep_keys deps ∧ skip_is_true deps B = true.
Proof.
  unfold Resolver.skippedDeps. rewrite elem_of_list_to_set, list_elem_of_filter. tauto.
Qed.

Lemma skip_is_true_key B : skip_is_true deps B = true → B ∈ dep_keys deps.
Proof.
  intros H. destruct (decide (B ∈ dep_keys deps)) as [Hin|Hnin]; [exact Hin|].
  unfold skip_is_true in H. rewrite lookup_dep_unknown in H by assumption.
  discriminate.
Qed.

Lemma activeDeps_nodup : NoDup (dep_keys deps) → NoDup N.
Proof. apply NoDup_filter. Qed.

(** The violations recorded in [invalidDeps]. *)
Lemma invalidDeps_spec A sk :
  (A, sk) ∈ Resolver.invalidDeps deps ↔
  A ∈ N ∧ sk = Resolver.skippedDependencies deps A ∧ sk ≠ [].
Proof.
  unfold Resolver.invalidDeps. rewrite list_elem_of_omap. split.
  - intros (A' & HA' & Hf).
    destruct (Resolver.skippedDependencies deps A') as [|b l] eqn:E; [discriminate|].
    injection Hf as -> <-. rewrite E. split; [exact HA'|]. split; [reflexivity | discriminate].
  - intros (HA & -> & Hne). exists A. split; [exact HA|].
    destruct (Resolver.skippedDependencies deps A); [congruence | reflexivity].
Qed.

Lemma invalidDeps_nil :
  (∀ A B, A ∈ N → B ∈ dps A → B ∉ Resolver.skippedDeps deps) →
  Resolver.invalidDeps deps = [].
Proof.
  intros Hok. destruct (Resolver.invalidDeps deps) as [|[A sk] l] eqn:E; [reflexivity|].
  assert (Hin : (A, sk) ∈ Resolver.invalidDeps deps) by (rewrite E; apply list_elem_of_here).
  apply invalidDeps_spec in Hin as (HA & -> & Hne). exfalso.
  destruct (Resolver.skippedDependencies deps A) as [|b l'] eqn:E'; [congruence|].
  assert (Hb : b ∈ Resolver.skippedDependencies deps A) by (rewrite E'; apply list_elem_of_here).
  unfold Resolver.skippedDependencies in Hb. apply list_elem_of_filter in Hb as [Hsk Hb].
  exact (Hok A b HA Hb Hsk).
Qed.

(** The loop of [resolve] always ends; its result is duplicate-free, made of
    active nodes, and ordered. *)
Lemma resolve_kahn :
  NoDup (dep_keys deps) →
  ∃ D R, Resolver.kahn (S (length N)) (Resolver.build_graph deps N).1
           (Resolver.build_graph deps N).2
           (Resolver.initial_queue N (Resolver.build_graph deps N).2) [] ∅
         = Some (R, list_to_set R)
         ∧ kahn_inv deps N D [] R.
Proof.
  intros Hnd.
  apply (kahn_runs deps N (activeDeps_nodup Hnd) (S (length N)) _ _ []).
  - apply kahn_inv_init, activeDeps_nodup, Hnd.
  - simpl. lia.
Qed.

Lemma resolve_unfold :
  Resolver.resolve deps =
  match Resolver.invalidDeps deps with
  | _ :: _ => Some (Resolver.SkippedDependencyError (Resolver.invalidDeps deps))
  | [] =>
      match Resolver.kahn (S (length N)) (Resolver.build_graph deps N).1
              (Resolver.build_graph deps N).2
              (Resolver.initial_queue N (Resolver.build_graph deps N).2) [] ∅ with
      | None => None
      | Some (result, visited) =>
          if decide (length result ≠ length N) then
            Resolver.CircularDependencyError <$>
              Resolver.detectCycles deps (filter (λ name, name ∉ visited) N)
          else Some (Resolver.Order result)
      end
  end.
Proof.
  unfold Resolver.resolve. destruct (Resolver.build_graph deps N). reflexivity.
Qed.

(** A node on a cycle is never output by an ordered result. *)
Lemma ordered_no_cycle R :
  ordered deps R → ∀ x, x ∈ R → ¬ tc (active_edge deps) x x.
Proof.
  intros Hord.
  assert (H : ∀ R1 R2, R = R1 ++ R2 → ∀ x, x ∈ R1 → ¬ tc (active_edge deps) x x).
  { induction R1 as [|A R1 IH] using rev_ind; intros R2 Heq x Hx; [inversion Hx|].
    apply elem_of_app in Hx as [Hx|Hx].
    - rewrite <- app_assoc in Heq. exact (IH _ Heq x Hx).
    - apply list_elem_of_singleton in Hx as ->. intros Hcyc.
      destruct (tc_cycle_step _ _ Hcyc) as (b & (_ & _ & Hb) & Hbc).
      rewrite <- app_assoc in Heq. simpl in Heq.
      pose proof (Hord R1 A R2 Heq b Hb) as HbR1.
      exact (IH _ Heq b HbR1 Hbc). }
  intros x Hx. apply (H R []); [rewrite app_nil_r; reflexivity | exact Hx].
Qed.

End ResolveFacts.

(** ** Deciding the hypotheses on a concrete configuration *)

Section Checks.

Variable deps : list (key * DependencyConfig).




End Checks.

(** ** The text of the error messages *)

Section Messages.

Lemma append_assoc (a b c : string) : (a +:+ b) +:+ c = a +:+ b +:+ c.
Proof.
  induction a as [|x a IH]; [reflexivity|].
  change (String x ((a +:+ b) +:+ c) = String x (a +:+ b +:+ c)).
  rewrite IH. reflexivity.
Qed.

Lemma append_nil_r (a : string) : a +:+ "" = a.
Proof.
  induction a as [|x a IH]; [reflexivity|].
  change (String x (a +:+ "") = String x a). rewrite IH. reflexivity.
Qed.

Lemma mentions_refl s : mentions s s.
Proof. exists "", "". rewrite append_nil_r. reflexivity. Qed.

Lemma mentions_app_l a b p : mentions a p → mentions (a +:+ b) p.
Proof.
  intros (x & y & ->). exists x, (y +:+ b). rewrite !append_assoc. reflexivity.
Qed.

Lemma mentions_app_r a b p : mentions b p → mentions (a +:+ b) p.
Proof.
  intros (x & y & ->). exists (a +:+ x), y. rewrite !append_assoc. reflexivity.
Qed.

Lemma mentions_trans a b c : mentions a b → mentions b c → mentions a c.
Proof.
  intros (x & y & ->) (u & v & ->). exists (x +:+ u), (v +:+ y).
  rewrite !append_assoc. reflexivity.
Qed.

Lemma join_fold_mentions_acc sep parts acc p :
  mentions acc p → mentions (fold_left (λ acc q, acc +:+ sep +:+ q) parts acc) p.
Proof.
  revert acc. induction parts as [|q parts IH]; intros acc H; simpl; [exact H|].
  apply IH, mentions_app_l, H.
Qed.

Lemma join_fold_mentions sep parts acc p :
  p ∈ parts → mentions (fold_left (λ acc q, acc +:+ sep +:+ q) parts acc) p.
Proof.
  revert acc. induction parts as [|q parts IH]; intros acc H; [inversion H|].
  simpl. apply elem_of_cons in H as [->|H].
  - apply join_fold_mentions_acc, mentions_app_r, mentions_app_r, mentions_refl.
  - apply IH, H.
Qed.

(** A joined text mentions each of its parts. *)
Lemma join_mentions sep parts p : p ∈ parts → mentions (join sep parts) p.
Proof.
  destruct parts as [|q parts]; intros H; [inversion H|].
  simpl. apply elem_of_cons in H as [->|H].
  - apply join_fold_mentions_acc, mentions_refl.
  - apply join_fold_mentions, H.
Qed.

(** The line of a violation names the dependent, in quotes, and each of its
    skipped dependencies. *)
Lemma violation_line_mentions A sk B :
  B ∈ sk →
  mentions (Resolver.violation_line (A, sk)) (dq +:+ A +:+ dq)
  ∧ mentions (Resolver.violation_line (A, sk)) B.
Proof.
  intros HB. unfold Resolver.violation_line. simpl. split.
  - exists "  - ", (" depends on skipped: [" +:+ join ", " sk +:+ "]").
    rewrite !append_assoc. reflexivity.
  - do 5 apply mentions_app_r. apply mentions_app_l, join_mentions, HB.
Qed.

(** The message of the skipped-dependency error holds the line of each
    violation. *)
Lemma skipped_message_mentions invalidDeps v :
  v ∈ invalidDeps →
  mentions (Resolver.error_message (Resolver.SkippedDependencyError invalidDeps))
    (Resolver.violation_line v).
Proof.
  intros Hv. unfold Resolver.error_message.
  do 5 apply mentions_app_r. apply mentions_app_l, join_mentions.
  apply list_elem_of_fmap. exists v. split; [reflexivity | exact Hv].
Qed.

End Messages.

(** ** Claims about [resolveBuildOrder] *)





(** C2. When the active nodes contain a dependency cycle,
    [resolveBuildOrder] ends with an error and never with an order: the
    skipped-dependency error if some active node lists a skipped one, the
    circular-dependency error otherwise. Every cycle that the error reports
    starts and ends with the same node, and each of its nodes lists the next
    one in its [deps]. *)
Theorem resolveBuildOrder_cycle (config : BuildConfig)
    (deps : list (key * DependencyConfig)) :
  cfg_deps config = Some deps →
  NoDup (dep_keys deps) →
  (∃ x, tc (active_edge deps) x x) →
  ∃ out,
    Resolver.resolveBuildOrder (Some config) = Some out
    ∧ (∀ order, out ≠ Resolver.Order order)
    ∧ (no_skipped_reference deps → ∃ cycles, out = Resolver.CircularDependencyError cycles)
    ∧ (∀ cycles, out = Resolver.CircularDependencyError cycles →
                 Forall (closes deps) cycles).
Proof.
  intros Hdeps Hnd [x Hx].
  unfold Resolver.resolveBuildOrder. rewrite Hdeps, resolve_unfold.
  destruct (Resolver.invalidDeps deps) as [|v l] eqn:Hinvalid.
  - destruct (resolve_kahn deps Hnd) as (D & R & -> & Hinv).
    destruct Hinv as [HndR Hnodes _ _ Hord]. rewrite app_nil_r in HndR.
    assert (HxN : x ∈ Resolver.activeDeps deps).
    { destruct (tc_cycle_step _ _ Hx) as (b & (HxN & _) & _). exact HxN. }
    assert (HxR : x ∉ R) by (intros HxR; exact (ordered_no_cycle deps R Hord x HxR Hx)).
    assert (Hlen : length R ≠ length (Resolver.activeDeps deps)).
    { assert (Hsub : x :: R ⊆+ Resolver.activeDeps deps).
      { apply NoDup_submseteq; [constructor; assumption|].
        intros y Hy. apply elem_of_cons in Hy as [->|Hy]; [exact HxN|].
        apply Hnodes. rewrite app_nil_r. exact Hy. }
      apply submseteq_length in Hsub. simpl in Hsub. lia. }
    rewrite decide_True by exact Hlen.
    destruct (detectCycles_total deps
                (filter (λ name, name ∉ (list_to_set R : gset key))
                   (Resolver.activeDeps deps)) Hnd) as [cycles Hcycles].
    rewrite Hcycles. simpl. eexists. split; [reflexivity|].
    split; [discriminate|]. split; [eauto|].
    intros cycles' [= <-]. eapply detectCycles_close, Hcycles.
  - eexists. split; [reflexivity|]. split; [discriminate|]. split; [|discriminate].
    intros Hskip. exfalso. rewrite invalidDeps_nil in Hinvalid; [discriminate|].
    intros A B HA HB HBs. apply skippedDeps_spec in HBs as [_ HBs].
    exact (Hskip A B HA HB HBs).
Qed.

Lemma resolveBuildOrder_cycle_witness :
  ∃ out,
    Resolver.resolveBuildOrder (Some (mk_config scenario_B_deps)) = Some out
    ∧ (∀ order, out ≠ Resolver.Order order)
    ∧ (no_skipped_reference scenario_B_deps →
       ∃ cycles, out = Resolver.CircularDependencyError cycles)
    ∧ (∀ cycles, out = Resolver.CircularDependencyError cycles →
                 Forall (closes scenario_B_deps) cycles).
Proof.
  apply (resolveBuildOrder_cycle (mk_config scenario_B_deps) scenario_B_deps).
  - reflexivity.
  - apply (bool_decide_unpack _); vm_compute; exact I.
  - exists "a". apply (tc_l _ "a" "b" "a"); [|apply tc_once];
      (split; [|split]); apply (bool_decide_unpack _); vm_compute; exact I.
Defined.

(** C3. When an active dependency lists a skipped one, [resolveBuildOrder]
    throws the skipped-dependency error, whose payload is computed from the
    partition into skipped and active keys alone (the graph and the sort are
    never reached). That payload holds, for every violating dependent, an
    entry with exactly its skipped dependencies, and the message of the
    error has a line for it that names the dependent and each of them. *)
Theorem resolveBuildOrder_skipped_dependency (config : BuildConfig)
    (deps : list (key * DependencyConfig)) :
  cfg_deps config = Some deps →
  (∃ A B, A ∈ dep_keys deps ∧ skip_is_true deps A ≠ true
          ∧ B ∈ dependencies_of deps A ∧ skip_is_true deps B = true) →
  Resolver.resolveBuildOrder (Some config)
    = Some (Resolver.SkippedDependencyError (Resolver.invalidDeps deps))
  ∧ ∀ A B, A ∈ dep_keys deps → skip_is_true deps A ≠ true →
           B ∈ dependencies_of deps A → skip_is_true deps B = true →
      ∃ sk, (A, sk) ∈ Resolver.invalidDeps deps ∧ B ∈ sk
            ∧ sk = filter (λ b, skip_is_true deps b = true) (dependencies_of deps A)
            ∧ mentions (Resolver.error_message
                          (Resolver.SkippedDependencyError (Resolver.invalidDeps deps)))
                (Resolver.violation_line (A, sk))
            ∧ mentions (Resolver.violation_line (A, sk)) (dq +:+ A +:+ dq)
            ∧ mentions (Resolver.violation_line (A, sk)) B.
Proof.
  intros Hdeps Hviol.
  assert (Hsk : ∀ A, Resolver.skippedDependencies deps A
                     = filter (λ b, skip_is_true deps b = true) (dependencies_of deps A)).
  { intros A. unfold Resolver.skippedDependencies. apply list_filter_iff.
    intros b. rewrite skippedDeps_spec. split; [tauto|].
    intros Hb. split; [apply skip_is_true_key, Hb | exact Hb]. }
  assert (Hall : ∀ A B, A ∈ dep_keys deps → skip_is_true deps A ≠ true →
           B ∈ dependencies_of deps A → skip_is_true deps B = true →
      ∃ sk, (A, sk) ∈ Resolver.invalidDeps deps ∧ B ∈ sk
            ∧ sk = filter (λ b, skip_is_true deps b = true) (dependencies_of deps A)).
  { intros A B HA HAs HB HBs.
    assert (HBin : B ∈ Resolver.skippedDependencies deps A).
    { rewrite Hsk. apply list_elem_of_filter. split; assumption. }
    exists (Resolver.skippedDependencies deps A). split; [|split; [exact HBin | apply Hsk]].
    apply invalidDeps_spec. split; [apply activeDeps_spec; split; assumption|].
    split; [reflexivity|]. intros Hnil. rewrite Hnil in HBin. inversion HBin. }
  split.
  2:{ intros A B HA HAs HB HBs.
      destruct (Hall A B HA HAs HB HBs) as (sk & Hin & HBin & Heq).
      exists sk. split; [exact Hin|]. split; [exact HBin|]. split; [exact Heq|].
      split; [apply skipped_message_mentions, Hin|].
      apply violation_line_mentions, HBin. }
  destruct Hviol as (A & B & HA & HAs & HB & HBs).
  destruct (Hall A B HA HAs HB HBs) as (sk & Hin & _).
  unfold Resolver.resolveBuildOrder, Resolver.resolve. rewrite Hdeps.
  destruct (Resolver.invalidDeps deps); [inversion Hin | reflexivity].
Qed.

Lemma resolveBuildOrder_skipped_dependency_witness :
  Resolver.resolveBuildOrder (Some (mk_config scenario_E_deps))
    = Some (Resolver.SkippedDependencyError (Resolver.invalidDeps scenario_E_deps))
  ∧ ∀ A B, A ∈ dep_keys scenario_E_deps → skip_is_true scenario_E_deps A ≠ true →
           B ∈ dependencies_of scenario_E_deps A → skip_is_true scenario_E_deps B = true →
      ∃ sk, (A, sk) ∈ Resolver.invalidDeps scenario_E_deps ∧ B ∈ sk
            ∧ sk = filter (λ b, skip_is_true scenario_E_deps b = true)
                     (dependencies_of scenario_E_deps A)
            ∧ mentions (Resolver.error_message
                          (Resolver.SkippedDependencyError
                             (Resolver.invalidDeps scenario_E_deps)))
                (Resolver.violation_line (A, sk))
            ∧ mentions (Resolver.violation_line (A, sk)) (dq +:+ A +:+ dq)
            ∧ mentions (Resolver.violation_line (A, sk)) B.
Proof.
  apply (resolveBuildOrder_skipped_dependency (mk_config scenario_E_deps) scenario_E_deps).
  - reflexivity.
  - exists "y", "x". repeat split; try discriminate;
      apply (bool_decide_unpack _); vm_compute; exact I.
Defined.

(** C10. [resolveBuildOrder] returns the empty list for a [null] or
    [undefined] configuration and for a configuration without [deps]. *)
Theorem resolveBuildOrder_no_config (version releasesRoot : option string) :
  Resolver.resolveBuildOrder None = Some (Resolver.Order [])
  ∧ Resolver.resolveBuildOrder
      (Some {| cfg_version := version; cfg_deps := None;
               cfg_releasesRoot := releasesRoot |})
    = Some (Resolver.Order []).
Proof. split; reflexivity. Qed.

(** ** Scenarios of the specification *)

Example scenario_A :
  Resolver.resolveBuildOrder
    (Some (mk_config [("a", mk_dep [] false); ("b", mk_dep ["a"] false);
                      ("c", mk_dep ["a"] false)]))
  = Some (Resolver.Order ["a"; "b"; "c"]).
Proof. vm_compute. reflexivity. Qed.

Example scenario_B :
  Resolver.resolveBuildOrder
    (Some (mk_config [("a", mk_dep ["b"] false); ("b", mk_dep ["a"] false)]))
  = Some (Resolver.CircularDependencyError [["a"; "b"; "a"]]).
Proof. vm_compute. reflexivity. Qed.

Example scenario_E :
  Resolver.resolveBuildOrder
    (Some (mk_config [("x", mk_dep [] true); ("y", mk_dep ["x"] false)]))
  = Some (Resolver.SkippedDependencyError [("y", ["x"])]).
Proof. vm_compute. reflexivity. Qed.

(** ** Claims about [validateBuildConfig] *)

Section ValidatorFacts.

Lemma bind_nil {A B} (f : A → list B) (l : list A) :
  l ≫= f = [] → ∀ x, x ∈ l → f x = [].
Proof.
  induction l as [|a l IH]; intros H x Hx; [inversion Hx|].
  rewrite bind_cons in H. apply app_eq_nil in H as [Ha Hl].
  apply elem_of_cons in Hx as [->|Hx]; [exact Ha | exact (IH Hl x Hx)].
Qed.

Lemma lookup_dep_key deps k d : lookup_dep deps k = Some d → k ∈ dep_keys deps.
Proof.
  intros H. destruct (decide (k ∈ dep_keys deps)) as [Hin|Hnin]; [exact Hin|].
  rewrite lookup_dep_unknown in H by assumption. discriminate.
Qed.

(** An accepted configuration has no error for any of its entries. *)
Lemma validateBuildConfig_accepts config deps k d :
  Validator.validateBuildConfig (Some config) = inr () →
  cfg_deps config = Some deps →
  lookup_dep deps k = Some d →
  Validator.dep_errors (dep_keys deps)
    (λ depRef, bool_decide (is_Some (lookup_dep deps depRef))) k d = [].
Proof.
  unfold Validator.validateBuildConfig. intros Hv Hdeps Hk.
  destruct (negb (truthy (cfg_version config))); [discriminate|].
  rewrite Hdeps in Hv.
  destruct (Validator.validation_errors deps) as [|e errs] eqn:E; [|discriminate].
  unfold Validator.validation_errors in E.
  pose proof (bind_nil _ _ E k (lookup_dep_key _ _ _ Hk)) as H.
  simpl in H. rewrite Hk in H. exact H.
Qed.

End ValidatorFacts.

(** C6, as stated, fails: an entry with both [defaultVersion] and [branch]
    non-null is accepted. *)
Lemma validateBuildConfig_both_accepted :
  Validator.validateBuildConfig (Some (mk_config [("zlib", both_pinned)])) = inr ()
  ∧ is_Some (dep_defaultVersion both_pinned) ∧ is_Some (dep_branch both_pinned).
Proof. split; [vm_compute; reflexivity | split; eexists; reflexivity]. Qed.

(** C6, amended. [validateBuildConfig] accepts a configuration only if
    every entry has at least one of [defaultVersion] and [branch] non-null:
    it throws when some entry has both null. *)
Theorem validateBuildConfig_version_or_branch (config : BuildConfig)
    (deps : list (key * DependencyConfig)) (k : key) (d : DependencyConfig) :
  Validator.validateBuildConfig (Some config) = inr () →
  cfg_deps config = Some deps →
  lookup_dep deps k = Some d →
  is_Some (dep_defaultVersion d) ∨ is_Some (dep_branch d).
Proof.
  intros Hv Hdeps Hk.
  pose proof (validateBuildConfig_accepts config deps k d Hv Hdeps Hk) as H.
  unfold Validator.dep_errors in H.
  repeat (apply app_eq_nil in H as [? H]).
  match goal with
  | Hvb : (if negb _ && negb _ then _ else _) = [] |- _ =>
      destruct (dep_defaultVersion d) as [v|]; [left; eauto|];
      destruct (dep_branch d) as [b|]; [right; eauto|];
      vm_compute in Hvb; discriminate
  end.
Qed.

Lemma validateBuildConfig_version_or_branch_witness :
  is_Some (dep_defaultVersion both_pinned) ∨ is_Some (dep_branch both_pinned).
Proof.
  apply (validateBuildConfig_version_or_branch
           (mk_config [("zlib", both_pinned)]) [("zlib", both_pinned)] "zlib");
    vm_compute; reflexivity.
Defined.

(** ** Claims about the git operations *)

Section CloneFacts.

Context {W : Type}.
Variable existsSync : string → W → bool.
Variable mkdirSync : string → W → W.
Variable runner : list string → W → Git.exec_result * W.
Variable dirname : string → string.

Lemma truthy_Some s : s ≠ "" → truthy (Some s) = true.
Proof.
  intros Hs. simpl. destruct (String.eqb_spec s ""); [contradiction | reflexivity].
Qed.

Lemma eqb_nonempty s : s ≠ "" → String.eqb s "" = false.
Proof. intros Hs. destruct (String.eqb_spec s ""); [contradiction | reflexivity]. Qed.

Lemma ensureDirectory_present (p : string) (st : Git.state) :
  p ≠ "" → existsSync p (Git.world st) = true →
  Git.ensureDirectory existsSync mkdirSync p st = (inr p, st).
Proof.
  intros Hp Hex. unfold Git.ensureDirectory. rewrite (eqb_nonempty p Hp).
  unfold Git.bind, Git.exists_. rewrite Hex. reflexivity.
Qed.

(** C9. Cloning into a destination that exists runs no command and leaves
    the world (the file system included) as it is, whatever [repoUrl],
    [shallow] and [extraArgs] are; for every (non-empty) repository URL it
    returns [ok: true] with [skipped: true]. The parent of an existing
    path exists, and [path.dirname] never returns the empty string. *)
Theorem cloneGitRepository_existing (options : Git.CloneOptions) (dest : string)
    (st : Git.state) :
  Git.destination options = Some dest →
  dest ≠ "" →
  dirname dest ≠ "" →
  existsSync dest (Git.world st) = true →
  existsSync (dirname dest) (Git.world st) = true →
  (∃ r, Git.cloneGitRepository existsSync mkdirSync runner dirname options st = (r, st))
  ∧ (truthy (Git.repoUrl options) = true →
     Git.cloneGitRepository existsSync mkdirSync runner dirname options st
     = (inr {| Git.clone_ok := true; Git.clone_skipped := true;
               Git.clone_reason := Some "already cloned"; Git.clone_path := dest;
               Git.clone_stdout := ""; Git.clone_stderr := "" |}, st)).
Proof.
  intros Hdest Hne Hparent Hex Hpex.
  assert (Hrun : truthy (Git.repoUrl options) = true →
     Git.cloneGitRepository existsSync mkdirSync runner dirname options st
     = (inr {| Git.clone_ok := true; Git.clone_skipped := true;
               Git.clone_reason := Some "already cloned"; Git.clone_path := dest;
               Git.clone_stdout := ""; Git.clone_stderr := "" |}, st)).
  { intros Hurl. unfold Git.cloneGitRepository.
    rewrite Hurl, Hdest, (truthy_Some dest Hne). simpl.
    unfold Git.bind at 1. rewrite (ensureDirectory_present _ _ Hparent Hpex).
    unfold Git.bind, Git.exists_. rewrite Hex. reflexivity. }
  split; [|exact Hrun].
  destruct (truthy (Git.repoUrl options)) eqn:Hurl.
  - eexists. apply Hrun. reflexivity.
  - eexists. unfold Git.cloneGitRepository. rewrite Hurl. reflexivity.
Qed.

End CloneFacts.

Lemma cloneGitRepository_existing_witness :
  (∃ r, Git.cloneGitRepository ex_exists ex_mkdir ex_runner ex_dirname
          ex_clone_options ex_clone_state = (r, ex_clone_state))
  ∧ (truthy (Git.repoUrl ex_clone_options) = true →
     Git.cloneGitRepository ex_exists ex_mkdir ex_runner ex_dirname
       ex_clone_options ex_clone_state
     = (inr {| Git.clone_ok := true; Git.clone_skipped := true;
               Git.clone_reason := Some "already cloned";
               Git.clone_path := "/build/.git.temp/zlib";
               Git.clone_stdout := ""; Git.clone_stderr := "" |}, ex_clone_state)).
Proof.
  apply (cloneGitRepository_existing ex_exists ex_mkdir ex_runner ex_dirname
           ex_clone_options "/build/.git.temp/zlib" ex_clone_state);
    [reflexivity | discriminate | discriminate | vm_compute; reflexivity
    | vm_compute; reflexivity].
Defined.


Section CheckoutFacts.

Context {W : Type}.
Variable runner : list string → W → Git.exec_result * W.





End CheckoutFacts.


(** Scenario D: with [force], an existing repository is removed and cloned
    afresh; without it the repository is reused and nothing is cloned. A
    branch is checked out after the tag fetch of its name failed. *)
Example prepareRepository_force :
  (ex_prepareRepository_run true).1
  = inr {| Git.repo_ok := true; Git.repo_repoRoot := "/build/.git.temp/zlib";
           Git.repo_version := None; Git.repo_branch := Some "main";
           Git.repo_skipped := false |}
  ∧ Git.commands (ex_prepareRepository_run true).2
    = [["clone"; "--depth"; "1"; "https://example.org/repo.git"; "/build/.git.temp/zlib"];
       Git.fetch_tag "/build/.git.temp/zlib" "main";
       Git.fetch_branch "/build/.git.temp/zlib" "main";
       Git.checkout_plain "/build/.git.temp/zlib" "main"].
Proof. vm_compute. split; reflexivity. Qed.

Example prepareRepository_reuse :
  (ex_prepareRepository_run false).1
  = inr {| Git.repo_ok := true; Git.repo_repoRoot := "/build/.git.temp/zlib";
           Git.repo_version := None; Git.repo_branch := Some "main";
           Git.repo_skipped := true |}
  ∧ Git.commands (ex_prepareRepository_run false).2
    = [Git.fetch_tag "/build/.git.temp/zlib" "main";
       Git.fetch_branch "/build/.git.temp/zlib" "main";
       Git.checkout_plain "/build/.git.temp/zlib" "main"].
Proof. vm_compute. split; reflexivity. Qed.

(** ** Claims about [orchestrateBuild] *)

Section OrchestratorFacts.

Context {W : Type}.
Variable prepareRepository : Git.PrepareOptions → W → (string + Git.RepoResult) * W.
Variable importModule : string → W → (string + @Orchestrator.WorkerModule W) * W.
Variable ensureDirectory : string → W → (string + unit) * W.
Variable loadTools :
  list ToolSpec → string → W → (string + (W → (string + unit) * W)) * W.
Variable copyToReleases :
  Orchestrator.CopyOptions → W → (string + Orchestrator.ReleaseResult) * W.
Variable listReleasedFiles : string → W → (string + list string) * W.
Variable path_join : string → string → string.
Variable path_resolve : string → string → string.
Variable pathToFileURL : string → string.

Variable config : BuildConfig.
Variable buildRoot : string.
Variable force copyToReleasesFlag : bool.
Variable gitRoot artifactsRoot : string.

Local Abbreviation build_dependency :=
  (Orchestrator.build_dependency prepareRepository importModule ensureDirectory
     loadTools copyToReleases listReleasedFiles path_join path_resolve pathToFileURL
     config buildRoot force copyToReleasesFlag gitRoot artifactsRoot).
Local Abbreviation process_dependency :=
  (Orchestrator.process_dependency prepareRepository importModule ensureDirectory
     loadTools copyToReleases listReleasedFiles path_join path_resolve pathToFileURL
     config buildRoot force copyToReleasesFlag gitRoot artifactsRoot).
Local Abbreviation orchestrate_loop :=
  (Orchestrator.orchestrate_loop prepareRepository importModule ensureDirectory
     loadTools copyToReleases listReleasedFiles path_join path_resolve pathToFileURL
     config buildRoot force copyToReleasesFlag gitRoot artifactsRoot).

(** Running every call of the [try] block, one case for each completion. *)
Ltac run_calls :=
  unfold Orchestrator.build_dependency, Orchestrator.bind, Orchestrator.call,
    Orchestrator.emit, Orchestrator.push, Orchestrator.throw, Orchestrator.ret,
    Orchestrator.try_finally, Orchestrator.invoke_build;
  repeat (case_match; simplify_eq/=).

(** The [try] block pushes one entry, named after the dependency, when it
    completes, and none when it throws. *)
Lemma build_dependency_results d c st r evs st' :
  build_dependency d c st = (r, evs, st') →
  match r with
  | inl _ => Orchestrator.results st' = Orchestrator.results st
  | inr _ => ∃ entry, Orchestrator.results st' = Orchestrator.results st ++ [entry]
                      ∧ Orchestrator.name entry = d
  end.
Proof.
  intros Hrun. revert Hrun. run_calls; intros; simplify_eq/=; eauto.
Qed.

(** Every call logged by the [try] block is made for the dependency. *)
Lemma build_dependency_events d c st r evs st' :
  build_dependency d c st = (r, evs, st') →
  Forall (λ ev, event_dep ev = None ∨ event_dep ev = Some d) evs.
Proof.
  intros Hrun. revert Hrun. run_calls; intros; simplify_eq/=;
    repeat (apply Forall_cons; split; [simpl; tauto|]); apply Forall_nil_2.
Qed.




(** *** The loop body *)

Lemma process_dependency_skipped d c st :
  Validator.getDependency (Some config) d = Some c →
  dep_skip c = Some true →
  process_dependency d st
  = (inr (), [], {| Orchestrator.world := Orchestrator.world st;
                     Orchestrator.results :=
                       Orchestrator.results st ++ [Orchestrator.skipped_entry d] |}).
Proof.
  intros Hc Hskip. unfold Orchestrator.process_dependency. rewrite Hc, Hskip.
  reflexivity.
Qed.

Lemma process_dependency_missing d st :
  Validator.getDependency (Some config) d = None →
  process_dependency d st
  = (inl ("Dependency " +:+ d +:+ " not found in configuration"), [],
     {| Orchestrator.world := Orchestrator.world st;
        Orchestrator.results :=
          Orchestrator.results st
          ++ [Orchestrator.failed d
                ("Dependency " +:+ d +:+ " not found in configuration")] |}).
Proof.
  intros Hc. unfold Orchestrator.process_dependency. rewrite Hc. reflexivity.
Qed.

Lemma process_dependency_try d c st :
  Validator.getDependency (Some config) d = Some c →
  dep_skip c ≠ Some true →
  process_dependency d st
  = match build_dependency d c st with
    | (inl e, evs, st') =>
        (inl e, evs ++ [],
         {| Orchestrator.world := Orchestrator.world st';
            Orchestrator.results :=
              Orchestrator.results st' ++ [Orchestrator.failed d e] |})
    | (inr a, evs, st') => (inr a, evs, st')
    end.
Proof.
  intros Hc Hskip. unfold Orchestrator.process_dependency. rewrite Hc.
  destruct (dep_skip c) as [[|]|]; [congruence| |];
    unfold Orchestrator.try_catch;
    destruct (Orchestrator.build_dependency _ _ _ _ _ _ _ _ _ _ _ _ _ _ _ d c st)
      as [[[e|a] evs] st']; reflexivity.
Qed.

(** Each iteration that completes pushes one entry, named after its
    dependency. *)
Lemma process_dependency_results d st evs st' :
  process_dependency d st = (inr (), evs, st') →
  ∃ entry, Orchestrator.results st' = Orchestrator.results st ++ [entry]
           ∧ Orchestrator.name entry = d.
Proof.
  destruct (Validator.getDependency (Some config) d) as [c|] eqn:Hc.
  - destruct (decide (dep_skip c = Some true)) as [Hskip|Hskip].
    + rewrite (process_dependency_skipped d c st Hc Hskip). intros [= <- <-].
      eexists. split; reflexivity.
    + rewrite (process_dependency_try d c st Hc Hskip).
      destruct (build_dependency d c st) as [[[e|[]] evs0] st0] eqn:Hrun; [discriminate|].
      intros [= <- <-]. exact (build_dependency_results d c st _ _ _ Hrun).
  - rewrite (process_dependency_missing d st Hc). discriminate.
Qed.

(** Every call logged by an iteration is made for its dependency, which is
    not a skipped one. *)
Lemma process_dependency_events d st r evs st' :
  process_dependency d st = (r, evs, st') →
  Forall (λ ev, ∀ x, event_dep ev = Some x →
                x = d ∧ ∃ c, Validator.getDependency (Some config) d = Some c
                             ∧ dep_skip c ≠ Some true) evs.
Proof.
  destruct (Validator.getDependency (Some config) d) as [c|] eqn:Hc.
  - destruct (decide (dep_skip c = Some true)) as [Hskip|Hskip].
    + rewrite (process_dependency_skipped d c st Hc Hskip). intros [= <- <- <-].
      apply Forall_nil_2.
    + rewrite (process_dependency_try d c st Hc Hskip).
      destruct (build_dependency d c st) as [[r0 evs0] st0] eqn:Hrun.
      pose proof (build_dependency_events d c st _ _ _ Hrun) as Hev.
      assert (Hgoal : Forall (λ ev, ∀ x, event_dep ev = Some x →
                x = d ∧ ∃ c0, Some c = Some c0 ∧ dep_skip c0 ≠ Some true) evs0).
      { eapply Forall_impl; [exact Hev|]. intros ev [Hn|Hs] x Hx; [congruence|].
        split; [congruence|]. exists c. split; [reflexivity | exact Hskip]. }
      destruct r0; intros [= <- <- <-]; rewrite ?app_nil_r; exact Hgoal.
  - rewrite (process_dependency_missing d st Hc). intros [= <- <- <-].
    apply Forall_nil_2.
Qed.

(** *** The loop *)

Lemma orchestrate_loop_app l1 l2 st :
  orchestrate_loop (l1 ++ l2) st
  = match orchestrate_loop l1 st with
    | (inl e, evs, st') => (inl e, evs, st')
    | (inr _, evs, st') =>
        let '(r, evs', st'') := orchestrate_loop l2 st' in (r, evs ++ evs', st'')
    end.
Proof.
  revert st. induction l1 as [|d l1 IH]; intros st.
  - simpl. unfold Orchestrator.ret.
    destruct (orchestrate_loop l2 st) as [[r evs] st']. reflexivity.
  - cbn [app Orchestrator.orchestrate_loop]. unfold Orchestrator.bind.
    destruct (process_dependency d st) as [[[e|[]] evs] st1]; [reflexivity|].
    rewrite IH.
    destruct (orchestrate_loop l1 st1) as [[[e|[]] evs1] st2]; [reflexivity|].
    destruct (orchestrate_loop l2 st2) as [[r evs2] st3].
    rewrite app_assoc. reflexivity.
Qed.

Lemma orchestrate_loop_results l st evs st' :
  orchestrate_loop l st = (inr (), evs, st') →
  map Orchestrator.name (Orchestrator.results st')
  = map Orchestrator.name (Orchestrator.results st) ++ l.
Proof.
  revert st evs. induction l as [|d l IH]; intros st evs.
  - intros [= <- <-]. rewrite app_nil_r. reflexivity.
  - cbn [Orchestrator.orchestrate_loop]. unfold Orchestrator.bind at 1.
    destruct (process_dependency d st) as [[[e|[]] evs1] st1] eqn:Hd; [discriminate|].
    destruct (orchestrate_loop l st1) as [[r evs2] st2] eqn:Hl.
    intros [= -> <- <-].
    destruct (process_dependency_results d st _ _ Hd) as (entry & Hres & Hname).
    rewrite (IH _ _ Hl), Hres, map_app. simpl. rewrite Hname, <- app_assoc.
    reflexivity.
Qed.

Lemma orchestrate_loop_events l st r evs st' :
  orchestrate_loop l st = (r, evs, st') →
  Forall (λ ev, ∀ x, event_dep ev = Some x →
                ∃ c, Validator.getDependency (Some config) x = Some c
                     ∧ dep_skip c ≠ Some true) evs.
Proof.
  revert st r evs st'. induction l as [|d l IH]; intros st r evs st'.
  - intros [= <- <- <-]. apply Forall_nil_2.
  - cbn [Orchestrator.orchestrate_loop]. unfold Orchestrator.bind at 1.
    destruct (process_dependency d st) as [[r1 evs1] st1] eqn:Hd.
    assert (H1 : Forall (λ ev, ∀ x, event_dep ev = Some x →
                ∃ c, Validator.getDependency (Some config) x = Some c
                     ∧ dep_skip c ≠ Some true) evs1).
    { eapply Forall_impl; [exact (process_dependency_events d st _ _ _ Hd)|].
      intros ev H x Hx. destruct (H x Hx) as [-> Hc]. exact Hc. }
    destruct r1 as [e|[]].
    + intros [= <- <- <-]. exact H1.
    + destruct (orchestrate_loop l st1) as [[r2 evs2] st2] eqn:Hl.
      intros [= <- <- <-]. apply Forall_app. split; [exact H1|].
      exact (IH _ _ _ _ Hl).
Qed.

End OrchestratorFacts.

Example pipeline_run :
  ∃ m, ex_orchestrateBuild pipeline_config = Some m
       ∧ (m ex_state).1.1 = inl "compile error"
       ∧ map Orchestrator.name (Orchestrator.results (m ex_state).2) = ["a"; "b"]
       ∧ (m ex_state).1.2
         = [Orchestrator.EnsureDirectory "/build/.git.temp";
            Orchestrator.EnsureDirectory "/build/artifacts";
            Orchestrator.PrepareRepository "a";
            Orchestrator.ImportWorker "a" "file:///build/workers/build.js";
            Orchestrator.EnsureDirectory "/build/artifacts/a";
            Orchestrator.Build "a"; Orchestrator.BuildReturned "a";
            Orchestrator.CleanupTools "a";
            Orchestrator.PrepareRepository "b";
            Orchestrator.ImportWorker "b" "file:///build/workers/build.js";
            Orchestrator.EnsureDirectory "/build/artifacts/b";
            Orchestrator.LoadTools "b"; Orchestrator.ToolsLoaded "b";
            Orchestrator.Build "b"; Orchestrator.BuildThrew "b";
            Orchestrator.CleanupTools "b"].
Proof. eexists. split; [vm_compute; reflexivity|]. vm_compute. repeat split. Qed.

Section OrchestratorClaims.

Context {W : Type}.
Variable prepareRepository : Git.PrepareOptions → W → (string + Git.RepoResult) * W.
Variable importModule : string → W → (string + @Orchestrator.WorkerModule W) * W.
Variable ensureDirectory : string → W → (string + unit) * W.
Variable loadTools :
  list ToolSpec → string → W → (string + (W → (string + unit) * W)) * W.
Variable copyToReleases :
  Orchestrator.CopyOptions → W → (string + Orchestrator.ReleaseResult) * W.
Variable listReleasedFiles : string → W → (string + list string) * W.
Variable path_join : string → string → string.
Variable path_resolve : string → string → string.
Variable pathToFileURL : string → string.

Local Abbreviation orchestrateBuild :=
  (Orchestrator.orchestrateBuild prepareRepository importModule ensureDirectory
     loadTools copyToReleases listReleasedFiles path_join path_resolve pathToFileURL).
Local Abbreviation build_dependency :=
  (Orchestrator.build_dependency prepareRepository importModule ensureDirectory
     loadTools copyToReleases listReleasedFiles path_join path_resolve pathToFileURL).
Local Abbreviation process_dependency :=
  (Orchestrator.process_dependency prepareRepository importModule ensureDirectory
     loadTools copyToReleases listReleasedFiles path_join path_resolve pathToFileURL).
Local Abbreviation orchestrate_loop :=
  (Orchestrator.orchestrate_loop prepareRepository importModule ensureDirectory
     loadTools copyToReleases listReleasedFiles path_join path_resolve pathToFileURL).

(** No call of a run of [orchestrateBuild] is made for a skipped
    dependency. *)
Lemma orchestrateBuild_events options config m st r evs st' :
  Orchestrator.opt_config options = Some config →
  orchestrateBuild options = Some m →
  m st = (r, evs, st') →
  Forall (λ ev, ∀ x, event_dep ev = Some x →
                ∃ c, Validator.getDependency (Some config) x = Some c
                     ∧ dep_skip c ≠ Some true) evs.
Proof.
  intros Hconfig. unfold Orchestrator.orchestrateBuild. rewrite Hconfig.
  destruct (negb (truthy (Orchestrator.opt_buildRoot options))).
  { intros [= <-] [= <- <- <-]. apply Forall_nil_2. }
  destruct (Validator.validateBuildConfig (Some config)).
  { intros [= <-] [= <- <- <-]. apply Forall_nil_2. }
  destruct (Resolver.resolveBuildOrder (Some config)) as [[order|v|cycles]|];
    [| intros [= <-] [= <- <- <-]; apply Forall_nil_2
     | intros [= <-] [= <- <- <-]; apply Forall_nil_2 | discriminate].
  intros [= <-]. unfold Orchestrator.bind, Orchestrator.call. simpl.
  destruct (ensureDirectory _ _) as [[e|[]] w1]; [intros [= <- <- <-]|].
  { apply Forall_cons. split; [discriminate | apply Forall_nil_2]. }
  destruct (ensureDirectory _ _) as [[e|[]] w2]; [intros [= <- <- <-]|].
  { repeat (apply Forall_cons; split; [discriminate|]). apply Forall_nil_2. }
  match goal with
  | |- context [Orchestrator.orchestrate_loop ?a1 ?a2 ?a3 ?a4 ?a5 ?a6 ?a7 ?a8 ?a9
                  ?cfg ?root ?f ?cp ?g ?ar ?l ?s] =>
      destruct (Orchestrator.orchestrate_loop a1 a2 a3 a4 a5 a6 a7 a8 a9
                  cfg root f cp g ar l s) as [[[e|[]] evs0] st0] eqn:Hloop;
      pose proof Hloop as Hev; apply orchestrate_loop_events in Hev
  end; intros [= <- <- <-];
    repeat (apply Forall_cons; split; [discriminate|]);
    rewrite ?app_nil_r; exact Hev.
Qed.

(** [orchestrateBuild] validates, resolves the order, ensures its two
    directories and runs the loop from an empty [results]: it returns the
    [results] of the loop, or throws what the loop throws, in the state in
    which the loop ended. *)
Lemma orchestrateBuild_runs_loop options config buildRoot order m st w1 w2 :
  Orchestrator.opt_config options = Some config →
  Orchestrator.opt_buildRoot options = Some buildRoot →
  buildRoot ≠ "" →
  Validator.validateBuildConfig (Some config) = inr () →
  Resolver.resolveBuildOrder (Some config) = Some (Resolver.Order order) →
  orchestrateBuild options = Some m →
  ensureDirectory (path_join buildRoot ".git.temp") (Orchestrator.world st) = (inr (), w1) →
  ensureDirectory (path_join buildRoot "artifacts") w1 = (inr (), w2) →
  m st =
  let '(r, evs, st') :=
    orchestrate_loop config buildRoot
      (default false (Orchestrator.opt_force options))
      (default false (Orchestrator.opt_copyToReleases options))
      (path_join buildRoot ".git.temp") (path_join buildRoot "artifacts")
      (match Orchestrator.opt_only options with
       | Some (o :: only) => filter (λ depName, depName ∈ o :: only) order
       | _ => order
       end)
      {| Orchestrator.world := w2; Orchestrator.results := [] |} in
  (match r with inl e => inl e | inr _ => inr (Orchestrator.results st') end,
   Orchestrator.EnsureDirectory (path_join buildRoot ".git.temp")
   :: Orchestrator.EnsureDirectory (path_join buildRoot "artifacts") :: evs,
   st').
Proof.
  intros Hconfig Hroot Hne Hvalid Horder.
  unfold Orchestrator.orchestrateBuild.
  rewrite Hconfig, Hroot, Hvalid, Horder. cbn [default].
  rewrite (truthy_Some buildRoot Hne). cbn [negb].
  intros [= <-] H1 H2.
  unfold Orchestrator.bind, Orchestrator.call. cbn [Orchestrator.world].
  rewrite H1. cbn [Orchestrator.world]. rewrite H2.
  cbn [Orchestrator.world Orchestrator.results].
  match goal with
  | |- context [Orchestrator.orchestrate_loop ?a1 ?a2 ?a3 ?a4 ?a5 ?a6 ?a7 ?a8 ?a9
                  ?cfg ?root ?f ?cp ?g ?ar ?l ?s] =>
      destruct (Orchestrator.orchestrate_loop a1 a2 a3 a4 a5 a6 a7 a8 a9
                  cfg root f cp g ar l s) as [[[e|[]] evs0] st0]
  end; simpl; rewrite ?app_nil_r; reflexivity.
Qed.

(** C4, amended. A dependency whose [skip] is [true] is recorded as
    [ok: true, skipped: true] by the iteration of the loop that meets it,
    which runs nothing else and lets the loop continue; and in a run of
    [orchestrateBuild] no step of repository preparation or of a build is
    made for it. *)
Theorem orchestrateBuild_skipped (options : Orchestrator.Options)
    (config : BuildConfig) (d : key) (c : DependencyConfig) :
  Orchestrator.opt_config options = Some config →
  Validator.getDependency (Some config) d = Some c →
  dep_skip c = Some true →
  (∀ buildRoot force copyFlag gitRoot artifactsRoot st,
     process_dependency config buildRoot force copyFlag gitRoot artifactsRoot d st
     = (inr (), [],
        {| Orchestrator.world := Orchestrator.world st;
           Orchestrator.results :=
             Orchestrator.results st
             ++ [{| Orchestrator.ok := true; Orchestrator.name := d;
                    Orchestrator.skipped := Some true;
                    Orchestrator.reason := Some "marked as skip in config";
                    Orchestrator.version := None; Orchestrator.branch := None;
                    Orchestrator.error := None; Orchestrator.releaseDir := None;
                    Orchestrator.releasedFiles := None |}] |}))
  ∧ (∀ m st r evs st',
       orchestrateBuild options = Some m → m st = (r, evs, st') →
       ∀ ev, ev ∈ evs → ¬ step_of d ev).
Proof.
  intros Hconfig Hc Hskip. split.
  - intros. eapply process_dependency_skipped; eassumption.
  - intros m st r evs st' Hm Hrun ev Hev Hstep.
    pose proof (orchestrateBuild_events options config m st r evs st' Hconfig Hm Hrun)
      as Hall.
    rewrite Forall_forall in Hall.
    destruct (Hall ev Hev d Hstep) as (c' & Hc' & Hskip').
    rewrite Hc in Hc'. injection Hc' as <-. contradiction.
Qed.

(** C7. When the processing of a dependency [d] throws [e] (its
    configuration is missing, or the [try] block throws) after the
    dependencies [before] it were processed, the loop of [orchestrateBuild]
    pushes the failing entry for [d] and throws [e] at once: the run ends
    in the state of the throw, with the calls made up to it, and [results]
    holds one entry for each of [before] followed by the entry [ok: false]
    with the message for [d], whatever comes [after]. [orchestrateBuild]
    passes the throw and that state on. *)
Theorem orchestrate_loop_fail_fast (config : BuildConfig) (buildRoot : string)
    (force copyFlag : bool) (gitRoot artifactsRoot : string)
    (before after : list key) (d : key) (e : string)
    (st st1 st2 : Orchestrator.state) (evs1 evs2 : list Orchestrator.event) :
  orchestrate_loop config buildRoot force copyFlag gitRoot artifactsRoot before st
    = (inr (), evs1, st1) →
  (Validator.getDependency (Some config) d = None
   ∧ e = "Dependency " +:+ d +:+ " not found in configuration"
   ∧ evs2 = [] ∧ st2 = st1)
  ∨ (∃ c, Validator.getDependency (Some config) d = Some c
          ∧ dep_skip c ≠ Some true
          ∧ build_dependency config buildRoot force copyFlag gitRoot artifactsRoot
              d c st1 = (inl e, evs2, st2)) →
  orchestrate_loop config buildRoot force copyFlag gitRoot artifactsRoot
    (before ++ d :: after) st
  = (inl e, evs1 ++ evs2,
     {| Orchestrator.world := Orchestrator.world st2;
        Orchestrator.results :=
          Orchestrator.results st1
          ++ [{| Orchestrator.ok := false; Orchestrator.name := d;
                 Orchestrator.error := Some e;
                 Orchestrator.version := None; Orchestrator.branch := None;
                 Orchestrator.skipped := None; Orchestrator.reason := None;
                 Orchestrator.releaseDir := None;
                 Orchestrator.releasedFiles := None |}] |})
  ∧ map Orchestrator.name (Orchestrator.results st1) ++ [d]
    = map Orchestrator.name (Orchestrator.results st) ++ before ++ [d].
Proof.
  intros Hbefore Hraise. split.
  - rewrite orchestrate_loop_app, Hbefore.
    cbn [Orchestrator.orchestrate_loop]. unfold Orchestrator.bind at 1.
    destruct Hraise as [(Hc & -> & -> & ->)|(c & Hc & Hskip & Hrun)].
    + erewrite process_dependency_missing by exact Hc.
      rewrite app_nil_r. reflexivity.
    + erewrite process_dependency_try by eassumption.
      rewrite Hrun.
      pose proof Hrun as Hres. apply build_dependency_results in Hres.
      simpl in Hres. rewrite Hres.
      rewrite app_nil_r. reflexivity.
  - erewrite orchestrate_loop_results by exact Hbefore.
    rewrite <- app_assoc. reflexivity.
Qed.


End OrchestratorClaims.

(** C4, as stated, fails: the run for a configuration whose only
    dependency is skipped returns an empty list of results. *)
Lemma orchestrateBuild_skipped_not_recorded :
  Validator.getDependency (Some skipping_config) "a"
    = Some (ex_dep "a" [] None (Some true))
  ∧ ∃ m, ex_orchestrateBuild skipping_config = Some m ∧ (m ex_state).1.1 = inr [].
Proof. split; [reflexivity|]. eexists. split; vm_compute; reflexivity. Qed.

Lemma orchestrateBuild_skipped_witness :
  (∀ buildRoot force copyFlag gitRoot artifactsRoot st,
     Orchestrator.process_dependency ex_prepareRepository ex_importModule
       ex_ensureDirectory ex_loadTools ex_copyToReleases ex_listReleasedFiles
       ex_join ex_join ex_url skipping_config buildRoot force copyFlag gitRoot
       artifactsRoot "a" st
     = (inr (), [],
        {| Orchestrator.world := Orchestrator.world st;
           Orchestrator.results :=
             Orchestrator.results st
             ++ [{| Orchestrator.ok := true; Orchestrator.name := "a";
                    Orchestrator.skipped := Some true;
                    Orchestrator.reason := Some "marked as skip in config";
                    Orchestrator.version := None; Orchestrator.branch := None;
                    Orchestrator.error := None; Orchestrator.releaseDir := None;
                    Orchestrator.releasedFiles := None |}] |}))
  ∧ (∀ m st r evs st',
       ex_orchestrateBuild skipping_config = Some m → m st = (r, evs, st') →
       ∀ ev, ev ∈ evs → ¬ step_of "a" ev).
Proof.
  apply (orchestrateBuild_skipped ex_prepareRepository ex_importModule
           ex_ensureDirectory ex_loadTools ex_copyToReleases ex_listReleasedFiles
           ex_join ex_join ex_url (ex_options skipping_config) skipping_config "a"
           (ex_dep "a" [] None (Some true)));
    reflexivity.
Defined.

Lemma orchestrate_loop_fail_fast_witness :
  ex_orchestrate_loop (["a"] ++ "b" :: ["c"]) ex_state
  = (inl "compile error", ex_after_a.1.2 ++ ex_try_b.1.2,
     {| Orchestrator.world := Orchestrator.world ex_try_b.2;
        Orchestrator.results :=
          Orchestrator.results ex_after_a.2
          ++ [{| Orchestrator.ok := false; Orchestrator.name := "b";
                 Orchestrator.error := Some "compile error";
                 Orchestrator.version := None; Orchestrator.branch := None;
                 Orchestrator.skipped := None; Orchestrator.reason := None;
                 Orchestrator.releaseDir := None;
                 Orchestrator.releasedFiles := None |}] |})
  ∧ map Orchestrator.name (Orchestrator.results ex_after_a.2) ++ ["b"]
    = map Orchestrator.name (Orchestrator.results ex_state) ++ ["a"] ++ ["b"].
Proof.
  apply (orchestrate_loop_fail_fast ex_prepareRepository ex_importModule
           ex_ensureDirectory ex_loadTools ex_copyToReleases ex_listReleasedFiles
           ex_join ex_join ex_url pipeline_config "/build" false false
           "/build/.git.temp" "/build/artifacts" ["a"] ["c"] "b" "compile error"
           ex_state ex_after_a.2 ex_try_b.2 ex_after_a.1.2 ex_try_b.1.2).
  - vm_compute. reflexivity.
  - right. exists ex_dep_b. split; [reflexivity|]. split; [discriminate|].
    vm_compute. reflexivity.
Defined.


(** ** Further properties of [resolveBuildOrder] *)

Section OrderFacts.

Variable deps : list (key * DependencyConfig).
Hypothesis keys_nodup : NoDup (dep_keys deps).

Local Abbreviation dps := (dependencies_of deps).
Local Abbreviation N := (Resolver.activeDeps deps).

(** An order is returned only at the end of the loop, when every active node
    has been output. *)
Lemma resolve_order_inv order :
  Resolver.resolve deps = Some (Resolver.Order order) →
  ∃ D, kahn_inv deps N D [] order ∧ length order = length N
       ∧ Resolver.kahn (S (length N)) (Resolver.build_graph deps N).1
           (Resolver.build_graph deps N).2
           (Resolver.initial_queue N (Resolver.build_graph deps N).2) [] ∅
         = Some (order, list_to_set order).
Proof.
  rewrite resolve_unfold.
  destruct (Resolver.invalidDeps deps); [|discriminate].
  destruct (resolve_kahn deps keys_nodup) as (D & R & HR & Hinv). rewrite HR.
  destruct (decide (length R ≠ length N)) as [Hne|Heq].
  - destruct (Resolver.detectCycles _ _); discriminate.
  - intros [= <-]. exists D. split; [exact Hinv|]. split; [lia | reflexivity].
Qed.

Lemma resolve_order_perm order :
  Resolver.resolve deps = Some (Resolver.Order order) → order ≡ₚ N.
Proof.
  intros H. destruct (resolve_order_inv order H) as (D & [Hnd Hnodes _ _ _] & Hlen & _).
  rewrite app_nil_r in Hnd. apply submseteq_length_Permutation; [|lia].
  apply NoDup_submseteq; [exact Hnd|]. intros x Hx. apply Hnodes.
  rewrite app_nil_r. exact Hx.
Qed.

Lemma resolve_order_ordered order :
  Resolver.resolve deps = Some (Resolver.Order order) → ordered deps order.
Proof.
  intros H. destruct (resolve_order_inv order H) as (D & [_ _ _ _ Hord] & _). exact Hord.
Qed.






End OrderFacts.

(** ** What [detectCycles] reports *)

Section DfsMore.

Variable deps : list (key * DependencyConfig).

Local Abbreviation dps := (dependencies_of deps).
Local Abbreviation N := (Resolver.activeDeps deps).

Lemma dfs_each_preserves (I : Resolver.dfs_state → Prop) visit (path : list key) l st st' :
  (∀ dep s s', dep ∈ l → I s → visit dep path s = Some s' → I s') →
  I st → Resolver.dfs_each visit l path st = Some st' → I st'.
Proof.
  revert st. induction l as [|dep l IH]; intros st Hvisit Hst; simpl.
  - intros [= <-]. exact Hst.
  - destruct (visit dep path st) as [s|] eqn:E; [|discriminate].
    apply IH.
    + intros d s1 s2 Hd. apply Hvisit, list_elem_of_further, Hd.
    + eapply Hvisit; [apply list_elem_of_here | exact Hst | exact E].
Qed.

(** The list of recorded cycles only grows, and so does [visited]. *)
Lemma dfs_grows fuel node path st st' :
  Resolver.dfs deps fuel node path st = Some st' →
  (∃ more, Resolver.cycles st' = Resolver.cycles st ++ more)
  ∧ Resolver.visited st ⊆ Resolver.visited st'.
Proof.
  revert node path st st'.
  induction fuel as [|fuel IH]; intros node path st st'; [discriminate|].
  cbn [Resolver.dfs].
  destruct (decide (node ∈ Resolver.visiting st)).
  { intros [= <-]. simpl. split; [eauto | reflexivity]. }
  destruct (decide (node ∈ Resolver.visited st)).
  { intros [= <-]. split; [exists []; rewrite app_nil_r|]; reflexivity. }
  destruct (Resolver.dfs_each _ _ _ _) as [st2|] eqn:E; [|discriminate].
  intros [= <-]. simpl.
  apply (dfs_each_preserves
           (λ s, (∃ more, Resolver.cycles s = Resolver.cycles st ++ more)
                 ∧ Resolver.visited st ⊆ Resolver.visited s)) in E.
  - destruct E as [Hc Hv]. split; [exact Hc|].
    intros x Hx. apply elem_of_union. right. apply Hv, Hx.
  - intros dep s s' _ [[m1 Hm1] Hv1] Hrun. apply IH in Hrun as [[m2 Hm2] Hv2]. split.
    + exists (m1 ++ m2). rewrite Hm2, Hm1, app_assoc. reflexivity.
    + intros x Hx. apply Hv2, Hv1, Hx.
  - simpl. split; [exists []; rewrite app_nil_r|]; reflexivity.
Qed.

Lemma detect_from_grows fuel unvisited st st' :
  Resolver.detect_from deps fuel unvisited st = Some st' →
  (∃ more, Resolver.cycles st' = Resolver.cycles st ++ more)
  ∧ Resolver.visited st ⊆ Resolver.visited st'.
Proof.
  revert st. induction unvisited as [|node l IH]; intros st; simpl.
  - intros [= <-]. split; [exists []; rewrite app_nil_r|]; reflexivity.
  - destruct (decide (node ∈ Resolver.visited st)); [apply IH|].
    destruct (Resolver.dfs deps fuel node [] st) as [s|] eqn:E; [|discriminate].
    intros Hrun. apply IH in Hrun as [[m2 Hm2] Hv2].
    apply dfs_grows in E as [[m1 Hm1] Hv1]. split.
    + exists (m1 ++ m2). rewrite Hm2, Hm1, app_assoc. reflexivity.
    + intros x Hx. apply Hv2, Hv1, Hx.
Qed.

Lemma dfs_each_finished visit l (path : list key) st st' :
  (∀ dep p s s', visit dep p s = Some s' →
     (∃ more, Resolver.cycles s' = Resolver.cycles s ++ more)
     ∧ Resolver.visited s ⊆ Resolver.visited s') →
  (∀ dep p s s', visit dep p s = Some s' → Resolver.cycles s' = [] →
     finished deps s → finished deps s' ∧ dep ∈ Resolver.visited s') →
  Resolver.dfs_each visit l path st = Some st' →
  Resolver.cycles st' = [] →
  finished deps st →
  finished deps st' ∧ ∀ d, d ∈ l → d ∈ Resolver.visited st'.
Proof.
  intros Hgrow Hvisit. revert st. induction l as [|dep l IH]; intros st; simpl.
  - intros [= <-] _ Hfin. split; [exact Hfin|]. intros d Hd. inversion Hd.
  - destruct (visit dep path st) as [s|] eqn:E; [|discriminate].
    intros Hrun Hnil Hfin.
    assert (Hrest : (∃ more, Resolver.cycles st' = Resolver.cycles s ++ more)
                    ∧ Resolver.visited s ⊆ Resolver.visited st').
    { apply (dfs_each_preserves
               (λ s', (∃ more, Resolver.cycles s' = Resolver.cycles s ++ more)
                      ∧ Resolver.visited s ⊆ Resolver.visited s')) in Hrun.
      - exact Hrun.
      - intros d s1 s2 _ [[m1 Hm1] Hv1] Hd. apply Hgrow in Hd as [[m2 Hm2] Hv2]. split.
        + exists (m1 ++ m2). rewrite Hm2, Hm1, app_assoc. reflexivity.
        + intros x Hx. apply Hv2, Hv1, Hx.
      - split; [exists []; rewrite app_nil_r|]; reflexivity. }
    destruct Hrest as [[more Hmore] Hsub].
    assert (Hs : Resolver.cycles s = []).
    { rewrite Hnil in Hmore. symmetry in Hmore. apply app_eq_nil in Hmore. tauto. }
    destruct (Hvisit dep path st s E Hs Hfin) as [Hfs Hdep].
    destruct (IH s Hrun Hnil Hfs) as [Hf' Hall]. split; [exact Hf'|].
    intros d Hd. apply elem_of_cons in Hd as [->|Hd]; [apply Hsub, Hdep | apply Hall, Hd].
Qed.

(** As long as no cycle is recorded, a node that [dfs] returns from is
    finished, after all its dependencies. *)
Lemma dfs_finished fuel node path st st' :
  Resolver.dfs deps fuel node path st = Some st' →
  Resolver.cycles st' = [] →
  finished deps st →
  finished deps st' ∧ node ∈ Resolver.visited st'.
Proof.
  revert node path st st'.
  induction fuel as [|fuel IH]; intros node path st st'; [discriminate|].
  cbn [Resolver.dfs].
  destruct (decide (node ∈ Resolver.visiting st)).
  { intros [= <-]. simpl. intros Hnil. apply app_eq_nil in Hnil as [_ Hnil]. discriminate. }
  destruct (decide (node ∈ Resolver.visited st)) as [Hv|Hv].
  { intros [= <-]. tauto. }
  destruct (Resolver.dfs_each _ _ _ _) as [st2|] eqn:E; [|discriminate].
  intros [= <-]. simpl. intros Hnil Hfin.
  apply dfs_each_finished in E.
  - destruct E as [(L & HL & Hord) Hall]. split.
    + exists (L ++ [node]). split.
      * intros y. cbn [Resolver.visited].
        rewrite elem_of_union, elem_of_singleton, elem_of_app, list_elem_of_singleton.
        intros [->|Hy]; [tauto|]. left. apply HL, Hy.
      * apply ordered_snoc; [exact Hord|]. intros b Hb. apply HL, Hall, Hb.
    + cbn [Resolver.visited]. apply elem_of_union. left. apply elem_of_singleton. reflexivity.
  - intros dep p s s'. apply dfs_grows.
  - intros dep p s s'. apply IH.
  - exact Hnil.
  - exact Hfin.
Qed.

Lemma detect_from_finished fuel unvisited st st' :
  Resolver.detect_from deps fuel unvisited st = Some st' →
  Resolver.cycles st' = [] →
  finished deps st →
  finished deps st' ∧ ∀ x, x ∈ unvisited → x ∈ Resolver.visited st'.
Proof.
  revert st. induction unvisited as [|node l IH]; intros st; simpl.
  - intros [= <-] _ Hfin. split; [exact Hfin|]. intros x Hx. inversion Hx.
  - destruct (decide (node ∈ Resolver.visited st)) as [Hv|Hv].
    + intros Hrun Hnil Hfin. destruct (IH st Hrun Hnil Hfin) as [Hf Hall].
      split; [exact Hf|]. intros x Hx.
      apply elem_of_cons in Hx as [->|Hx]; [|apply Hall, Hx].
      apply detect_from_grows in Hrun as [_ Hsub]. apply Hsub, Hv.
    + destruct (Resolver.dfs deps fuel node [] st) as [s|] eqn:E; [|discriminate].
      intros Hrun Hnil Hfin.
      pose proof (detect_from_grows _ _ _ _ Hrun) as [[more Hmore] Hsub].
      assert (Hs : Resolver.cycles s = []).
      { rewrite Hnil in Hmore. symmetry in Hmore. apply app_eq_nil in Hmore. tauto. }
      destruct (dfs_finished _ _ _ _ _ E Hs Hfin) as [Hfs Hnode].
      destruct (IH s Hrun Hnil Hfs) as [Hf Hall]. split; [exact Hf|].
      intros x Hx. apply elem_of_cons in Hx as [->|Hx]; [apply Hsub, Hnode | apply Hall, Hx].
Qed.

(** A node on a cycle among the nodes handed to [detectCycles] makes it
    report at least one cycle. *)
Lemma detectCycles_complete unvisited cycles x :
  Resolver.detectCycles deps unvisited = Some cycles →
  x ∈ unvisited → tc (active_edge deps) x x → cycles ≠ [].
Proof.
  unfold Resolver.detectCycles.
  destruct (Resolver.detect_from _ _ _ _) as [st|] eqn:E; [|discriminate].
  intros [= <-] Hx Hcyc Hnil.
  apply detect_from_finished in E as [(L & HL & Hord) Hall]; [|exact Hnil|].
  - exact (ordered_no_cycle deps L Hord x (HL x (Hall x Hx)) Hcyc).
  - exists []. split.
    + simpl. intros y Hy. apply not_elem_of_empty in Hy. contradiction.
    + intros R1 A R2 Heq. destruct R1; discriminate.
Qed.

(** Under the data model's invariant, [dfs] walks over active nodes only, so
    the cycles it records are made of active nodes. *)
Lemma dfs_cycles_active fuel node path st st' :
  no_skipped_reference deps →
  Resolver.dfs deps fuel node path st = Some st' →
  (∀ x, x ∈ path → x ∈ N) →
  node ∈ N ∨ dps node = [] →
  (∀ x, x ∈ Resolver.visiting st → x ∈ path) →
  Forall (λ c, ∀ x, x ∈ c → x ∈ N) (Resolver.cycles st) →
  (∀ x, x ∈ Resolver.visiting st' → x ∈ path)
  ∧ Forall (λ c, ∀ x, x ∈ c → x ∈ N) (Resolver.cycles st').
Proof.
  intros Hskip. revert node path st st'.
  induction fuel as [|fuel IH]; intros node path st st'; [discriminate|].
  cbn [Resolver.dfs]. intros Hrun Hpath Hnode Hvis Hcyc.
  destruct (decide (node ∈ Resolver.visiting st)) as [Hin|Hnin].
  - injection Hrun as <-. simpl. split; [exact Hvis|].
    apply Forall_app. split; [exact Hcyc|]. apply Forall_singleton.
    destruct (slice_from_index node path (Hvis node Hin)) as (pre & rest & Heq & ->).
    intros x Hx. apply Hpath. rewrite Heq.
    apply elem_of_app in Hx as [Hx|Hx].
    + apply elem_of_app. right. exact Hx.
    + apply list_elem_of_singleton in Hx as ->.
      apply elem_of_app. right. apply list_elem_of_here.
  - destruct (decide (node ∈ Resolver.visited st)).
    { injection Hrun as <-. split; assumption. }
    destruct (Resolver.dfs_each _ _ _ _) as [st2|] eqn:E; [|discriminate].
    injection Hrun as <-.
    apply (dfs_each_preserves
             (λ s, (∀ x, x ∈ Resolver.visiting s → x ∈ path ++ [node])
                   ∧ Forall (λ c, ∀ x, x ∈ c → x ∈ N) (Resolver.cycles s))) in E.
    + destruct E as [Hvis2 Hcyc2]. split; [|exact Hcyc2]. simpl.
      intros x. rewrite elem_of_difference, elem_of_singleton. intros [Hx Hne].
      apply Hvis2, elem_of_app in Hx as [Hx|Hx]; [exact Hx|].
      apply list_elem_of_singleton in Hx. congruence.
    + intros dep s s' Hdep [Hv Hc] Hrun.
      assert (HnodeN : node ∈ N).
      { destruct Hnode as [H|H]; [exact H|]. rewrite H in Hdep. inversion Hdep. }
      eapply IH; [exact Hrun | | | exact Hv | exact Hc].
      * intros x Hx. apply elem_of_app in Hx as [Hx|Hx]; [apply Hpath, Hx|].
        apply list_elem_of_singleton in Hx as ->. exact HnodeN.
      * destruct (decide (dep ∈ dep_keys deps)) as [Hk|Hk].
        -- left. apply activeDeps_spec. split; [exact Hk|].
           exact (Hskip node dep HnodeN Hdep).
        -- right. apply dependencies_of_unknown, Hk.
    + split; [|exact Hcyc]. simpl. intros x.
      rewrite elem_of_union, elem_of_singleton, elem_of_app, list_elem_of_singleton.
      intros [->|Hx]; [tauto|]. left. apply Hvis, Hx.
Qed.

Lemma detect_from_active fuel unvisited st st' :
  no_skipped_reference deps →
  Resolver.detect_from deps fuel unvisited st = Some st' →
  (∀ x, x ∈ unvisited → x ∈ N) →
  Resolver.visiting st = ∅ →
  Forall (λ c, ∀ x, x ∈ c → x ∈ N) (Resolver.cycles st) →
  Forall (λ c, ∀ x, x ∈ c → x ∈ N) (Resolver.cycles st').
Proof.
  intros Hskip. revert st. induction unvisited as [|node l IH]; intros st; simpl.
  - intros [= <-] _ _ H. exact H.
  - intros Hrun Hall Hvis Hcyc.
    assert (Hl : ∀ x, x ∈ l → x ∈ N) by (intros x Hx; apply Hall, list_elem_of_further, Hx).
    destruct (decide (node ∈ Resolver.visited st)); [exact (IH st Hrun Hl Hvis Hcyc)|].
    destruct (Resolver.dfs deps fuel node [] st) as [s|] eqn:E; [|discriminate].
    apply dfs_cycles_active in E as [Hvis' Hcyc']; [| exact Hskip | | | | exact Hcyc].
    + apply (IH s Hrun Hl); [|exact Hcyc'].
      apply set_eq. intros x. split; [|intros Hx; apply not_elem_of_empty in Hx; contradiction].
      intros Hx. apply Hvis' in Hx. inversion Hx.
    + intros x Hx. inversion Hx.
    + left. apply Hall, list_elem_of_here.
    + rewrite Hvis. intros x Hx. apply not_elem_of_empty in Hx. contradiction.
Qed.

(** A chain of [deps] entries over active nodes is a chain of the graph
    over active nodes. *)
Lemma chain_from_active a l :
  a ∈ N → (∀ x, x ∈ l → x ∈ N) →
  chain_from (dep_edge deps) a l → chain_from (active_edge deps) a l.
Proof.
  revert a. induction l as [|b l IH]; intros a Ha Hl; simpl; [tauto|].
  intros [Hab Hrest].
  assert (Hb : b ∈ N) by apply Hl, list_elem_of_here.
  split; [split; [exact Ha|]; split; [exact Hb | exact Hab]|].
  apply IH; [exact Hb | | exact Hrest].
  intros x Hx. apply Hl, list_elem_of_further, Hx.
Qed.

(** A reported cycle of active nodes is a cycle of the graph over them. *)
Lemma closes_active_cycle c :
  closes deps c → (∀ x, x ∈ c → x ∈ N) → ∃ x, x ∈ c ∧ tc (active_edge deps) x x.
Proof.
  intros [(x & l & ->) Hchain] Hall. exists x. split; [apply list_elem_of_here|].
  apply (chain_from_tc _ x l x). simpl in Hchain.
  apply chain_from_active; [apply Hall, list_elem_of_here | | exact Hchain].
  intros y Hy. apply Hall, list_elem_of_further, Hy.
Qed.

Lemma detectCycles_active unvisited cycles :
  no_skipped_reference deps →
  (∀ x, x ∈ unvisited → x ∈ N) →
  Resolver.detectCycles deps unvisited = Some cycles →
  Forall (λ c, ∃ x, x ∈ c ∧ tc (active_edge deps) x x) cycles.
Proof.
  intros Hskip Hall Hrun.
  pose proof (detectCycles_close deps unvisited cycles Hrun) as Hclose.
  unfold Resolver.detectCycles in Hrun.
  destruct (Resolver.detect_from _ _ _ _) as [st|] eqn:E; [|discriminate].
  injection Hrun as <-.
  apply detect_from_active in E; [| exact Hskip | exact Hall | reflexivity | constructor].
  rewrite Forall_forall in Hclose, E |- *. intros c Hc.
  apply closes_active_cycle; [apply Hclose, Hc | apply E, Hc].
Qed.

End DfsMore.

Section MoreChecks.

Variable deps : list (key * DependencyConfig).

Lemma active_closed_check :
  Forall (λ A, Forall (λ B, B ∈ Resolver.activeDeps deps) (dependencies_of deps A))
         (Resolver.activeDeps deps) →
  active_closed deps.
Proof.
  intros H A B HA HB. rewrite Forall_forall in H.
  specialize (H A HA). rewrite Forall_forall in H. exact (H B HB).
Qed.

(** [invalidDeps] is empty only if no active dependency lists a skipped one. *)
Lemma invalidDeps_nil_inv :
  Resolver.invalidDeps deps = [] → no_skipped_reference deps.
Proof.
  intros Hnil A B HA HB HBs.
  assert (HBin : B ∈ Resolver.skippedDependencies deps A).
  { apply list_elem_of_filter. split; [|exact HB].
    apply skippedDeps_spec. split; [apply skip_is_true_key, HBs | exact HBs]. }
  assert (Hin : (A, Resolver.skippedDependencies deps A) ∈ Resolver.invalidDeps deps).
  { apply invalidDeps_spec. split; [exact HA|]. split; [reflexivity|].
    intros E. rewrite E in HBin. inversion HBin. }
  rewrite Hnil in Hin. inversion Hin.
Qed.

(** What the circular-dependency error of [resolve] holds. *)
Lemma resolve_circular cycles :
  NoDup (dep_keys deps) →
  Resolver.resolve deps = Some (Resolver.CircularDependencyError cycles) →
  no_skipped_reference deps
  ∧ ∃ R, ordered deps R ∧ (∀ x, x ∈ R → x ∈ Resolver.activeDeps deps)
         ∧ length R ≠ length (Resolver.activeDeps deps)
         ∧ Resolver.detectCycles deps
             (filter (λ name, name ∉ (list_to_set R : gset key)) (Resolver.activeDeps deps))
           = Some cycles.
Proof.
  intros Hnd. rewrite resolve_unfold.
  destruct (Resolver.invalidDeps deps) eqn:Hinvalid; [|discriminate].
  destruct (resolve_kahn deps Hnd) as (D & R & -> & [_ Hnodes _ _ Hord]).
  destruct (decide (length R ≠ length (Resolver.activeDeps deps))) as [Hlen|]; [|discriminate].
  destruct (Resolver.detectCycles _ _) as [cs|] eqn:E; [|discriminate].
  intros [= <-]. split; [apply invalidDeps_nil_inv, Hinvalid|].
  exists R. split; [exact Hord|]. split; [|split; [exact Hlen | exact E]].
  intros x Hx. apply Hnodes. rewrite app_nil_r. exact Hx.
Qed.

End MoreChecks.

(** X1. Whatever the configuration, an order that [resolveBuildOrder]
    returns is a permutation of the non-skipped keys in which every entry of
    a member's [deps] occurs strictly before that member; a skipped key is
    never in it. *)
Theorem resolveBuildOrder_sound (config : BuildConfig)
    (deps : list (key * DependencyConfig)) (order : list key) :
  cfg_deps config = Some deps →
  NoDup (dep_keys deps) →
  Resolver.resolveBuildOrder (Some config) = Some (Resolver.Order order) →
  order ≡ₚ Resolver.activeDeps deps
  ∧ (∀ A B, A ∈ order → B ∈ dependencies_of deps A → precedes B A order)
  ∧ (∀ A, skip_is_true deps A = true → A ∉ order).
Proof.
  intros Hdeps Hnd. unfold Resolver.resolveBuildOrder. rewrite Hdeps. intros Hrun.
  pose proof (resolve_order_perm deps Hnd order Hrun) as Hperm.
  pose proof (resolve_order_ordered deps Hnd order Hrun) as Hord.
  split; [exact Hperm|]. split.
  - intros A B HA HB.
    destruct (list_elem_of_split _ _ HA) as (R1 & R2 & HR).
    pose proof (Hord R1 A R2 HR B HB) as HB1.
    destruct (list_elem_of_split _ _ HB1) as (l1 & l2 & Hl).
    exists l1, l2, R2. rewrite HR, Hl, <- app_assoc. reflexivity.
  - intros A Hskip HA. rewrite Hperm in HA. apply activeDeps_spec in HA. tauto.
Qed.

Lemma resolveBuildOrder_sound_witness :
  ["a"; "b"; "c"] ≡ₚ Resolver.activeDeps scenario_A_deps
  ∧ (∀ A B, A ∈ ["a"; "b"; "c"] → B ∈ dependencies_of scenario_A_deps A →
            precedes B A ["a"; "b"; "c"])
  ∧ (∀ A, skip_is_true scenario_A_deps A = true → A ∉ ["a"; "b"; "c"]).
Proof.
  apply (resolveBuildOrder_sound (mk_config scenario_A_deps) scenario_A_deps).
  - reflexivity.
  - apply (bool_decide_unpack _); vm_compute; exact I.
  - vm_compute. reflexivity.
Defined.





(** X4. When [resolveBuildOrder] throws the circular-dependency error, it
    reports at least one cycle exactly when the non-skipped dependencies do
    contain a cycle, and every cycle it reports passes through a node that
    lies on a cycle of non-skipped dependencies. *)
Theorem resolveBuildOrder_reports_cycle (config : BuildConfig)
    (deps : list (key * DependencyConfig)) (cycles : list (list key)) :
  cfg_deps config = Some deps →
  NoDup (dep_keys deps) →
  Resolver.resolveBuildOrder (Some config)
    = Some (Resolver.CircularDependencyError cycles) →
  (cycles ≠ [] ↔ ∃ x, tc (active_edge deps) x x)
  ∧ Forall (λ c, ∃ x, x ∈ c ∧ tc (active_edge deps) x x) cycles.
Proof.
  intros Hdeps Hnd. unfold Resolver.resolveBuildOrder. rewrite Hdeps. intros Hout.
  destruct (resolve_circular deps cycles Hnd Hout) as (Hskip & R & Hord & HR & _ & Hrun).
  assert (Hact : Forall (λ c, ∃ x, x ∈ c ∧ tc (active_edge deps) x x) cycles).
  { eapply detectCycles_active; [exact Hskip | | exact Hrun].
    intros x Hx. apply list_elem_of_filter in Hx. tauto. }
  split; [|exact Hact]. split.
  - destruct cycles as [|c cycles]; [congruence|]. intros _.
    apply Forall_cons in Hact as [(x & _ & Hx) _]. eauto.
  - intros [x Hx]. eapply detectCycles_complete; [exact Hrun | | exact Hx].
    apply list_elem_of_filter. split.
    + rewrite elem_of_list_to_set. intros HxR.
      exact (ordered_no_cycle deps R Hord x HxR Hx).
    + destruct (tc_cycle_step _ _ Hx) as (b & (HxN & _) & _). exact HxN.
Qed.

Lemma resolveBuildOrder_reports_cycle_witness :
  ([["a"; "b"; "a"]] ≠ [] ↔ ∃ x, tc (active_edge scenario_B_deps) x x)
  ∧ Forall (λ c, ∃ x, x ∈ c ∧ tc (active_edge scenario_B_deps) x x) [["a"; "b"; "a"]].
Proof.
  apply (resolveBuildOrder_reports_cycle (mk_config scenario_B_deps) scenario_B_deps).
  - reflexivity.
  - apply (bool_decide_unpack _); vm_compute; exact I.
  - vm_compute. reflexivity.
Defined.



(** ** Further properties of the validator *)

Section ValidatorMore.






End ValidatorMore.


(** X7. [validateBuildConfig] reports all the problems at once: when the
    configuration has a truthy [version] and a [deps] object, every error
    found for any entry is part of the message of the one error thrown. *)
Theorem validateBuildConfig_reports_all (config : BuildConfig)
    (deps : list (key * DependencyConfig)) (k : key) (d : DependencyConfig)
    (e : string) :
  truthy (cfg_version config) = true →
  cfg_deps config = Some deps →
  lookup_dep deps k = Some d →
  e ∈ Validator.dep_errors (dep_keys deps)
        (λ depRef, bool_decide (is_Some (lookup_dep deps depRef))) k d →
  ∃ message, Validator.validateBuildConfig (Some config) = inl message
             ∧ mentions message e.
Proof.
  intros Hv Hdeps Hk He.
  assert (Hin : e ∈ Validator.validation_errors deps).
  { unfold Validator.validation_errors. apply list_elem_of_bind. exists k.
    rewrite Hk. split; [exact He | exact (lookup_dep_key _ _ _ Hk)]. }
  unfold Validator.validateBuildConfig. rewrite Hv, Hdeps. cbn [negb].
  destruct (Validator.validation_errors deps) as [|e0 errs] eqn:E; [inversion Hin|].
  eexists. split; [reflexivity|].
  do 3 apply mentions_app_r. apply join_mentions, Hin.
Qed.

Lemma validateBuildConfig_reports_all_witness :
  ∃ message,
    Validator.validateBuildConfig (Some (mk_config scenario_A_deps)) = inl message
    ∧ mentions message
        ("deps[" +:+ dq +:+ "b" +:+ dq +:+ "] is missing required field: name").
Proof.
  apply (validateBuildConfig_reports_all (mk_config scenario_A_deps) scenario_A_deps
           "b" (mk_dep ["a"] false)).
  - reflexivity.
  - reflexivity.
  - vm_compute. reflexivity.
  - apply (bool_decide_unpack _); vm_compute; exact I.
Defined.




(** ** Further properties of the git operations *)

Section TrimFacts.

Lemma trim_start_head s :
  trim_start s = "" ∨ ∃ c rest, trim_start s = String c rest ∧ is_space c = false.
Proof.
  induction s as [|c s IH]; simpl; [tauto|].
  destruct (is_space c) eqn:E; [exact IH|]. right. eauto.
Qed.

Lemma trim_start_fixed c rest :
  is_space c = false → trim_start (String c rest) = String c rest.
Proof. intros E. simpl. rewrite E. reflexivity. Qed.

Lemma trim_end_cons c rest :
  is_space c = false → ∃ rest', trim_end (String c rest) = String c rest'.
Proof.
  intros E. simpl. destruct (trim_end rest); [rewrite E|]; eauto.
Qed.

Lemma trim_end_idem s : trim_end (trim_end s) = trim_end s.
Proof.
  induction s as [|c s IH]; [reflexivity|]. simpl.
  destruct (trim_end s) as [|c' s'] eqn:E.
  - destruct (is_space c) eqn:Ec; [reflexivity|]. simpl. rewrite Ec. reflexivity.
  - change (trim_end (String c (String c' s'))) with
      (match trim_end (String c' s') with
       | EmptyString => if is_space c then EmptyString else String c EmptyString
       | rest' => String c rest'
       end).
    rewrite IH. reflexivity.
Qed.

(** [trim] leaves a trimmed string as it is. *)
Lemma trim_idem s : trim (trim s) = trim s.
Proof.
  unfold trim. destruct (trim_start_head s) as [->|(c & rest & -> & Hc)]; [reflexivity|].
  destruct (trim_end_cons c rest Hc) as [rest' E].
  rewrite E, (trim_start_fixed c rest' Hc), <- E. apply trim_end_idem.
Qed.

End TrimFacts.

Section RefsFacts.

Lemma enqueue_fold (l : list string) (refs : list string) (seen : gset string) :
  seen = list_to_set refs → NoDup refs →
  (fold_left Git.enqueue l (refs, seen)).2
    = list_to_set (fold_left Git.enqueue l (refs, seen)).1
  ∧ NoDup (fold_left Git.enqueue l (refs, seen)).1
  ∧ (∃ more, (fold_left Git.enqueue l (refs, seen)).1 = refs ++ more)
  ∧ ∀ x, x ∈ (fold_left Git.enqueue l (refs, seen)).1
         ↔ x ∈ refs ∨ (x ≠ "" ∧ ∃ v, v ∈ l ∧ x = trim v).
Proof.
  revert refs seen. induction l as [|v l IH]; intros refs seen Hseen Hnd.
  - cbn [fold_left fst snd]. split; [exact Hseen|]. split; [exact Hnd|].
    split; [exists []; rewrite app_nil_r; reflexivity|].
    intros x. split; [tauto|]. intros [Hx|(_ & v & Hv & _)]; [exact Hx | inversion Hv].
  - cbn [fold_left].
    assert (He : Git.enqueue (refs, seen) v
                 = if decide (trim v = "" ∨ trim v ∈ seen) then (refs, seen)
                   else (refs ++ [trim v], {[trim v]} ∪ seen)) by reflexivity.
    rewrite He. clear He.
    destruct (decide (trim v = "" ∨ trim v ∈ seen)) as [Hskip|Hnew].
    + destruct (IH refs seen Hseen Hnd) as (H1 & H2 & H3 & H4).
      split; [exact H1|]. split; [exact H2|]. split; [exact H3|].
      intros x. rewrite H4. split.
      * intros [Hx|(Hne & w & Hw & ->)]; [tauto|]. right. split; [exact Hne|].
        exists w. split; [apply list_elem_of_further, Hw | reflexivity].
      * intros [Hx|(Hne & w & Hw & ->)]; [tauto|].
        apply elem_of_cons in Hw as [->|Hw]; [|right; eauto].
        left. destruct Hskip as [Hs|Hs]; [contradiction|].
        rewrite Hseen, elem_of_list_to_set in Hs. exact Hs.
    + destruct (IH (refs ++ [trim v]) ({[trim v]} ∪ seen)) as (H1 & H2 & [more H3] & H4).
      * rewrite Hseen, list_to_set_app_L. cbn [list_to_set].
        rewrite union_empty_r_L. apply (comm_L (∪)).
      * apply NoDup_app. split; [exact Hnd|]. split; [|apply NoDup_singleton].
        intros x Hx Hx'. apply list_elem_of_singleton in Hx' as ->.
        apply Hnew. right. rewrite Hseen, elem_of_list_to_set. exact Hx.
      * split; [exact H1|]. split; [exact H2|].
        split; [exists (trim v :: more); rewrite H3, <- app_assoc; reflexivity|].
        intros x. rewrite H4, elem_of_app, list_elem_of_singleton. split.
        -- intros [[Hx| ->]|(Hne & w & Hw & ->)]; [tauto | |].
           ++ right. split; [tauto|]. exists v. split; [apply list_elem_of_here | reflexivity].
           ++ right. split; [exact Hne|]. exists w.
              split; [apply list_elem_of_further, Hw | reflexivity].
        -- intros [Hx|(Hne & w & Hw & ->)]; [tauto|].
           apply elem_of_cons in Hw as [->|Hw]; [tauto|]. right. eauto.
Qed.

Lemma collectUniqueRefs_elem primary fallback r :
  r ∈ Git.collectUniqueRefs primary fallback
  ↔ r ≠ "" ∧ ∃ v, v ∈ from_option (λ p, [p]) [] primary ++ fallback ∧ r = trim v.
Proof.
  unfold Git.collectUniqueRefs.
  destruct (enqueue_fold (from_option (λ p, [p]) [] primary ++ fallback) [] ∅)
    as (_ & _ & _ & H); [reflexivity | constructor |].
  rewrite H. split; [|tauto]. intros [Hx|Hx]; [inversion Hx | exact Hx].
Qed.

(** The candidates are trimmed and not empty, so that the loop of
    [checkoutGitRef] takes each of them as it is. *)
Lemma collectUniqueRefs_trimmed primary fallback :
  filter (λ r, r ≠ "") (map trim (Git.collectUniqueRefs primary fallback))
  = Git.collectUniqueRefs primary fallback.
Proof.
  assert (H : ∀ l : list string, (∀ r, r ∈ l → r ≠ "" ∧ trim r = r) →
                                 filter (λ r, r ≠ "") (map trim l) = l).
  { induction l as [|a l IH]; intros Hl; [reflexivity|].
    destruct (Hl a (list_elem_of_here _ _)) as [Ha Ht].
    cbn [map]. rewrite Ht, filter_cons_True by exact Ha. f_equal.
    apply IH. intros r Hr. apply Hl, list_elem_of_further, Hr. }
  apply H. intros r Hr. apply collectUniqueRefs_elem in Hr as (Hne & v & _ & ->).
  split; [exact Hne | apply trim_idem].
Qed.

End RefsFacts.

(** X10. The candidates that [collectUniqueRefs] hands to [checkoutGitRef]
    are the trimmed, non-empty values among the primary and the fallback
    references, each of them once; a usable primary reference is the first
    candidate. *)
Theorem collectUniqueRefs_spec (primary : option string) (fallback : list string) :
  NoDup (Git.collectUniqueRefs primary fallback)
  ∧ (∀ r, r ∈ Git.collectUniqueRefs primary fallback
          ↔ r ≠ "" ∧ ∃ v, v ∈ from_option (λ p, [p]) [] primary ++ fallback ∧ r = trim v)
  ∧ (∀ r, r ∈ Git.collectUniqueRefs primary fallback → trim r = r)
  ∧ (∀ p, primary = Some p → trim p ≠ "" →
          ∃ rest, Git.collectUniqueRefs primary fallback = trim p :: rest).
Proof.
  split; [|split; [|split]].
  - unfold Git.collectUniqueRefs.
    destruct (enqueue_fold (from_option (λ p, [p]) [] primary ++ fallback) [] ∅)
      as (_ & H & _); [reflexivity | constructor | exact H].
  - apply collectUniqueRefs_elem.
  - intros r Hr. apply collectUniqueRefs_elem in Hr as (_ & v & _ & ->). apply trim_idem.
  - intros p -> Hp. unfold Git.collectUniqueRefs. cbn [from_option app fold_left].
    assert (He : ∀ st v, Git.enqueue st v
                 = if decide (trim v = "" ∨ trim v ∈ st.2) then st
                   else (st.1 ++ [trim v], {[trim v]} ∪ st.2)) by reflexivity.
    rewrite He. clear He. cbn [fst snd].
    rewrite decide_False.
    + destruct (enqueue_fold fallback ([] ++ [trim p]) ({[trim p]} ∪ ∅))
        as (_ & _ & [more H] & _).
      * cbn [app list_to_set]. reflexivity.
      * apply NoDup_singleton.
      * rewrite H. eauto.
    + intros [H|H]; [contradiction | apply not_elem_of_empty in H; contradiction].
Qed.

Lemma fetch_or_checkout_in_repository repoPath c :
  fetch_or_checkout repoPath c → in_repository repoPath c.
Proof. intros (verb & rest & -> & _). eexists. reflexivity. Qed.

Section CheckoutMore.

Context {W : Type}.
Variable runner : list string → W → Git.exec_result * W.

Local Abbreviation pair_of := (λ e, (Git.err_ref e, Git.err_type e)).

(** What a run of the loop over the candidates gives: it never throws; it
    either stops at a first successful checkout, which is the last command
    run, or records two errors for every candidate. *)
Lemma checkout_candidates_spec (repoPath : string) (candidates : list string)
    (errors : list Git.CheckoutError) (st : Git.state) :
  ∃ res st' delta,
    Git.checkout_candidates runner repoPath candidates errors st = (inr res, st')
    ∧ Git.commands st' = Git.commands st ++ delta
    ∧ Forall (fetch_or_checkout repoPath) delta
    ∧ Git.checkout_skipped res = false
    ∧ ((Git.checkout_ok res = true ∧ Git.checkout_errors res = None
        ∧ ∃ ref pre c,
            ref ∈ filter (λ r, r ≠ "") (map trim candidates)
            ∧ Git.checkout_ref res = Some ref ∧ delta = pre ++ [c]
            ∧ ((Git.checkout_type res = Some "tag" ∧ tag_checkout repoPath ref c)
               ∨ (Git.checkout_type res = Some "branch" ∧ branch_checkout repoPath ref c)))
       ∨ (Git.checkout_ok res = false
          ∧ ∃ errs, Git.checkout_errors res = Some (errors ++ errs)
                    ∧ map pair_of errs
                      = attempts_of (filter (λ r, r ≠ "") (map trim candidates)))).
Proof.
  revert errors st. induction candidates as [|ref candidates IH]; intros errors st.
  - cbn [Git.checkout_candidates]. unfold Git.ret.
    eexists _, _, []. split; [reflexivity|]. split; [rewrite app_nil_r; reflexivity|].
    split; [constructor|]. split; [reflexivity|]. right. split; [reflexivity|].
    exists []. rewrite app_nil_r. split; reflexivity.
  - cbn [Git.checkout_candidates map].
    destruct (String.eqb_spec (trim ref) "") as [Hblank|Hne].
    { rewrite filter_cons_False by (intros H; exact (H Hblank)). apply IH. }
    rewrite filter_cons_True by exact Hne.
    unfold Git.attemptCheckoutVariants, Git.attempt_variants, Git.bind, Git.git, Git.ret.
    cbn [Git.world Git.commands fst snd].
    unfold Git.fetch_tag, Git.fetch_branch, Git.checkout_plain. cbn [app].
    repeat match goal with
           | |- context [runner ?args ?w] =>
               let r := fresh "r" in let w' := fresh "w" in let E := fresh "E" in
               destruct (runner args w) as [r w'] eqn:E;
               let b := fresh "b" in
               destruct r as [b ? ?]; destruct b;
               cbn [Git.ok Git.world Git.commands fst snd]
           end;
      first
        [ (* the loop goes on with the next candidate *)
          match goal with
          | |- context [Git.checkout_candidates _ _ _ ?e ?s] =>
              destruct (IH e s) as (res & st' & delta & Hrun & Hlog & Hrepo & Hsk & Hcase)
          end;
          exists res, st'; eexists; split; [exact Hrun|];
          split; [rewrite Hlog; cbn [Git.commands]; rewrite <- ?app_assoc; cbn [app];
                  reflexivity|];
          split; [repeat (apply Forall_cons; split; [do 2 eexists; split; [reflexivity|];
                    first [left; reflexivity | right; reflexivity]|]); exact Hrepo|];
          split; [exact Hsk|];
          destruct Hcase as [(Hok & Herr & ref' & pre & c & Hin & Href & Hd & Hty)
                            |(Hok & errs & Herr & Hmap)];
          [ left; split; [exact Hok|]; split; [exact Herr|];
            exists ref'; eexists; exists c;
            split; [apply list_elem_of_further, Hin|]; split; [exact Href|];
            split; [rewrite Hd; rewrite ?app_comm_cons; reflexivity | exact Hty]
          | right; split; [exact Hok|];
            eexists (_ :: _ :: errs); split;
            [rewrite Herr, <- !app_assoc; reflexivity
            | cbn [map Git.err_ref Git.err_type]; rewrite Hmap; reflexivity] ]
        | (* a checkout succeeded *)
          eexists _, _, _; split; [reflexivity|];
          split; [cbn [Git.commands]; rewrite <- ?app_assoc; cbn [app]; reflexivity|];
          split; [repeat (apply Forall_cons; split; [do 2 eexists; split; [reflexivity|];
                    first [left; reflexivity | right; reflexivity]|]); constructor|];
          split; [reflexivity|];
          left; split; [reflexivity|]; split; [reflexivity|];
          exists (trim ref); eexists; eexists;
          split; [apply list_elem_of_here|]; split; [reflexivity|];
          split;
          [ lazymatch goal with
            | |- [?a; ?b] = _ => exact (eq_refl ([a] ++ [b]))
            | |- [?a; ?b; ?c] = _ => exact (eq_refl ([a; b] ++ [c]))
            | |- [?a; ?b; ?c; ?d] = _ => exact (eq_refl ([a; b; c] ++ [d]))
            | |- [?a; ?b; ?c; ?d; ?e] = _ => exact (eq_refl ([a; b; c; d] ++ [e]))
            end
          | first [ left; split; [reflexivity|]; first [left; reflexivity | right; reflexivity]
                  | right; split; reflexivity ] ] ].
Qed.

(** [checkoutGitRef] as a whole. *)
Lemma checkoutGitRef_spec (repoPath : string) (primaryRef : option string)
    (fallbackRefs : list string) (st : Git.state) :
  repoPath ≠ "" →
  ∃ res st' delta,
    Git.checkoutGitRef runner repoPath primaryRef fallbackRefs st = (inr res, st')
    ∧ Git.commands st' = Git.commands st ++ delta
    ∧ Forall (fetch_or_checkout repoPath) delta
    ∧ ((Git.collectUniqueRefs primaryRef fallbackRefs = []
        ∧ Git.checkout_ok res = true ∧ Git.checkout_skipped res = true ∧ st' = st)
       ∨ (Git.collectUniqueRefs primaryRef fallbackRefs ≠ []
          ∧ Git.checkout_skipped res = false
          ∧ ((Git.checkout_ok res = true ∧ Git.checkout_errors res = None
              ∧ ∃ ref pre c,
                  ref ∈ Git.collectUniqueRefs primaryRef fallbackRefs
                  ∧ Git.checkout_ref res = Some ref ∧ delta = pre ++ [c]
                  ∧ ((Git.checkout_type res = Some "tag" ∧ tag_checkout repoPath ref c)
                     ∨ (Git.checkout_type res = Some "branch"
                        ∧ branch_checkout repoPath ref c)))
             ∨ (Git.checkout_ok res = false
                ∧ ∃ errs, Git.checkout_errors res = Some errs
                          ∧ map pair_of errs
                            = attempts_of (Git.collectUniqueRefs primaryRef fallbackRefs))))).
Proof.
  intros Hrepo. unfold Git.checkoutGitRef. rewrite (eqb_nonempty repoPath Hrepo).
  pose proof (collectUniqueRefs_trimmed primaryRef fallbackRefs) as Htrim.
  destruct (Git.collectUniqueRefs primaryRef fallbackRefs) as [|r refs] eqn:E.
  - eexists _, st, []. split; [reflexivity|]. split; [rewrite app_nil_r; reflexivity|].
    split; [constructor|]. left. repeat split; reflexivity.
  - destruct (checkout_candidates_spec repoPath (r :: refs) [] st)
      as (res & st' & delta & Hrun & Hlog & Hin & Hsk & Hcase).
    rewrite Htrim in Hcase.
    exists res, st', delta. split; [exact Hrun|]. split; [exact Hlog|].
    split; [exact Hin|]. right. split; [discriminate|]. split; [exact Hsk|].
    exact Hcase.
Qed.

End CheckoutMore.

(** X11. Without a usable reference (the primary and every fallback
    reference are absent or blank) [checkoutGitRef] returns [ok] with
    [skipped: true] and runs no command; the world is left as it is. *)
Theorem checkoutGitRef_no_reference {W : Type}
    (runner : list string → W → Git.exec_result * W) (repoPath : string)
    (primaryRef : option string) (fallbackRefs : list string) (st : Git.state) :
  repoPath ≠ "" →
  (∀ v, v ∈ from_option (λ p, [p]) [] primaryRef ++ fallbackRefs → trim v = "") →
  Git.checkoutGitRef runner repoPath primaryRef fallbackRefs st
  = (inr {| Git.checkout_ok := true; Git.checkout_skipped := true;
            Git.checkout_reason := Some "no reference provided";
            Git.checkout_ref := None; Git.checkout_type := None;
            Git.checkout_errors := None |}, st).
Proof.
  intros Hrepo Hblank. unfold Git.checkoutGitRef. rewrite (eqb_nonempty repoPath Hrepo).
  destruct (Git.collectUniqueRefs primaryRef fallbackRefs) as [|r refs] eqn:E; [reflexivity|].
  exfalso.
  assert (Hr : r ∈ Git.collectUniqueRefs primaryRef fallbackRefs)
    by (rewrite E; apply list_elem_of_here).
  apply collectUniqueRefs_elem in Hr as (Hne & v & Hv & ->). exact (Hne (Hblank v Hv)).
Qed.

Lemma checkoutGitRef_no_reference_witness :
  Git.checkoutGitRef failing_runner "/repo" (Some "  ") [""; " "] ex_start
  = (inr {| Git.checkout_ok := true; Git.checkout_skipped := true;
            Git.checkout_reason := Some "no reference provided";
            Git.checkout_ref := None; Git.checkout_type := None;
            Git.checkout_errors := None |}, ex_start).
Proof.
  apply (checkoutGitRef_no_reference failing_runner "/repo" (Some "  ") [""; " "] ex_start).
  - discriminate.
  - intros v Hv. cbn [from_option app] in Hv.
    repeat (apply elem_of_cons in Hv as [->|Hv]; [vm_compute; reflexivity|]).
    inversion Hv.
Defined.



(** X13. When [checkoutGitRef] fails, its [errors] hold exactly two
    entries for every candidate, in the order of the candidates: the
    failure of the tag attempt followed by the failure of the branch
    attempt. *)
Theorem checkoutGitRef_failure {W : Type}
    (runner : list string → W → Git.exec_result * W) (repoPath : string)
    (primaryRef : option string) (fallbackRefs : list string)
    (st st' : Git.state) (res : Git.CheckoutResult) :
  repoPath ≠ "" →
  Git.checkoutGitRef runner repoPath primaryRef fallbackRefs st = (inr res, st') →
  Git.checkout_ok res = false →
  ∃ errs,
    Git.checkout_errors res = Some errs
    ∧ map (λ e, (Git.err_ref e, Git.err_type e)) errs
      = attempts_of (Git.collectUniqueRefs primaryRef fallbackRefs).
Proof.
  intros Hrepo Hrun Hok.
  destruct (checkoutGitRef_spec runner repoPath primaryRef fallbackRefs st Hrepo)
    as (res' & st'' & delta & Hrun' & Hlog & Hin & Hcase).
  rewrite Hrun in Hrun'. injection Hrun' as <- <-.
  destruct Hcase as [(_ & Hok' & _)|(_ & _ & Hcase)]; [congruence|].
  destruct Hcase as [(Hok' & _)|(_ & Herrs)]; [congruence | exact Herrs].
Qed.

Lemma checkoutGitRef_failure_witness :
  ∃ errs,
    Git.checkout_errors ex_checkout_failure = Some errs
    ∧ map (λ e, (Git.err_ref e, Git.err_type e)) errs
      = attempts_of (Git.collectUniqueRefs (Some "1.2.3") ["v1.2.3"]).
Proof.
  apply (checkoutGitRef_failure failing_runner "/repo" (Some "1.2.3") ["v1.2.3"]
           ex_start ex_start_failed ex_checkout_failure).
  - discriminate.
  - vm_compute. reflexivity.
  - reflexivity.
Defined.

(** ** Directories and repository paths *)

(** X14. [ensureDirectory] on a non-empty path returns that path with the
    directory in place and runs no command; it leaves the world as it is
    when the directory exists already, so that ensuring a directory a
    second time changes nothing. ([mkdirSync] creates the path it is
    given.) *)
Theorem ensureDirectory_idempotent {W : Type} (existsSync : string → W → bool)
    (mkdirSync : string → W → W) (p : string) (st : Git.state) :
  p ≠ "" →
  (∀ w, existsSync p (mkdirSync p w) = true) →
  ∃ st',
    Git.ensureDirectory existsSync mkdirSync p st = (inr p, st')
    ∧ existsSync p (Git.world st') = true
    ∧ Git.commands st' = Git.commands st
    ∧ (existsSync p (Git.world st) = true → st' = st)
    ∧ Git.ensureDirectory existsSync mkdirSync p st' = (inr p, st').
Proof.
  intros Hp Hmk. unfold Git.ensureDirectory. rewrite (eqb_nonempty p Hp).
  unfold Git.bind, Git.exists_, Git.update_world, Git.ret.
  destruct (existsSync p (Git.world st)) eqn:E.
  - exists st. rewrite E. repeat split; first [reflexivity | exact E].
  - eexists. split; [reflexivity|]. cbn [Git.world Git.commands].
    rewrite Hmk. repeat split; first [reflexivity | discriminate].
Qed.

Lemma ensureDirectory_idempotent_witness :
  ∃ st',
    Git.ensureDirectory ex_exists ex_mkdir "/build/artifacts" ex_clone_state = (inr "/build/artifacts", st')
    ∧ ex_exists "/build/artifacts" (Git.world st') = true
    ∧ Git.commands st' = Git.commands ex_clone_state
    ∧ (ex_exists "/build/artifacts" (Git.world ex_clone_state) = true → st' = ex_clone_state)
    ∧ Git.ensureDirectory ex_exists ex_mkdir "/build/artifacts" st' = (inr "/build/artifacts", st').
Proof.
  apply (ensureDirectory_idempotent ex_exists ex_mkdir "/build/artifacts" ex_clone_state).
  - discriminate.
  - intros w. unfold ex_exists, ex_mkdir. apply bool_decide_eq_true, list_elem_of_here.
Defined.

Section SanitizeFacts.

Lemma sanitize_safe s c : c ∈ chars (Git.sanitize s) → Git.is_safe_char c = true.
Proof.
  induction s as [|a s IH]; simpl; [inversion 1|].
  intros H. apply elem_of_cons in H as [->|H]; [|exact (IH H)].
  destruct (Git.is_safe_char a) eqn:E; [exact E | reflexivity].
Qed.

Lemma sanitize_fixed s :
  (∀ c, c ∈ chars s → Git.is_safe_char c = true) → Git.sanitize s = s.
Proof.
  induction s as [|a s IH]; simpl; intros H; [reflexivity|].
  rewrite (H a) by apply list_elem_of_here. f_equal.
  apply IH. intros c Hc. apply H, list_elem_of_further, Hc.
Qed.

Lemma sanitize_length s : String.length (Git.sanitize s) = String.length s.
Proof. induction s as [|a s IH]; simpl; [reflexivity | rewrite IH; reflexivity]. Qed.

End SanitizeFacts.

(** X15. The directory of a repository is [gitRoot] resolved with a name
    that has as many characters as the dependency name and only letters,
    digits, [.], [_] and [-] (so no path separator); a name made of such
    characters is kept as it is, and sanitising twice gives the same
    path. *)
Theorem getRepositoryPath_sanitized (resolve : string → string → string)
    (gitRoot depName : string) :
  ∃ name,
    getRepositoryPath resolve gitRoot depName = resolve gitRoot name
    ∧ String.length name = String.length depName
    ∧ (∀ c, c ∈ chars name → Git.is_safe_char c = true)
    ∧ ((∀ c, c ∈ chars depName → Git.is_safe_char c = true) → name = depName)
    ∧ getRepositoryPath resolve gitRoot name = getRepositoryPath resolve gitRoot depName.
Proof.
  exists (Git.sanitize depName). unfold getRepositoryPath.
  split; [reflexivity|]. split; [apply sanitize_length|].
  split; [apply sanitize_safe|]. split; [apply sanitize_fixed|].
  f_equal. apply sanitize_fixed, sanitize_safe.
Qed.

(** ** Repository preparation *)

Section PrepareMore.

Context {W : Type}.
Variable existsSync : string → W → bool.
Variable mkdirSync : string → W → W.
Variable rmSync : string → W → W.
Variable runner : list string → W → Git.exec_result * W.
Variable dirname : string → string.
Variable resolve : string → string → string.

Lemma bind_run {A B} (m : @Git.M W A) (f : A → Git.M B) st r st' :
  Git.bind m f st = (r, st') →
  (∃ e, m st = (inl e, st') ∧ r = inl e)
  ∨ (∃ a st1, m st = (inr a, st1) ∧ f a st1 = (r, st')).
Proof.
  unfold Git.bind. destruct (m st) as [[e|a] st1]; intros H.
  - left. injection H as <- <-. eauto.
  - right. eauto.
Qed.

Lemma ensureDirectory_run p st :
  p ≠ "" →
  Git.ensureDirectory existsSync mkdirSync p st
  = (inr p, {| Git.world := ensured existsSync mkdirSync p (Git.world st);
               Git.commands := Git.commands st |}).
Proof.
  intros Hp. unfold Git.ensureDirectory, ensured. rewrite (eqb_nonempty p Hp).
  unfold Git.bind, Git.exists_, Git.update_world, Git.ret.
  destruct (existsSync p (Git.world st)); [destruct st|]; reflexivity.
Qed.

(** The three ways in which [cloneGitRepository] ends for a repository
    URL and a destination: it throws because the parent directory has no
    name, it finds the destination, or it runs [git clone]. *)
Lemma cloneGitRepository_run url dest shallow st :
  url ≠ "" → dest ≠ "" →
  let options := {| Git.repoUrl := Some url; Git.destination := Some dest;
                    Git.shallow := Some shallow; Git.extraArgs := None |} in
  let w := ensured existsSync mkdirSync (dirname dest) (Git.world st) in
  let args := clone_args shallow url dest [] in
  Git.cloneGitRepository existsSync mkdirSync runner dirname options st
  = if String.eqb (dirname dest) "" then
      (inl "ensureDirectory requires a path argument", st)
    else if existsSync dest w then
      (inr {| Git.clone_ok := true; Git.clone_skipped := true;
              Git.clone_reason := Some "already cloned"; Git.clone_path := dest;
              Git.clone_stdout := ""; Git.clone_stderr := "" |},
       {| Git.world := w; Git.commands := Git.commands st |})
    else
      (inr {| Git.clone_ok := Git.ok (runner args w).1;
              Git.clone_skipped := false; Git.clone_reason := None;
              Git.clone_path := dest;
              Git.clone_stdout := Git.stdout (runner args w).1;
              Git.clone_stderr := Git.stderr (runner args w).1 |},
       {| Git.world := (runner args w).2; Git.commands := Git.commands st ++ [args] |}).
Proof.
  intros Hurl Hdest options w args. subst options. unfold Git.cloneGitRepository.
  cbn [Git.repoUrl Git.destination Git.shallow Git.extraArgs].
  rewrite (truthy_Some url Hurl), (truthy_Some dest Hdest). cbn [negb default].
  unfold id. unfold Git.bind at 1.
  destruct (String.eqb_spec (dirname dest) "") as [He|Hne].
  - unfold Git.ensureDirectory. rewrite He. reflexivity.
  - rewrite (ensureDirectory_run _ _ Hne).
    unfold Git.bind, Git.exists_, Git.git, Git.ret. cbn [Git.world Git.commands].
    fold w. destruct (existsSync dest w); [reflexivity|].
    subst args. unfold clone_args.
    destruct shallow; cbn [take drop app Git.world Git.commands];
      destruct (runner _ w) as [res w']; reflexivity.
Qed.

(** [checkout_step] runs nothing but fetches and checkouts inside the
    repository. *)
Lemma checkout_step_run config depName repoRoot st r st' :
  Git.checkout_step runner config depName repoRoot st = (r, st') →
  ∃ delta, Git.commands st' = Git.commands st ++ delta
           ∧ Forall (fetch_or_checkout repoRoot) delta.
Proof.
  unfold Git.checkout_step.
  destruct (match dep_defaultVersion config, dep_branch config with
            | Some version, _ => Some (version, false)
            | None, Some branch => Some (branch, true)
            | None, None => None
            end) as [[checkoutRef isBranch]|].
  2:{ intros [= <- <-]. exists []. rewrite app_nil_r. split; [reflexivity | constructor]. }
  destruct (String.eqb checkoutRef "").
  { intros [= <- <-]. exists []. rewrite app_nil_r. split; [reflexivity | constructor]. }
  intros Hrun. apply bind_run in Hrun as [(e & Hrun & ->)|(res & st1 & Hrun & Hrest)].
  - destruct (String.eqb_spec repoRoot "") as [He|Hne].
    + unfold Git.checkoutGitRef in Hrun. rewrite He in Hrun. cbn in Hrun.
      injection Hrun as _ <-. exists []. rewrite app_nil_r. split; [reflexivity | constructor].
    + destruct (checkoutGitRef_spec runner repoRoot (Some (trim checkoutRef))
                  (if negb isBranch && negb (String.eqb (trim checkoutRef) "")
                   then [if Git.startsWith_v (trim checkoutRef)
                         then Git.slice_1 (trim checkoutRef)
                         else "v" +:+ trim checkoutRef]
                   else []) st Hne) as (res & st1 & delta & Hrun' & _).
      rewrite Hrun in Hrun'. discriminate.
  - destruct (String.eqb_spec repoRoot "") as [He|Hne].
    + unfold Git.checkoutGitRef in Hrun. rewrite He in Hrun. discriminate.
    + destruct (checkoutGitRef_spec runner repoRoot (Some (trim checkoutRef))
                  (if negb isBranch && negb (String.eqb (trim checkoutRef) "")
                   then [if Git.startsWith_v (trim checkoutRef)
                         then Git.slice_1 (trim checkoutRef)
                         else "v" +:+ trim checkoutRef]
                   else []) st Hne) as (res' & st1' & delta & Hrun' & Hlog & Hin & _).
      rewrite Hrun in Hrun'. injection Hrun' as <- <-.
      exists delta. split; [|exact Hin].
      destruct (Git.checkout_ok res); injection Hrest as _ <-; exact Hlog.
Qed.

End PrepareMore.

Section PrepareRun.

Context {W : Type}.
Variable existsSync : string → W → bool.
Variable mkdirSync : string → W → W.
Variable rmSync : string → W → W.
Variable runner : list string → W → Git.exec_result * W.
Variable dirname : string → string.
Variable resolve : string → string → string.

Local Abbreviation prepareRepository :=
  (Git.prepareRepository existsSync mkdirSync rmSync runner dirname resolve).
Local Abbreviation repoRoot_of options :=
  (getRepositoryPath resolve (Git.prep_gitRoot options) (Git.prep_depName options)).
Local Abbreviation world_of options :=
  (clone_world existsSync mkdirSync rmSync dirname resolve options).

Lemma checkout_log_unfinished repoPath initSubmodules (completed : Prop) delta :
  Forall (fetch_or_checkout repoPath) delta → ¬ completed →
  checkout_log repoPath initSubmodules completed delta.
Proof.
  intros H Hno. split; [|split; [intros _; exact H | intros Hc; contradiction]].
  eapply Forall_impl; [exact H|]. apply fetch_or_checkout_in_repository.
Qed.

Lemma checkout_log_plain repoPath (completed : Prop) delta :
  Forall (fetch_or_checkout repoPath) delta →
  checkout_log repoPath false completed delta.
Proof.
  intros H. split; [|split; [intros _; exact H | discriminate]].
  eapply Forall_impl; [exact H|]. apply fetch_or_checkout_in_repository.
Qed.

Lemma checkout_log_submodule repoPath (completed : Prop) pre :
  Forall (fetch_or_checkout repoPath) pre →
  checkout_log repoPath true completed (pre ++ [submodule_update repoPath]).
Proof.
  intros H. split; [|split; [discriminate | intros _ _; eauto]].
  apply Forall_app. split.
  - eapply Forall_impl; [exact H|]. apply fetch_or_checkout_in_repository.
  - apply Forall_singleton. eexists. reflexivity.
Qed.

(** The end of [prepareRepository], after the clone. *)
Lemma after_clone_run (config : DependencyConfig) (depName repoRoot : string)
    (initSubmodules : bool) (skipped : bool)
    (st : @Git.state W) r st' :
  Git.bind (Git.checkout_step runner config depName repoRoot)
    (λ _, Git.bind
            (if initSubmodules then
               Git.bind (Git.updateGitSubmodules runner repoRoot)
                 (λ submoduleResult,
                    if Git.ok submoduleResult then Git.ret ()
                    else Git.throw
                           ("Failed to initialize " +:+ depName +:+ " submodules:" +:+ nl
                            +:+ (if negb (String.eqb (Git.stderr submoduleResult) "")
                                 then Git.stderr submoduleResult
                                 else if negb (String.eqb (Git.stdout submoduleResult) "")
                                      then Git.stdout submoduleResult
                                      else "unknown error")))
             else Git.ret ())
            (λ _, Git.ret {| Git.repo_ok := true; Git.repo_repoRoot := repoRoot;
                             Git.repo_version := dep_defaultVersion config;
                             Git.repo_branch := dep_branch config;
                             Git.repo_skipped := skipped |})) st
  = (r, st') →
  (∃ delta, Git.commands st' = Git.commands st ++ delta
            ∧ checkout_log repoRoot initSubmodules (∃ res, r = inr res) delta)
  ∧ ∀ res, r = inr res →
           res = {| Git.repo_ok := true; Git.repo_repoRoot := repoRoot;
                    Git.repo_version := dep_defaultVersion config;
                    Git.repo_branch := dep_branch config;
                    Git.repo_skipped := skipped |}.
Proof.
  intros Hrun.
  apply bind_run in Hrun as [(e & Hrun & ->)|([] & st1 & Hrun & Hrest)].
  { apply checkout_step_run in Hrun as (d1 & Hlog1 & Hin1). split; [|discriminate].
    exists d1. split; [exact Hlog1|].
    apply checkout_log_unfinished; [exact Hin1 | intros [res [=]]]. }
  apply checkout_step_run in Hrun as (d1 & Hlog1 & Hin1).
  apply bind_run in Hrest as [(e & Hrest & ->)|([] & st2 & Hrest & Hret)].
  - split; [|discriminate]. destruct initSubmodules; [|discriminate].
    apply bind_run in Hrest as [(e' & Hsub & _)|(sub & st2 & Hsub & Hk)].
    + unfold Git.updateGitSubmodules in Hsub.
      destruct (String.eqb repoRoot ""); [|unfold Git.git in Hsub;
        destruct (runner _ _); discriminate].
      injection Hsub as _ <-. exists d1. split; [exact Hlog1|].
      apply checkout_log_unfinished; [exact Hin1 | intros [res [=]]].
    + unfold Git.updateGitSubmodules in Hsub.
      destruct (String.eqb repoRoot ""); [discriminate|].
      unfold Git.git in Hsub. destruct (runner _ _) as [x w']. injection Hsub as <- <-.
      destruct (Git.ok x); injection Hk as _ <-;
        (eexists; split; [cbn [Git.commands]; rewrite Hlog1, <- app_assoc; reflexivity|];
         apply checkout_log_submodule, Hin1).
  - injection Hret as <- <-. split; [|intros res [= <-]; reflexivity].
    destruct initSubmodules.
    2:{ injection Hrest as <-. exists d1. split; [exact Hlog1|].
        apply checkout_log_plain, Hin1. }
    apply bind_run in Hrest as [(e' & _ & [=])|(sub & st3 & Hsub & Hk)].
    unfold Git.updateGitSubmodules in Hsub.
    destruct (String.eqb repoRoot ""); [discriminate|].
    unfold Git.git in Hsub. destruct (runner _ _) as [x w']. injection Hsub as <- <-.
    destruct (Git.ok x); [|discriminate]. injection Hk as <-.
    eexists; split; [cbn [Git.commands]; rewrite Hlog1, <- app_assoc; reflexivity|].
    apply checkout_log_submodule, Hin1.
Qed.

(** [prepareRepository] on valid inputs: whether the repository is cloned
    is decided in [clone_world]. *)
Lemma prepareRepository_run options config url st r st' :
  prepare_inputs options config url →
  prepareRepository options st = (r, st') →
  let depName := Git.prep_depName options in
  let root := repoRoot_of options in
  let w := world_of options (Git.world st) in
  let args := clone_args (default true (Git.prep_shallow options)) url root [] in
  let result skipped :=
    {| Git.repo_ok := true; Git.repo_repoRoot := root;
       Git.repo_version := dep_defaultVersion config;
       Git.repo_branch := dep_branch config; Git.repo_skipped := skipped |} in
  ((root = "" ∨ dirname root = "") ∧ Git.commands st' = Git.commands st ∧ ∃ e, r = inl e)
  ∨ (existsSync root w = true
     ∧ (∃ delta, Git.commands st' = Git.commands st ++ delta
                 ∧ checkout_log root (default false (Git.prep_initSubmodules options))
                     (∃ res, r = inr res) delta)
     ∧ ∀ res, r = inr res → res = result true)
  ∨ (existsSync root w = false
     ∧ (∃ rest, Git.commands st' = Git.commands st ++ args :: rest
                ∧ checkout_log root (default false (Git.prep_initSubmodules options))
                    (∃ res, r = inr res) rest
                ∧ (Git.ok (runner args w).1 = false → rest = []))
     ∧ (∀ res, r = inr res → res = result false ∧ Git.ok (runner args w).1 = true)
     ∧ (Git.ok (runner args w).1 = false →
        ∃ e, r = inl e ∧ mentions e ("Failed to clone " +:+ depName +:+ " repository"))).
Proof.
  intros (Hconfig & HdepName & HgitRoot & (gitConfig & Hgit & Hurl) & Hne) Hrun.
  intros depName root w args result.
  unfold Git.prepareRepository in Hrun.
  rewrite Hconfig, (eqb_nonempty _ HdepName), (eqb_nonempty _ HgitRoot), Hgit, Hurl,
    (truthy_Some url Hne) in Hrun.
  cbn [negb] in Hrun.
  unfold Git.bind at 1 in Hrun. rewrite (ensureDirectory_run _ _ _ _ HgitRoot) in Hrun.
  unfold Git.bind at 1 in Hrun. unfold Git.exists_ at 1 in Hrun.
  cbn [Git.world] in Hrun.
  change (resolve (Git.prep_gitRoot options) (Git.sanitize (Git.prep_depName options)))
    with root in Hrun.
  assert (Hrm : ∀ (b : bool) (s : @Git.state W),
             (if b then Git.update_world (rmSync root) else Git.ret ()) s
             = (inr (), {| Git.world := if b then rmSync root (Git.world s) else Git.world s;
                           Git.commands := Git.commands s |}))
    by (intros [] []; reflexivity).
  unfold Git.bind at 1 in Hrun. rewrite Hrm in Hrun. clear Hrm.
  cbn [Git.world Git.commands] in Hrun.
  destruct (String.eqb_spec root "") as [Hroot|Hroot].
  { left. unfold Git.bind at 1, Git.cloneGitRepository in Hrun.
    cbn [Git.repoUrl Git.destination] in Hrun.
    rewrite (truthy_Some url Hne), Hroot in Hrun. cbn in Hrun.
    injection Hrun as <- <-. split; [tauto|]. split; [reflexivity | eauto]. }
  unfold Git.bind at 1 in Hrun.
  rewrite (cloneGitRepository_run existsSync mkdirSync runner dirname url root
             (default true (Git.prep_shallow options)) _ Hne Hroot) in Hrun.
  cbn [Git.world Git.commands] in Hrun.
  change (ensured existsSync mkdirSync (dirname root) _) with w in Hrun.
  fold args in Hrun.
  destruct (String.eqb_spec (dirname root) "") as [Hparent|Hparent].
  { left. injection Hrun as <- <-. split; [tauto|]. split; [reflexivity | eauto]. }
  right. destruct (existsSync root w) eqn:Hex.
  - left. split; [reflexivity|]. cbn [Git.clone_ok Git.clone_skipped negb andb] in Hrun.
    apply after_clone_run in Hrun as [Hlog Hres]. split; [exact Hlog | exact Hres].
  - right. split; [reflexivity|].
    cbn [Git.clone_ok Git.clone_skipped Git.clone_stderr Git.clone_stdout negb] in Hrun.
    rewrite andb_true_r in Hrun.
    destruct (Git.ok (runner args w).1) eqn:Hok; cbn [negb] in Hrun.
    + apply after_clone_run in Hrun as [(delta & Hlog & Hin) Hres].
      cbn [Git.commands] in Hlog. split; [|split; [|discriminate]].
      * exists delta. split; [rewrite Hlog, <- app_assoc; reflexivity|].
        split; [exact Hin | discriminate].
      * intros res Hr. split; [exact (Hres res Hr) | reflexivity].
    + injection Hrun as <- <-. split; [|split; [discriminate|]].
      * exists []. split; [reflexivity|]. split; [|reflexivity].
        apply checkout_log_unfinished; [constructor | intros [res [=]]].
      * intros _. eexists. split; [reflexivity|].
        exists "", (": " +:+
          (if negb (Git.stderr (runner args w).1 =? "") then Git.stderr (runner args w).1
           else if negb (Git.stdout (runner args w).1 =? "")
                then Git.stdout (runner args w).1 else "unknown error")).
        rewrite !append_assoc. reflexivity.
Qed.

End PrepareRun.

Section PrepareTheorems.

Context {W : Type}.
Variable existsSync : string → W → bool.
Variable mkdirSync : string → W → W.
Variable rmSync : string → W → W.
Variable runner : list string → W → Git.exec_result * W.
Variable dirname : string → string.
Variable resolve : string → string → string.

Local Abbreviation prepareRepository :=
  (Git.prepareRepository existsSync mkdirSync rmSync runner dirname resolve).
Local Abbreviation repoRoot_of options :=
  (getRepositoryPath resolve (Git.prep_gitRoot options) (Git.prep_depName options)).
Local Abbreviation world_of options :=
  (clone_world existsSync mkdirSync rmSync dirname resolve options).

(** Either the inputs are as required, or [prepareRepository] throws at
    once. *)
Lemma prepare_inputs_or_throw (options : Git.PrepareOptions) :
  (∃ config url, prepare_inputs options config url)
  ∨ ∃ e, ∀ st, prepareRepository options st = (inl e, st).
Proof.
  unfold Git.prepareRepository, prepare_inputs.
  destruct (Git.prep_config options) as [config|] eqn:Hconfig;
    [|right; eexists; intros; reflexivity].
  destruct (String.eqb_spec (Git.prep_depName options) "") as [|HdepName]; [right; eexists; intros; reflexivity|].
  destruct (String.eqb_spec (Git.prep_gitRoot options) "") as [|HgitRoot]; [right; eexists; intros; reflexivity|].
  destruct (dep_git config) as [gitConfig|] eqn:Hgit;
    [|right; eexists; intros; reflexivity].
  destruct (git_url gitConfig) as [url|] eqn:Hurl; [|right; eexists; intros; reflexivity].
  destruct (String.eqb_spec url "") as [->|Hne]; [right; eexists; intros; reflexivity|].
  left. exists config, url. split; [reflexivity|]. split; [assumption|].
  split; [assumption|]. split; [|exact Hne].
  exists gitConfig. split; [exact Hgit | exact Hurl].
Qed.

(** X16. When [prepareRepository] returns, its inputs were as required
    and the result is [ok] with the path of the repository and the
    [defaultVersion] and [branch] of the configuration. Its [skipped] field
    tells whether the repository directory was found in place: if so, every
    command that was run works inside the repository and nothing was
    cloned; if not, the first command is the clone and all the others work
    inside the repository. *)
Theorem prepareRepository_result (options : Git.PrepareOptions)
    (st st' : Git.state) (res : Git.RepoResult) :
  prepareRepository options st = (inr res, st') →
  ∃ config url delta,
    prepare_inputs options config url
    ∧ res = {| Git.repo_ok := true; Git.repo_repoRoot := repoRoot_of options;
               Git.repo_version := dep_defaultVersion config;
               Git.repo_branch := dep_branch config;
               Git.repo_skipped :=
                 existsSync (repoRoot_of options) (world_of options (Git.world st)) |}
    ∧ Git.commands st'
      = Git.commands st
        ++ (if Git.repo_skipped res then []
            else [clone_args (default true (Git.prep_shallow options)) url
                    (repoRoot_of options) []])
        ++ delta
    ∧ Forall (in_repository (repoRoot_of options)) delta.
Proof.
  intros Hrun.
  destruct (prepare_inputs_or_throw options) as [(config & url & Hin)|[e He]];
    [|rewrite He in Hrun; discriminate].
  pose proof (prepareRepository_run existsSync mkdirSync rmSync runner dirname resolve
                options config url st (inr res) st' Hin Hrun) as H.
  cbv zeta in H.
  destruct H as [(_ & _ & e & [=])|[(Hex & (delta & Hlog & [Hd _]) & Hres)
                                   |(Hex & (rest & Hlog & [Hd _] & _) & Hres & _)]].
  - exists config, url, delta. split; [exact Hin|].
    rewrite (Hres res eq_refl), Hex. cbn [Git.repo_skipped app].
    split; [reflexivity|]. split; [exact Hlog | exact Hd].
  - exists config, url, rest. split; [exact Hin|].
    destruct (Hres res eq_refl) as [-> _]. rewrite Hex. cbn [Git.repo_skipped app].
    split; [reflexivity|]. split; [exact Hlog | exact Hd].
Qed.

(** X17. With [force], [prepareRepository] always clones: its first command
    is the clone, whether or not the repository directory existed, and it
    never reports [skipped]. When that clone fails it throws an error that
    names the dependency, and runs nothing else. ([rmSync] removes the
    repository directory, and creating its parent does not create it.) *)
Theorem prepareRepository_force_clones (options : Git.PrepareOptions)
    (config : DependencyConfig) (url : string) (st st' : Git.state)
    (r : string + Git.RepoResult) :
  prepare_inputs options config url →
  Git.prep_force options = Some true →
  repoRoot_of options ≠ "" →
  dirname (repoRoot_of options) ≠ "" →
  (∀ w, existsSync (repoRoot_of options) (rmSync (repoRoot_of options) w) = false) →
  (∀ w, existsSync (repoRoot_of options) (mkdirSync (dirname (repoRoot_of options)) w)
        = existsSync (repoRoot_of options) w) →
  prepareRepository options st = (r, st') →
  ∃ rest,
    Git.commands st'
    = Git.commands st
      ++ clone_args (default true (Git.prep_shallow options)) url (repoRoot_of options) []
         :: rest
    ∧ Forall (in_repository (repoRoot_of options)) rest
    ∧ (∀ res, r = inr res → Git.repo_skipped res = false)
    ∧ (Git.ok (runner (clone_args (default true (Git.prep_shallow options)) url
                         (repoRoot_of options) [])
                 (world_of options (Git.world st))).1 = false →
       rest = []
       ∧ ∃ e, r = inl e
              ∧ mentions e ("Failed to clone " +:+ Git.prep_depName options
                            +:+ " repository")).
Proof.
  intros Hin Hforce Hroot Hparent Hrm Hmk Hrun.
  pose proof (prepareRepository_run existsSync mkdirSync rmSync runner dirname resolve
                options config url st r st' Hin Hrun) as H.
  cbv zeta in H.
  assert (Hex : existsSync (repoRoot_of options) (world_of options (Git.world st)) = false).
  { unfold clone_world. rewrite Hforce. change (default false (Some true)) with true.
    cbn [andb]. unfold ensured at 1.
    destruct (existsSync (repoRoot_of options)
                (ensured existsSync mkdirSync (Git.prep_gitRoot options) (Git.world st)))
      eqn:E; destruct (existsSync (dirname (repoRoot_of options)) _);
      rewrite ?Hmk, ?Hrm, ?E; reflexivity. }
  destruct H as [([?|?] & _)|[(Hex' & _)|(_ & (rest & Hlog & [Hd _] & Hnil) & Hres & Hfail)]];
    [contradiction | contradiction | congruence |].
  exists rest. split; [exact Hlog|]. split; [exact Hd|]. split.
  - intros res Hr. destruct (Hres res Hr) as [-> _]. reflexivity.
  - intros Hok. split; [exact (Hnil Hok) | exact (Hfail Hok)].
Qed.

(** X18. When an input is missing (no configuration, an empty dependency
    name or git root, no [git] object or no [git.url]), [prepareRepository]
    throws before it touches anything: no directory is created and no
    command is run. *)
Theorem prepareRepository_invalid (options : Git.PrepareOptions) (st : Git.state) :
  ¬ (∃ config url, prepare_inputs options config url) →
  ∃ e, prepareRepository options st = (inl e, st).
Proof.
  intros Hno. destruct (prepare_inputs_or_throw options) as [Hin|[e He]];
    [contradiction|]. exists e. apply He.
Qed.

End PrepareTheorems.

Lemma prepareRepository_result_witness :
  ∃ config url delta,
    prepare_inputs (ex_prepare_options true) config url
    ∧ ex_prepare_result
      = {| Git.repo_ok := true;
           Git.repo_repoRoot :=
             getRepositoryPath ex_join (Git.prep_gitRoot (ex_prepare_options true))
               (Git.prep_depName (ex_prepare_options true));
           Git.repo_version := dep_defaultVersion config;
           Git.repo_branch := dep_branch config;
           Git.repo_skipped :=
             ex_exists
               (getRepositoryPath ex_join (Git.prep_gitRoot (ex_prepare_options true))
                  (Git.prep_depName (ex_prepare_options true)))
               (clone_world ex_exists ex_mkdir ex_rm ex_dirname ex_join
                  (ex_prepare_options true) (Git.world ex_clone_state)) |}
    ∧ Git.commands (ex_prepareRepository_run true).2
      = Git.commands ex_clone_state
        ++ (if Git.repo_skipped ex_prepare_result then []
            else [clone_args (default true (Git.prep_shallow (ex_prepare_options true))) url
                    (getRepositoryPath ex_join (Git.prep_gitRoot (ex_prepare_options true))
                       (Git.prep_depName (ex_prepare_options true))) []])
        ++ delta
    ∧ Forall (in_repository
                (getRepositoryPath ex_join (Git.prep_gitRoot (ex_prepare_options true))
                   (Git.prep_depName (ex_prepare_options true)))) delta.
Proof.
  apply (prepareRepository_result ex_exists ex_mkdir ex_rm cloning_runner ex_dirname
           ex_join (ex_prepare_options true) ex_clone_state
           (ex_prepareRepository_run true).2 ex_prepare_result).
  vm_compute. reflexivity.
Defined.

Lemma prepareRepository_force_clones_witness :
  ∃ rest,
    Git.commands (ex_prepareRepository_run true).2
    = Git.commands ex_clone_state
      ++ clone_args true "https://example.org/repo.git" "/build/.git.temp/zlib" [] :: rest
    ∧ Forall (in_repository "/build/.git.temp/zlib") rest
    ∧ (∀ res, @inr string Git.RepoResult ex_prepare_result = inr res →
       Git.repo_skipped res = false)
    ∧ (Git.ok (cloning_runner
                 (clone_args true "https://example.org/repo.git" "/build/.git.temp/zlib" [])
                 (clone_world ex_exists ex_mkdir ex_rm ex_dirname ex_join
                    (ex_prepare_options true) (Git.world ex_clone_state))).1 = false →
       rest = []
       ∧ ∃ e, @inr string Git.RepoResult ex_prepare_result = inl e
              ∧ mentions e ("Failed to clone " +:+ "zlib" +:+ " repository")).
Proof.
  apply (prepareRepository_force_clones ex_exists ex_mkdir ex_rm cloning_runner ex_dirname
           ex_join (ex_prepare_options true) (ex_dep "zlib" [] None None)
           "https://example.org/repo.git" ex_clone_state
           (ex_prepareRepository_run true).2 (inr ex_prepare_result)).
  - repeat split; try discriminate. eexists. split; reflexivity.
  - reflexivity.
  - discriminate.
  - discriminate.
  - intros w. apply bool_decide_eq_false. unfold ex_rm.
    rewrite list_elem_of_filter. tauto.
  - intros w. apply bool_decide_ext. unfold ex_mkdir. rewrite elem_of_cons.
    split; [intros [H|H]; [discriminate H | exact H] | tauto].
  - vm_compute. reflexivity.
Defined.

Lemma prepareRepository_invalid_witness :
  ∃ e, Git.prepareRepository ex_exists ex_mkdir ex_rm cloning_runner ex_dirname ex_join
         ex_prepare_nothing ex_clone_state = (inl e, ex_clone_state).
Proof.
  apply (prepareRepository_invalid ex_exists ex_mkdir ex_rm cloning_runner ex_dirname
           ex_join ex_prepare_nothing ex_clone_state).
  intros (config & url & H & _). discriminate H.
Defined.

Section BranchCheckout.

Context {W : Type}.
Variable runner : list string → W → Git.exec_result * W.

Lemma collectUniqueRefs_single (ref : string) :
  trim ref ≠ "" → Git.collectUniqueRefs (Some (trim ref)) [] = [trim ref].
Proof.
  intros Hne. unfold Git.collectUniqueRefs. cbn [from_option app fold_left].
  assert (He : ∀ st v, Git.enqueue st v
               = if decide (trim v = "" ∨ trim v ∈ st.2) then st
                 else (st.1 ++ [trim v], {[trim v]} ∪ st.2)) by reflexivity.
  rewrite He. clear He. cbn [fst snd]. rewrite trim_idem, decide_False; [reflexivity|].
  intros [H|H]; [contradiction | apply not_elem_of_empty in H; contradiction].
Qed.

(** X19. A dependency pinned to a branch only (no [defaultVersion]) is
    still tried as a tag first: the first command of its checkout is the
    tag fetch of the branch name, and the branch fetch follows when that
    fails. Only that one name is ever tried: there is no [v]-prefixed
    fallback for a branch. *)
Theorem checkout_step_branch (config : DependencyConfig) (depName repoRoot : string)
    (branch : string) (st : Git.state) :
  dep_defaultVersion config = None →
  dep_branch config = Some branch →
  trim branch ≠ "" →
  repoRoot ≠ "" →
  ∃ rest,
    Git.commands (Git.checkout_step runner config depName repoRoot st).2
      = Git.commands st ++ Git.fetch_tag repoRoot (trim branch) :: rest
    ∧ (Git.ok (runner (Git.fetch_tag repoRoot (trim branch)) (Git.world st)).1 = false →
       ∃ rest', rest = Git.fetch_branch repoRoot (trim branch) :: rest')
    ∧ ∀ c, c ∈ rest →
           c ∈ [Git.checkout_detached repoRoot ("tags/" +:+ trim branch);
                Git.checkout_detached repoRoot (trim branch);
                Git.fetch_branch repoRoot (trim branch);
                Git.checkout_plain repoRoot (trim branch)].
Proof.
  intros Hversion Hbranch Hne Hroot.
  assert (Hb : branch ≠ "") by (intros ->; apply Hne; reflexivity).
  unfold Git.checkout_step. rewrite Hversion, Hbranch, (eqb_nonempty branch Hb).
  cbn [negb andb].
  unfold Git.checkoutGitRef. rewrite (eqb_nonempty repoRoot Hroot).
  rewrite (collectUniqueRefs_single branch Hne).
  unfold Git.bind at 1. cbn [Git.checkout_candidates].
  rewrite trim_idem, (eqb_nonempty _ Hne).
  unfold Git.attemptCheckoutVariants, Git.attempt_variants, Git.bind, Git.git, Git.ret,
    Git.throw.
  cbn [Git.world Git.commands fst snd app].
  unfold Git.fetch_tag, Git.fetch_branch, Git.checkout_plain, Git.checkout_detached.
  repeat match goal with
         | |- context [runner ?args ?w] =>
             let r := fresh "r" in let w' := fresh "w" in let E := fresh "E" in
             destruct (runner args w) as [r w'] eqn:E;
             let b := fresh "b" in
             destruct r as [b ? ?]; destruct b;
             cbn [Git.ok Git.world Git.commands fst snd]
         end;
    cbn [Git.checkout_ok Git.world Git.commands fst snd];
    rewrite <- ?app_assoc; cbn [app];
    (eexists; split; [reflexivity|]);
    (split; [first [ discriminate | intros _; eexists; reflexivity ]|]);
    intros c Hc;
    repeat (apply elem_of_cons in Hc as [->|Hc];
            [rewrite !elem_of_cons;
             first [ left; reflexivity | right; left; reflexivity
                   | right; right; left; reflexivity
                   | right; right; right; left; reflexivity ]|]);
    inversion Hc.
Qed.

End BranchCheckout.

Lemma checkout_step_branch_witness :
  ∃ rest,
    Git.commands
      (Git.checkout_step cloning_runner (ex_dep "zlib" [] None None) "zlib"
         "/build/.git.temp/zlib" ex_clone_state).2
      = Git.commands ex_clone_state
        ++ Git.fetch_tag "/build/.git.temp/zlib" (trim "main") :: rest
    ∧ (Git.ok (cloning_runner (Git.fetch_tag "/build/.git.temp/zlib" (trim "main"))
                 (Git.world ex_clone_state)).1 = false →
       ∃ rest', rest = Git.fetch_branch "/build/.git.temp/zlib" (trim "main") :: rest')
    ∧ ∀ c, c ∈ rest →
           c ∈ [Git.checkout_detached "/build/.git.temp/zlib" ("tags/" +:+ trim "main");
                Git.checkout_detached "/build/.git.temp/zlib" (trim "main");
                Git.fetch_branch "/build/.git.temp/zlib" (trim "main");
                Git.checkout_plain "/build/.git.temp/zlib" (trim "main")].
Proof.
  apply (checkout_step_branch cloning_runner (ex_dep "zlib" [] None None) "zlib"
           "/build/.git.temp/zlib" "main" ex_clone_state).
  - reflexivity.
  - reflexivity.
  - discriminate.
  - discriminate.
Defined.

Section SubmoduleTheorem.

Context {W : Type}.
Variable existsSync : string → W → bool.
Variable mkdirSync : string → W → W.
Variable rmSync : string → W → W.
Variable runner : list string → W → Git.exec_result * W.
Variable dirname : string → string.
Variable resolve : string → string → string.

Local Abbreviation prepareRepository :=
  (Git.prepareRepository existsSync mkdirSync rmSync runner dirname resolve).
Local Abbreviation repoRoot_of options :=
  (getRepositoryPath resolve (Git.prep_gitRoot options) (Git.prep_depName options)).

Lemma fetch_or_checkout_not_submodule repoPath root c :
  fetch_or_checkout repoPath c → c ≠ submodule_update root.
Proof. intros (verb & rest & -> & [-> | ->]); discriminate. Qed.

Lemma not_submodule_in repoPath root l :
  Forall (fetch_or_checkout repoPath) l → submodule_update root ∉ l.
Proof.
  intros H Hin. rewrite Forall_forall in H.
  exact (fetch_or_checkout_not_submodule _ root _ (H _ Hin) eq_refl).
Qed.

(** X28. When [prepareRepository] returns for a dependency with
    [initSubmodules], the last command it ran is [git submodule update
    --init] in the repository, after the checkout, and that command was run
    only once; without [initSubmodules] it is never run. *)
Theorem prepareRepository_submodules (options : Git.PrepareOptions)
    (st st' : Git.state) (res : Git.RepoResult) :
  prepareRepository options st = (inr res, st') →
  ∃ delta,
    Git.commands st' = Git.commands st ++ delta
    ∧ (default false (Git.prep_initSubmodules options) = true →
       ∃ before, delta = before ++ [submodule_update (repoRoot_of options)]
                 ∧ submodule_update (repoRoot_of options) ∉ before)
    ∧ (default false (Git.prep_initSubmodules options) = false →
       submodule_update (repoRoot_of options) ∉ delta).
Proof.
  intros Hrun.
  destruct (prepare_inputs_or_throw existsSync mkdirSync rmSync runner dirname resolve
              options) as [(config & url & Hin)|[e He]];
    [|rewrite He in Hrun; discriminate].
  pose proof (prepareRepository_run existsSync mkdirSync rmSync runner dirname resolve
                options config url st (inr res) st' Hin Hrun) as H.
  cbv zeta in H.
  destruct H as [(_ & _ & e & [=])|[(_ & (delta & Hlog & (_ & Hplain & Hsub)) & _)
                                   |(_ & (rest & Hlog & (_ & Hplain & Hsub) & _) & _)]].
  - exists delta. split; [exact Hlog|]. split.
    + intros Hinit. destruct (Hsub (ex_intro _ res eq_refl) Hinit) as (pre & -> & Hpre).
      exists pre. split; [reflexivity | apply (not_submodule_in _ _ _ Hpre)].
    + intros Hinit. apply (not_submodule_in _ _ _ (Hplain Hinit)).
  - eexists. split; [exact Hlog|]. split.
    + intros Hinit. destruct (Hsub (ex_intro _ res eq_refl) Hinit) as (pre & -> & Hpre).
      eexists. split; [apply app_comm_cons|].
      intros Hc. apply elem_of_cons in Hc as [Hc|Hc]; [discriminate Hc|].
      exact (not_submodule_in _ _ _ Hpre Hc).
    + intros Hinit Hc. apply elem_of_cons in Hc as [Hc|Hc]; [discriminate Hc|].
      exact (not_submodule_in _ _ _ (Hplain Hinit) Hc).
Qed.

End SubmoduleTheorem.

Lemma prepareRepository_submodules_witness :
  ∃ delta,
    Git.commands ex_prepare_submodules.2 = Git.commands ex_clone_state ++ delta
    ∧ (default false (Git.prep_initSubmodules ex_submodule_options) = true →
       ∃ before,
         delta = before ++ [submodule_update
                              (getRepositoryPath ex_join
                                 (Git.prep_gitRoot ex_submodule_options)
                                 (Git.prep_depName ex_submodule_options))]
         ∧ submodule_update
             (getRepositoryPath ex_join (Git.prep_gitRoot ex_submodule_options)
                (Git.prep_depName ex_submodule_options)) ∉ before)
    ∧ (default false (Git.prep_initSubmodules ex_submodule_options) = false →
       submodule_update
         (getRepositoryPath ex_join (Git.prep_gitRoot ex_submodule_options)
            (Git.prep_depName ex_submodule_options)) ∉ delta).
Proof.
  apply (prepareRepository_submodules ex_exists ex_mkdir ex_rm cloning_runner ex_dirname
           ex_join ex_submodule_options ex_clone_state ex_prepare_submodules.2
           {| Git.repo_ok := true; Git.repo_repoRoot := "/build/.git.temp/zlib";
              Git.repo_version := None; Git.repo_branch := Some "main";
              Git.repo_skipped := true |}).
  vm_compute. reflexivity.
Defined.

(** ** Further properties of [orchestrateBuild] *)

Section OrchestratorMore.

Context {W : Type}.
Variable prepareRepository : Git.PrepareOptions → W → (string + Git.RepoResult) * W.
Variable importModule : string → W → (string + @Orchestrator.WorkerModule W) * W.
Variable ensureDirectory : string → W → (string + unit) * W.
Variable loadTools :
  list ToolSpec → string → W → (string + (W → (string + unit) * W)) * W.
Variable copyToReleases :
  Orchestrator.CopyOptions → W → (string + Orchestrator.ReleaseResult) * W.
Variable listReleasedFiles : string → W → (string + list string) * W.
Variable path_join : string → string → string.
Variable path_resolve : string → string → string.
Variable pathToFileURL : string → string.

Local Abbreviation orchestrateBuild :=
  (Orchestrator.orchestrateBuild prepareRepository importModule ensureDirectory
     loadTools copyToReleases listReleasedFiles path_join path_resolve pathToFileURL).

(** X20. When [orchestrateBuild] returns, the list it returns has one
    entry for every dependency of the build order that passes the [only]
    filter (every dependency when [only] is absent or empty), in the order
    that [resolveBuildOrder] gave: a permutation of the non-skipped keys in
    which each dependency comes after the entries of its [deps]. A
    dependency that [only] leaves out is not built, even when a selected one
    depends on it. *)
Theorem orchestrateBuild_success (options : Orchestrator.Options)
    (config : BuildConfig) (deps : list (key * DependencyConfig))
    (m : Orchestrator.M (list Orchestrator.BuildResult))
    (st st' : Orchestrator.state) (res : list Orchestrator.BuildResult)
    (evs : list Orchestrator.event) :
  Orchestrator.opt_config options = Some config →
  cfg_deps config = Some deps →
  NoDup (dep_keys deps) →
  orchestrateBuild options = Some m →
  m st = (inr res, evs, st') →
  ∃ order,
    Resolver.resolveBuildOrder (Some config) = Some (Resolver.Order order)
    ∧ order ≡ₚ Resolver.activeDeps deps
    ∧ (∀ A B, A ∈ order → B ∈ dependencies_of deps A → precedes B A order)
    ∧ map Orchestrator.name res
      = match Orchestrator.opt_only options with
        | Some (o :: only) => filter (λ depName, depName ∈ o :: only) order
        | _ => order
        end.
Proof.
  intros Hconfig Hdeps Hnd. unfold Orchestrator.orchestrateBuild. rewrite Hconfig.
  destruct (negb (truthy (Orchestrator.opt_buildRoot options))); [intros [= <-]; discriminate|].
  destruct (Validator.validateBuildConfig (Some config)); [intros [= <-]; discriminate|].
  destruct (Resolver.resolveBuildOrder (Some config)) as [[order|v|cycles]|] eqn:Horder;
    [| intros [= <-]; discriminate | intros [= <-]; discriminate | discriminate].
  intros [= <-]. unfold Orchestrator.bind, Orchestrator.call. simpl.
  destruct (ensureDirectory _ _) as [[e|[]] w1]; [discriminate|].
  destruct (ensureDirectory _ _) as [[e|[]] w2]; [discriminate|].
  match goal with
  | |- context [Orchestrator.orchestrate_loop ?a1 ?a2 ?a3 ?a4 ?a5 ?a6 ?a7 ?a8 ?a9
                  ?cfg ?root ?f ?cp ?g ?ar ?l ?s] =>
      destruct (Orchestrator.orchestrate_loop a1 a2 a3 a4 a5 a6 a7 a8 a9
                  cfg root f cp g ar l s) as [[[e|[]] evs0] st0] eqn:Hloop
  end; [discriminate|].
  intros [= <- <- <-]. apply orchestrate_loop_results in Hloop. simpl in Hloop.
  exists order. split; [reflexivity|].
  unfold Resolver.resolveBuildOrder in Horder. rewrite Hdeps in Horder.
  split; [exact (resolve_order_perm deps Hnd order Horder)|]. split; [|exact Hloop].
  intros A B HA HB.
  pose proof (resolve_order_ordered deps Hnd order Horder) as Hord.
  destruct (list_elem_of_split _ _ HA) as (R1 & R2 & HR).
  pose proof (Hord R1 A R2 HR B HB) as HB1.
  destruct (list_elem_of_split _ _ HB1) as (l1 & l2 & Hl).
  exists l1, l2, R2. rewrite HR, Hl, <- app_assoc. reflexivity.
Qed.


End OrchestratorMore.

Lemma orchestrateBuild_success_witness :
  ∃ order,
    Resolver.resolveBuildOrder (Some passing_config) = Some (Resolver.Order order)
    ∧ order ≡ₚ Resolver.activeDeps passing_deps
    ∧ (∀ A B, A ∈ order → B ∈ dependencies_of passing_deps A → precedes B A order)
    ∧ map Orchestrator.name (Orchestrator.results (ex_passing_run ex_state).2)
      = match Orchestrator.opt_only (ex_options passing_config) with
        | Some (o :: only) => filter (λ depName, depName ∈ o :: only) order
        | _ => order
        end.
Proof.
  apply (orchestrateBuild_success ex_prepareRepository ex_importModule
           ex_ensureDirectory ex_loadTools ex_copyToReleases ex_listReleasedFiles
           ex_join ex_join ex_url (ex_options passing_config) passing_config
           passing_deps ex_passing_run ex_state (ex_passing_run ex_state).2
           (Orchestrator.results (ex_passing_run ex_state).2)
           (ex_passing_run ex_state).1.2).
  - reflexivity.
  - reflexivity.
  - apply (bool_decide_unpack _); vm_compute; exact I.
  - vm_compute. reflexivity.
  - vm_compute. reflexivity.
Defined.


(** ** The steps of a run, in order *)

Section PipelineFacts.

Context {W : Type}.
Variable prepareRepository : Git.PrepareOptions → W → (string + Git.RepoResult) * W.
Variable importModule : string → W → (string + @Orchestrator.WorkerModule W) * W.
Variable ensureDirectory : string → W → (string + unit) * W.
Variable loadTools :
  list ToolSpec → string → W → (string + (W → (string + unit) * W)) * W.
Variable copyToReleases :
  Orchestrator.CopyOptions → W → (string + Orchestrator.ReleaseResult) * W.
Variable listReleasedFiles : string → W → (string + list string) * W.
Variable path_join : string → string → string.
Variable path_resolve : string → string → string.
Variable pathToFileURL : string → string.

Variable config : BuildConfig.
Variable buildRoot : string.
Variable force copyToReleasesFlag : bool.
Variable gitRoot artifactsRoot : string.

Local Abbreviation build_dependency :=
  (Orchestrator.build_dependency prepareRepository importModule ensureDirectory
     loadTools copyToReleases listReleasedFiles path_join path_resolve pathToFileURL
     config buildRoot force copyToReleasesFlag gitRoot artifactsRoot).
Local Abbreviation process_dependency :=
  (Orchestrator.process_dependency prepareRepository importModule ensureDirectory
     loadTools copyToReleases listReleasedFiles path_join path_resolve pathToFileURL
     config buildRoot force copyToReleasesFlag gitRoot artifactsRoot).
Local Abbreviation orchestrate_loop :=
  (Orchestrator.orchestrate_loop prepareRepository importModule ensureDirectory
     loadTools copyToReleases listReleasedFiles path_join path_resolve pathToFileURL
     config buildRoot force copyToReleasesFlag gitRoot artifactsRoot).



(** The dependencies that the calls of the loop are made for are those of
    the list it runs over. *)
Lemma orchestrate_loop_deps l st r evs st' :
  orchestrate_loop l st = (r, evs, st') →
  ∀ ev x, ev ∈ evs → event_dep ev = Some x → x ∈ l.
Proof.
  revert st r evs st'. induction l as [|d l IH]; intros st r evs st'.
  - intros [= <- <- <-] ev x Hev. inversion Hev.
  - cbn [Orchestrator.orchestrate_loop]. unfold Orchestrator.bind at 1.
    destruct (process_dependency d st) as [[r1 evs1] st1] eqn:Hd.
    pose proof Hd as H1. apply process_dependency_events in H1.
    rewrite Forall_forall in H1.
    destruct r1 as [e|[]].
    + intros [= <- <- <-] ev x Hev Hx. destruct (H1 ev Hev x Hx) as [-> _].
      apply list_elem_of_here.
    + destruct (orchestrate_loop l st1) as [[r2 evs2] st2] eqn:Hl.
      intros [= <- <- <-] ev x Hev Hx. apply elem_of_app in Hev as [Hev|Hev].
      * destruct (H1 ev Hev x Hx) as [-> _]. apply list_elem_of_here.
      * apply list_elem_of_further. exact (IH _ _ _ _ Hl ev x Hev Hx).
Qed.

(** The loop works on one dependency after the other: a call made after
    a call for [a] is for [a] or for a dependency further down the list. *)
Lemma orchestrate_loop_sequential l st r evs st' :
  orchestrate_loop l st = (r, evs, st') →
  ∀ l1 evA l2 evB a b,
    evs = l1 ++ evA :: l2 → evB ∈ l2 →
    event_dep evA = Some a → event_dep evB = Some b →
    a = b ∨ precedes a b l.
Proof.
  revert st r evs st'. induction l as [|d l IH]; intros st r evs st'.
  - intros [= <- <- <-] l1 evA l2 evB a b Heq. destruct l1; discriminate.
  - cbn [Orchestrator.orchestrate_loop]. unfold Orchestrator.bind at 1.
    destruct (process_dependency d st) as [[r1 evs1] st1] eqn:Hd.
    pose proof Hd as H1. apply process_dependency_events in H1.
    rewrite Forall_forall in H1.
    assert (Hdep : ∀ ev x, ev ∈ evs1 → event_dep ev = Some x → x = d)
      by (intros ev x Hev Hx; exact (proj1 (H1 ev Hev x Hx))).
    clear H1.
    destruct r1 as [e|[]].
    { intros [= <- <- <-] l1 evA l2 evB a b Heq HB Ha Hb. left.
      rewrite (Hdep evA a), (Hdep evB b); [reflexivity | | exact Hb | | exact Ha];
        rewrite Heq, elem_of_app, elem_of_cons; tauto. }
    destruct (orchestrate_loop l st1) as [[r2 evs2] st2] eqn:Hl.
    intros [= <- <- <-] l1 evA l2 evB a b Heq HB Ha Hb.
    assert (Hlater : ∀ ev x, ev ∈ evs2 → event_dep ev = Some x → precedes d x (d :: l)).
    { intros ev x Hev Hx. pose proof (orchestrate_loop_deps _ _ _ _ _ Hl ev x Hev Hx) as Hin.
      destruct (list_elem_of_split _ _ Hin) as (k1 & k2 & ->).
      exists [], k1, k2. reflexivity. }
    assert (Hshift : ∀ x y, precedes x y l → precedes x y (d :: l)).
    { intros x y (k1 & k2 & k3 & ->). exists (d :: k1), k2, k3. reflexivity. }
    apply app_eq_app in Heq as [k [[Hk1 Hk2]|[Hk1 Hk2]]].
    + (* [evA] is a call of the first iteration, or the first of the others *)
      destruct k as [|x k].
      * cbn [app] in Hk2.
        destruct (IH _ _ _ _ Hl [] evA l2 evB a b) as [H|H];
          [rewrite Hk2; reflexivity | exact HB | exact Ha | exact Hb | tauto | ].
        right. apply Hshift, H.
      * cbn [app] in Hk2. injection Hk2 as <- ->.
        assert (a = d) as ->.
        { apply (Hdep evA); [|exact Ha]. rewrite Hk1, elem_of_app, elem_of_cons. tauto. }
        apply elem_of_app in HB as [HB|HB].
        -- left. symmetry. apply (Hdep evB); [|exact Hb].
           rewrite Hk1, elem_of_app, elem_of_cons. tauto.
        -- right. exact (Hlater evB b HB Hb).
    + (* [evA] is a call of the other iterations *)
      destruct (IH _ _ _ _ Hl k evA l2 evB a b) as [H|H];
        [exact Hk2 | exact HB | exact Ha | exact Hb | tauto |].
      right. apply Hshift, H.
Qed.

End PipelineFacts.

Lemma precedes_sublist (a b : key) (l k : list key) :
  precedes a b l → sublist l k → precedes a b k.
Proof.
  intros (k1 & k2 & k3 & ->) Hsub.
  assert (Hs : sublist [a; b] k).
  { etrans; [|exact Hsub]. apply sublist_inserts_l, sublist_skip.
    apply sublist_inserts_l, sublist_skip, sublist_nil_l. }
  apply sublist_cons_l in Hs as (m1 & m2 & -> & Hs).
  apply sublist_cons_l in Hs as (m3 & m4 & -> & _).
  exists m1, m3, m4. reflexivity.
Qed.

Section PipelineTheorems.

Context {W : Type}.
Variable prepareRepository : Git.PrepareOptions → W → (string + Git.RepoResult) * W.
Variable importModule : string → W → (string + @Orchestrator.WorkerModule W) * W.
Variable ensureDirectory : string → W → (string + unit) * W.
Variable loadTools :
  list ToolSpec → string → W → (string + (W → (string + unit) * W)) * W.
Variable copyToReleases :
  Orchestrator.CopyOptions → W → (string + Orchestrator.ReleaseResult) * W.
Variable listReleasedFiles : string → W → (string + list string) * W.
Variable path_join : string → string → string.
Variable path_resolve : string → string → string.
Variable pathToFileURL : string → string.

Local Abbreviation orchestrateBuild :=
  (Orchestrator.orchestrateBuild prepareRepository importModule ensureDirectory
     loadTools copyToReleases listReleasedFiles path_join path_resolve pathToFileURL).
Local Abbreviation process_dependency :=
  (Orchestrator.process_dependency prepareRepository importModule ensureDirectory
     loadTools copyToReleases listReleasedFiles path_join path_resolve pathToFileURL).
Local Abbreviation orchestrate_loop :=
  (Orchestrator.orchestrate_loop prepareRepository importModule ensureDirectory
     loadTools copyToReleases listReleasedFiles path_join path_resolve pathToFileURL).


(** Once a call has been made for [A], no call is made for a dependency
    that [A] lists, and [A] does not list itself. *)
Lemma orchestrateBuild_later_calls (options : Orchestrator.Options)
    (config : BuildConfig) (deps : list (key * DependencyConfig))
    (m : Orchestrator.M (list Orchestrator.BuildResult))
    (st st' : Orchestrator.state) (r : string + list Orchestrator.BuildResult)
    (evs before after : list Orchestrator.event) (evA : Orchestrator.event)
    (A B : key) :
  Orchestrator.opt_config options = Some config →
  cfg_deps config = Some deps →
  NoDup (dep_keys deps) →
  orchestrateBuild options = Some m →
  m st = (r, evs, st') →
  B ∈ dependencies_of deps A →
  evs = before ++ evA :: after →
  step_of A evA →
  A ≠ B ∧ ∀ evB, evB ∈ after → ¬ step_of B evB.
Proof.
  intros Hconfig Hdeps Hnd Hm Hrun HB Hevs HA.
  unfold step_of in HA.
  revert Hm Hrun. unfold Orchestrator.orchestrateBuild. rewrite Hconfig.
  destruct (negb (truthy (Orchestrator.opt_buildRoot options))).
  { intros [= <-] [= <- E _]. rewrite Hevs in E. destruct before; discriminate. }
  destruct (Validator.validateBuildConfig (Some config)).
  { intros [= <-] [= <- E _]. rewrite Hevs in E. destruct before; discriminate. }
  destruct (Resolver.resolveBuildOrder (Some config)) as [[order|v|cycles]|] eqn:Horder;
    [| intros [= <-] [= <- E _]; rewrite Hevs in E; destruct before; discriminate
     | intros [= <-] [= <- E _]; rewrite Hevs in E; destruct before; discriminate
     | discriminate].
  unfold Resolver.resolveBuildOrder in Horder. rewrite Hdeps in Horder.
  pose proof (resolve_order_ordered deps Hnd order Horder) as Hord.
  destruct (resolve_order_inv deps Hnd order Horder) as (D & [Hndo _ _ _ _] & _).
  rewrite app_nil_r in Hndo.
  (* no call for [A] comes before a call for [B] in a list that follows the order *)
  assert (Hfinal : ∀ l, sublist l order → A ∈ l → ¬ (A = B ∨ precedes A B l)).
  { intros l Hsub HAl Hbad.
    assert (HAB : ∃ k1 k2, order = k1 ++ A :: k2 ∧ (A = B ∨ B ∈ k2)).
    { destruct Hbad as [H|Hprec].
      - assert (HAo : A ∈ order) by (eapply elem_of_sublist; eassumption).
        destruct (list_elem_of_split _ _ HAo) as (k1 & k2 & ->). eauto.
      - destruct (precedes_sublist A B l order Hprec Hsub) as (k1 & k2 & k3 & ->).
        exists k1, (k2 ++ B :: k3). split; [reflexivity|]. right.
        rewrite elem_of_app, elem_of_cons. tauto. }
    destruct HAB as (k1 & k2 & Ho & Hlater).
    pose proof (Hord k1 A k2 Ho B HB) as HBk1.
    rewrite Ho in Hndo. apply NoDup_app in Hndo as (_ & Hdisj & Hnd2).
    apply (Hdisj B HBk1). destruct Hlater as [<-|HBk2];
      [apply list_elem_of_here | apply list_elem_of_further, HBk2]. }
  intros [= <-]. unfold Orchestrator.bind, Orchestrator.call. simpl.
  destruct (ensureDirectory _ _) as [[e|[]] w1].
  { intros [= <- E _]. rewrite Hevs in E.
    destruct before as [|x [|y k]]; simplify_eq/=. }
  destruct (ensureDirectory _ _) as [[e|[]] w2].
  { intros [= <- E _]. rewrite Hevs in E.
    destruct before as [|x [|y [|z k]]]; simplify_eq/=. }
  match goal with
  | |- context [Orchestrator.orchestrate_loop ?a1 ?a2 ?a3 ?a4 ?a5 ?a6 ?a7 ?a8 ?a9
                  ?cfg ?root ?f ?cp ?g ?ar ?l ?s] =>
      destruct (Orchestrator.orchestrate_loop a1 a2 a3 a4 a5 a6 a7 a8 a9
                  cfg root f cp g ar l s) as [[r0 evs0] st0] eqn:Hloop;
      assert (Hsub : sublist l order)
        by (destruct (Orchestrator.opt_only options) as [[|o only]|];
            first [reflexivity | apply sublist_filter])
  end.
  assert (Hevs0 : evs = Orchestrator.EnsureDirectory (path_join
                           (default "" (Orchestrator.opt_buildRoot options)) ".git.temp")
                        :: Orchestrator.EnsureDirectory (path_join
                             (default "" (Orchestrator.opt_buildRoot options)) "artifacts")
                        :: evs0 →
                  A ≠ B ∧ ∀ evB, evB ∈ after → ¬ step_of B evB).
  { intros E. rewrite Hevs in E.
    destruct before as [|x [|y k]]; simplify_eq/=.
    pose proof (orchestrate_loop_deps _ _ _ _ _ _ _ _ _ _ _ _ _ _ _ _ _ _ _ _ Hloop
                  evA A) as HAl.
    specialize (HAl ltac:(rewrite elem_of_app, elem_of_cons; tauto) HA).
    split.
    - intros HAB. apply (Hfinal _ Hsub HAl). left. exact HAB.
    - intros evB HevB HstepB. apply (Hfinal _ Hsub HAl).
      eapply orchestrate_loop_sequential; [exact Hloop | reflexivity | exact HevB
                                          | exact HA | exact HstepB]. }
  destruct r0 as [e|[]]; intros [= <- E _]; apply Hevs0; rewrite ?app_nil_r in E;
    symmetry; exact E.
Qed.

(** X27. In a run of [orchestrateBuild], however it ends, everything that
    is done for a dependency [B] is done before anything is done for a
    dependency [A] that lists [B] in its [deps]: a call made for [B]
    (the preparation of its repository or any later step) comes before a
    call made for [A], and after that call for [A] no call is made for [B]
    any more. *)
Theorem orchestrateBuild_sequential (options : Orchestrator.Options)
    (config : BuildConfig) (deps : list (key * DependencyConfig))
    (m : Orchestrator.M (list Orchestrator.BuildResult))
    (st st' : Orchestrator.state) (r : string + list Orchestrator.BuildResult)
    (evs : list Orchestrator.event) (evA evB : Orchestrator.event) (A B : key) :
  Orchestrator.opt_config options = Some config →
  cfg_deps config = Some deps →
  NoDup (dep_keys deps) →
  orchestrateBuild options = Some m →
  m st = (r, evs, st') →
  B ∈ dependencies_of deps A →
  evA ∈ evs → step_of A evA →
  evB ∈ evs → step_of B evB →
  ∃ before after,
    evs = before ++ evA :: after
    ∧ evB ∈ before
    ∧ ∀ ev, ev ∈ after → ¬ step_of B ev.
Proof.
  intros Hconfig Hdeps Hnd Hm Hrun HB HevA HA HevB HstepB.
  destruct (list_elem_of_split _ _ HevA) as (before & after & Hevs).
  destruct (orchestrateBuild_later_calls options config deps m st st' r evs before after
              evA A B Hconfig Hdeps Hnd Hm Hrun HB Hevs HA) as [Hne Hlater].
  exists before, after. split; [exact Hevs|]. split; [|exact Hlater].
  rewrite Hevs, elem_of_app, elem_of_cons in HevB.
  destruct HevB as [H|[->|H]]; [exact H | | exfalso; exact (Hlater evB H HstepB)].
  exfalso. unfold step_of in HA, HstepB. congruence.
Qed.


End PipelineTheorems.


Lemma orchestrateBuild_sequential_witness :
  ∃ before after,
    (ex_passing_run ex_state).1.2 = before ++ Orchestrator.PrepareRepository "c" :: after
    ∧ Orchestrator.CleanupTools "a" ∈ before
    ∧ ∀ ev, ev ∈ after → ¬ step_of "a" ev.
Proof.
  apply (orchestrateBuild_sequential ex_prepareRepository ex_importModule
           ex_ensureDirectory ex_loadTools ex_copyToReleases ex_listReleasedFiles
           ex_join ex_join ex_url (ex_options passing_config) passing_config
           passing_deps ex_passing_run ex_state (ex_passing_run ex_state).2
           (ex_passing_run ex_state).1.1 (ex_passing_run ex_state).1.2
           (Orchestrator.PrepareRepository "c") (Orchestrator.CleanupTools "a") "c" "a").
  - reflexivity.
  - reflexivity.
  - apply (bool_decide_unpack _); vm_compute; exact I.
  - vm_compute. reflexivity.
  - vm_compute. reflexivity.
  - apply (bool_decide_unpack _); vm_compute; exact I.
  - apply (bool_decide_unpack _); vm_compute; exact I.
  - reflexivity.
  - apply (bool_decide_unpack _); vm_compute; exact I.
  - reflexivity.
Defined.

(** ** The tool loader *)

Section SplitFacts.

Variable d : Ascii.ascii.

Lemma split_cons_delimiter s : ToolLoader.split d (String d s) = "" :: ToolLoader.split d s.
Proof. simpl. rewrite Ascii.eqb_refl. reflexivity. Qed.

Lemma split_nonempty s : ToolLoader.split d s ≠ [].
Proof.
  induction s as [|c s IH]; simpl; [discriminate|].
  destruct (Ascii.eqb c d); [discriminate|].
  destruct (ToolLoader.split d s); [contradiction | discriminate].
Qed.

(** A string without the delimiter is one piece. *)
Lemma split_whole s : d ∉ chars s → ToolLoader.split d s = [s].
Proof.
  induction s as [|c s IH]; simpl; intros Hd; [reflexivity|].
  destruct (Ascii.eqb_spec c d) as [->|Hne].
  - exfalso. apply Hd, list_elem_of_here.
  - rewrite IH; [reflexivity|]. intros H. apply Hd, list_elem_of_further, H.
Qed.

(** The pieces of [s + delimiter + t] are those of [s] followed by those of [t]. *)
Lemma split_app s t :
  ToolLoader.split d (s +:+ String d t) = ToolLoader.split d s ++ ToolLoader.split d t.
Proof.
  induction s as [|c s IH].
  - change ("" +:+ String d t) with (String d t). rewrite split_cons_delimiter. reflexivity.
  - change (String c s +:+ String d t) with (String c (s +:+ String d t)).
    simpl. rewrite IH. destruct (Ascii.eqb c d); [reflexivity|].
    pose proof (split_nonempty s). destruct (ToolLoader.split d s); [contradiction | reflexivity].
Qed.

End SplitFacts.

(** X22. [prependToPath] with a path that does not contain the delimiter
    puts it on [PATH] once: afterwards it is an entry of [PATH], a second
    call changes nothing, a path that was not there is put first with the
    earlier entries behind it in their order, and nothing but [PATH] is
    touched. *)
Theorem prependToPath_idempotent {R : Type} (delimiter : Ascii.ascii)
    (newPath : string) (w : @ToolLoader.World R) :
  delimiter ∉ chars newPath →
  newPath ∈ ToolLoader.split delimiter
              (default "" (ToolLoader.env (ToolLoader.prependToPath delimiter newPath w)
                           !! "PATH"))
  ∧ ToolLoader.prependToPath delimiter newPath
      (ToolLoader.prependToPath delimiter newPath w)
    = ToolLoader.prependToPath delimiter newPath w
  ∧ (newPath ∉ ToolLoader.split delimiter (default "" (ToolLoader.env w !! "PATH")) →
     ToolLoader.split delimiter
       (default "" (ToolLoader.env (ToolLoader.prependToPath delimiter newPath w)
                    !! "PATH"))
     = newPath :: ToolLoader.split delimiter (default "" (ToolLoader.env w !! "PATH")))
  ∧ (∀ k, k ≠ "PATH" →
          ToolLoader.env (ToolLoader.prependToPath delimiter newPath w) !! k
          = ToolLoader.env w !! k)
  ∧ ToolLoader.rest (ToolLoader.prependToPath delimiter newPath w) = ToolLoader.rest w.
Proof.
  intros Hd.
  assert (Hnew : ∀ current,
             ToolLoader.split delimiter (newPath +:+ String delimiter current)
             = newPath :: ToolLoader.split delimiter current).
  { intros current. rewrite split_app, (split_whole _ _ Hd). reflexivity. }
  destruct (decide (newPath ∈ ToolLoader.split delimiter
                                (default "" (ToolLoader.env w !! "PATH")))) as [Hin|Hnin].
  - assert (E : ToolLoader.prependToPath delimiter newPath w = w).
    { unfold ToolLoader.prependToPath. rewrite decide_True by exact Hin. reflexivity. }
    rewrite !E. split; [exact Hin|]. split; [reflexivity|].
    split; [contradiction | split; reflexivity].
  - assert (E : ToolLoader.prependToPath delimiter newPath w
                = ToolLoader.assign "PATH"
                    (Some (newPath +:+ String delimiter
                                         (default "" (ToolLoader.env w !! "PATH")))) w).
    { unfold ToolLoader.prependToPath. rewrite decide_False by exact Hnin. reflexivity. }
    rewrite !E. unfold ToolLoader.assign. cbn [ToolLoader.env ToolLoader.rest].
    rewrite lookup_insert_eq. cbn [default from_option]. unfold id.
    split; [rewrite Hnew; apply list_elem_of_here|].
    split; [|split; [intros _; apply Hnew | split; [|reflexivity]]].
    + unfold ToolLoader.prependToPath at 1. cbn [ToolLoader.env].
      rewrite lookup_insert_eq. cbn [default from_option]. unfold id.
      rewrite decide_True; [reflexivity|]. rewrite Hnew. apply list_elem_of_here.
    + intros k Hk. apply lookup_insert_ne. congruence.
Qed.

Lemma prependToPath_idempotent_witness :
  "/opt/cmake/bin" ∈ ToolLoader.split ":"
              (default "" (ToolLoader.env (ToolLoader.prependToPath ":" "/opt/cmake/bin" ex_env)
                           !! "PATH"))
  ∧ ToolLoader.prependToPath ":" "/opt/cmake/bin"
      (ToolLoader.prependToPath ":" "/opt/cmake/bin" ex_env)
    = ToolLoader.prependToPath ":" "/opt/cmake/bin" ex_env
  ∧ ("/opt/cmake/bin" ∉ ToolLoader.split ":" (default "" (ToolLoader.env ex_env !! "PATH")) →
     ToolLoader.split ":"
       (default "" (ToolLoader.env (ToolLoader.prependToPath ":" "/opt/cmake/bin" ex_env)
                    !! "PATH"))
     = "/opt/cmake/bin" :: ToolLoader.split ":" (default "" (ToolLoader.env ex_env !! "PATH")))
  ∧ (∀ k, k ≠ "PATH" →
          ToolLoader.env (ToolLoader.prependToPath ":" "/opt/cmake/bin" ex_env) !! k
          = ToolLoader.env ex_env !! k)
  ∧ ToolLoader.rest (ToolLoader.prependToPath ":" "/opt/cmake/bin" ex_env)
    = ToolLoader.rest ex_env.
Proof.
  apply (prependToPath_idempotent ":" "/opt/cmake/bin" ex_env).
  apply (bool_decide_unpack _); vm_compute; exact I.
Defined.

(** X23. [appendToEnv] with a non-empty value that does not contain [;]
    adds it to the variable once: afterwards it is among the values of the
    variable, a second call changes nothing, a value that was not there is
    put last with the earlier values before it, and no other variable is
    touched. *)
Theorem appendToEnv_idempotent {R : Type} (varName value : string)
    (w : @ToolLoader.World R) :
  value ≠ "" →
  ";"%char ∉ chars value →
  value ∈ filter (λ v, v ≠ "")
            (ToolLoader.split ";"
               (default "" (ToolLoader.env (ToolLoader.appendToEnv varName value w)
                            !! varName)))
  ∧ ToolLoader.appendToEnv varName value (ToolLoader.appendToEnv varName value w)
    = ToolLoader.appendToEnv varName value w
  ∧ (value ∉ filter (λ v, v ≠ "")
               (ToolLoader.split ";" (default "" (ToolLoader.env w !! varName))) →
     filter (λ v, v ≠ "")
       (ToolLoader.split ";"
          (default "" (ToolLoader.env (ToolLoader.appendToEnv varName value w) !! varName)))
     = filter (λ v, v ≠ "")
         (ToolLoader.split ";" (default "" (ToolLoader.env w !! varName))) ++ [value])
  ∧ (∀ k, k ≠ varName →
          ToolLoader.env (ToolLoader.appendToEnv varName value w) !! k
          = ToolLoader.env w !! k)
  ∧ ToolLoader.rest (ToolLoader.appendToEnv varName value w) = ToolLoader.rest w.
Proof.
  intros Hne Hsemi.
  assert (Hnew : ∀ current,
             filter (λ v, v ≠ "")
               (ToolLoader.split ";"
                  (if String.eqb current "" then value else current +:+ ";" +:+ value))
             = filter (λ v, v ≠ "") (ToolLoader.split ";" current) ++ [value]).
  { intros current. destruct (String.eqb_spec current "") as [->|Hcur].
    - rewrite (split_whole _ _ Hsemi). cbn [ToolLoader.split].
      rewrite filter_cons_True by exact Hne.
      rewrite filter_cons_False by (intros H; apply H; reflexivity). reflexivity.
    - change (";" +:+ value) with (String ";" value).
      rewrite split_app, (split_whole _ _ Hsemi), filter_app.
      rewrite (filter_cons_True _ value) by exact Hne. reflexivity. }
  destruct (decide (value ∈ filter (λ v, v ≠ "")
                      (ToolLoader.split ";" (default "" (ToolLoader.env w !! varName)))))
    as [Hin|Hnin].
  - assert (E : ToolLoader.appendToEnv varName value w = w).
    { unfold ToolLoader.appendToEnv. rewrite decide_True by exact Hin. reflexivity. }
    rewrite !E. split; [exact Hin|]. split; [reflexivity|].
    split; [contradiction | split; reflexivity].
  - assert (E : ToolLoader.appendToEnv varName value w
                = ToolLoader.assign varName
                    (Some (if String.eqb (default "" (ToolLoader.env w !! varName)) ""
                           then value
                           else default "" (ToolLoader.env w !! varName)
                                +:+ ";" +:+ value)) w).
    { unfold ToolLoader.appendToEnv. rewrite decide_False by exact Hnin. reflexivity. }
    rewrite !E. unfold ToolLoader.assign. cbn [ToolLoader.env ToolLoader.rest].
    rewrite lookup_insert_eq. cbn [default from_option]. unfold id.
    split; [rewrite Hnew, elem_of_app, list_elem_of_singleton; tauto|].
    split; [|split; [intros _; apply Hnew | split; [|reflexivity]]].
    + unfold ToolLoader.appendToEnv at 1. cbn [ToolLoader.env].
      rewrite lookup_insert_eq. cbn [default from_option]. unfold id.
      rewrite decide_True; [reflexivity|].
      rewrite Hnew, elem_of_app, list_elem_of_singleton. tauto.
    + intros k Hk. apply lookup_insert_ne. congruence.
Qed.

Lemma appendToEnv_idempotent_witness :
  "C:\sdk\include" ∈ filter (λ v, v ≠ "")
            (ToolLoader.split ";"
               (default "" (ToolLoader.env (ToolLoader.appendToEnv "INCLUDE" "C:\sdk\include" ex_env)
                            !! "INCLUDE")))
  ∧ ToolLoader.appendToEnv "INCLUDE" "C:\sdk\include"
      (ToolLoader.appendToEnv "INCLUDE" "C:\sdk\include" ex_env)
    = ToolLoader.appendToEnv "INCLUDE" "C:\sdk\include" ex_env
  ∧ ("C:\sdk\include" ∉ filter (λ v, v ≠ "")
               (ToolLoader.split ";" (default "" (ToolLoader.env ex_env !! "INCLUDE"))) →
     filter (λ v, v ≠ "")
       (ToolLoader.split ";"
          (default "" (ToolLoader.env (ToolLoader.appendToEnv "INCLUDE" "C:\sdk\include" ex_env)
                       !! "INCLUDE")))
     = filter (λ v, v ≠ "")
         (ToolLoader.split ";" (default "" (ToolLoader.env ex_env !! "INCLUDE")))
       ++ ["C:\sdk\include"])
  ∧ (∀ k, k ≠ "INCLUDE" →
          ToolLoader.env (ToolLoader.appendToEnv "INCLUDE" "C:\sdk\include" ex_env) !! k
          = ToolLoader.env ex_env !! k)
  ∧ ToolLoader.rest (ToolLoader.appendToEnv "INCLUDE" "C:\sdk\include" ex_env)
    = ToolLoader.rest ex_env.
Proof.
  apply (appendToEnv_idempotent "INCLUDE" "C:\sdk\include" ex_env).
  - discriminate.
  - apply (bool_decide_unpack _); vm_compute; exact I.
Defined.

Section LoaderFacts.

Context {R : Type}.
Variable importModule :
  string → @ToolLoader.World R → (string + @ToolLoader.ToolModule R) * @ToolLoader.World R.
Variable path_join : string → string → string.
Variable pathToFileURL : string → string.

Local Abbreviation load_tool := (ToolLoader.load_tool importModule path_join pathToFileURL).
Local Abbreviation load_each := (ToolLoader.load_each importModule path_join pathToFileURL).
Local Abbreviation loadTools := (ToolLoader.loadTools importModule path_join pathToFileURL).

(** One iteration of the loop: it imports the module of its tool, calls no
    cleanup, pushes at most the cleanup of its tool, and wraps what is
    thrown. *)
Lemma load_tool_run toolsDir spec w r evs w' :
  load_tool toolsDir spec w = (r, evs, w') →
  imported evs = [spec] ∧ cleaned evs = []
  ∧ match r with
    | inl message =>
        ∃ inner, message = "Failed to load tool " +:+ dq +:+ tool_name spec +:+ dq
                           +:+ " from " +:+ dq +:+ tool_toolFile spec +:+ dq
                           +:+ ": " +:+ inner
    | inr pushed => ∀ c, pushed = Some c → c.1 = tool_name spec
    end.
Proof.
  unfold ToolLoader.load_tool, ToolLoader.try_catch, ToolLoader.bind, ToolLoader.call,
    ToolLoader.throw, ToolLoader.ret.
  destruct (importModule _ w) as [[e|toolModule] w1].
  { intros [= <- <- <-]. repeat split. eauto. }
  destruct (ToolLoader.configureTool toolModule) as [configure|].
  2:{ intros [= <- <- <-]. repeat split. discriminate. }
  destruct (configure w1) as [[e|result] w2].
  { intros [= <- <- <-]. repeat split. eauto. }
  destruct (ToolLoader.tool_ok result); cbn [negb].
  - intros [= <- <- <-]. repeat split.
    destruct (ToolLoader.tool_cleanup result); intros c [= <-]; reflexivity.
  - intros [= <- <- <-]. repeat split. eauto.
Qed.

Lemma load_each_run toolsDir specs fs0 w r evs w' :
  load_each toolsDir specs fs0 w = (r, evs, w') →
  cleaned evs = []
  ∧ match r with
    | inl message =>
        ∃ before spec after inner,
          specs = before ++ spec :: after
          ∧ message = "Failed to load tool " +:+ dq +:+ tool_name spec +:+ dq
                      +:+ " from " +:+ dq +:+ tool_toolFile spec +:+ dq
                      +:+ ": " +:+ inner
          ∧ imported evs = before ++ [spec]
    | inr fs =>
        imported evs = specs
        ∧ ∃ added, fs = fs0 ++ added ∧ sublist (map fst added) (map tool_name specs)
    end.
Proof.
  revert fs0 w r evs w'. induction specs as [|spec specs IH]; intros fs0 w r evs w'.
  - intros [= <- <- <-]. split; [reflexivity|]. split; [reflexivity|].
    exists []. rewrite app_nil_r. split; [reflexivity | constructor].
  - cbn [ToolLoader.load_each]. unfold ToolLoader.bind at 1.
    destruct (load_tool toolsDir spec w) as [[[e|pushed] evs1] w1] eqn:Hone.
    + intros [= <- <- <-].
      destruct (load_tool_run _ _ _ _ _ _ Hone) as (Himp & Hcl & inner & ->).
      split; [exact Hcl|]. exists [], spec, specs, inner.
      split; [reflexivity|]. split; [reflexivity | exact Himp].
    + destruct (load_each toolsDir specs _ w1) as [[r2 evs2] w2] eqn:Hrest.
      intros [= <- <- <-].
      destruct (load_tool_run _ _ _ _ _ _ Hone) as (Himp & Hcl & Hpushed).
      destruct (IH _ _ _ _ _ Hrest) as [Hcl2 Hr2].
      unfold imported, cleaned in *. rewrite !omap_app, Himp, Hcl, Hcl2.
      split; [reflexivity|]. destruct r2 as [message|fs].
      * destruct Hr2 as (before & s & after & inner & -> & -> & Himp2).
        exists (spec :: before), s, after, inner.
        split; [reflexivity|]. split; [reflexivity|]. rewrite Himp2. reflexivity.
      * destruct Hr2 as (Himp2 & added & -> & Hsub). rewrite Himp2.
        split; [reflexivity|].
        exists (from_option (λ c, [c]) [] pushed ++ added).
        split; [rewrite app_assoc; reflexivity|].
        destruct pushed as [c|]; cbn [from_option app map].
        -- rewrite (Hpushed c eq_refl). apply sublist_skip, Hsub.
        -- apply sublist_cons, Hsub.
Qed.


End LoaderFacts.

Section LoaderTheorems.

Context {R : Type}.
Variable importModule :
  string → @ToolLoader.World R → (string + @ToolLoader.ToolModule R) * @ToolLoader.World R.
Variable path_join : string → string → string.
Variable pathToFileURL : string → string.

Local Abbreviation loadTools := (ToolLoader.loadTools importModule path_join pathToFileURL).


(** X25. When [loadTools] throws, the message names the tool that failed
    and its file. The modules of the tools before it and its own were
    imported, in the order of the list, and none of the tools after it; no
    cleanup was called, not even for the tools configured before the
    failure. *)
Theorem loadTools_failure (toolSpecs : option (list ToolSpec)) (toolsDir : string)
    (w0 w1 : ToolLoader.World) (evs : list ToolLoader.event) (message : string) :
  loadTools toolSpecs toolsDir w0 = (inl message, evs, w1) →
  ∃ before spec after inner,
    toolSpecs = Some (before ++ spec :: after)
    ∧ message = "Failed to load tool " +:+ dq +:+ tool_name spec +:+ dq
                +:+ " from " +:+ dq +:+ tool_toolFile spec +:+ dq +:+ ": " +:+ inner
    ∧ imported evs = before ++ [spec]
    ∧ cleaned evs = [].
Proof.
  unfold ToolLoader.loadTools.
  destruct toolSpecs as [[|spec specs]|]; [discriminate | | discriminate].
  unfold ToolLoader.bind at 1.
  destruct (ToolLoader.load_each _ _ _ _ (spec :: specs) [] w0) as [[[e|fs] evs1] w2] eqn:Hload;
    [|discriminate].
  intros [= <- <- <-].
  apply load_each_run in Hload as (Hcl & before & s & after & inner & Hspecs & -> & Himp).
  exists before, s, after, inner. rewrite Hspecs. repeat split; assumption.
Qed.

End LoaderTheorems.


Lemma loadTools_failure_witness :
  ∃ before spec after inner,
    Some [ex_cmake; ex_broken; ex_cmake] = Some (before ++ spec :: after)
    ∧ "Failed to load tool " +:+ dq +:+ "ninja" +:+ dq +:+ " from " +:+ dq
      +:+ "broken.js" +:+ dq +:+ ": Cannot find module"
      = "Failed to load tool " +:+ dq +:+ tool_name spec +:+ dq
        +:+ " from " +:+ dq +:+ tool_toolFile spec +:+ dq +:+ ": " +:+ inner
    ∧ imported (ex_loadTools_run [ex_cmake; ex_broken; ex_cmake]).1.2 = before ++ [spec]
    ∧ cleaned (ex_loadTools_run [ex_cmake; ex_broken; ex_cmake]).1.2 = [].
Proof.
  apply (loadTools_failure ex_importTool ex_join ex_url
           (Some [ex_cmake; ex_broken; ex_cmake]) "/build/tools" ex_env
           (ex_loadTools_run [ex_cmake; ex_broken; ex_cmake]).2).
  vm_compute. reflexivity.
Defined.
